(** * suivi-delinquance: the filename parser and the indicator extraction engine

    A shallow embedding of [parsePdf.js] (server), of its in-browser twin and
    of the filename parser of [server/index.js], with the properties the
    specification states about them.

    Conventions of the embedding:
    - a JavaScript string is the list of its UTF-16 code units;
    - a JavaScript number is an IEEE-754 binary64 value ([spec_float] with
      precision 53 and maximal exponent 1024), [null] is [None];
    - a regular expression is a sequence of quantified character classes with
      capture marks and anchors, matched by backtracking in the order
      ECMAScript prescribes (greedy: longest first, lazy: shortest first);
    - an exception is a value of the result type. *)

From Stdlib Require Import List ZArith NArith Bool Lia String Ascii.
From Stdlib Require Import Floats.SpecFloat.
Import ListNotations.

Set Implicit Arguments.

(* ================================================================== *)
(** ** JavaScript strings                                              *)
(* ================================================================== *)

Module JsString.

Definition char := N.
Bind Scope N_scope with char.
Definition jsstring := list char.

(** Decoding of a UTF-8 byte sequence into UTF-16 code units; it gives the
    string literals of the source their JavaScript value. *)
Definition cont (b : N) : N := N.land b 63.

Fixpoint utf16_of_utf8 (bs : list N) : jsstring :=
  match bs with
  | [] => []
  | b :: rest =>
    if (b <? 128)%N then b :: utf16_of_utf8 rest
    else if (b <? 224)%N then
      match rest with
      | b2 :: rest2 =>
          (N.shiftl (N.land b 31) 6 + cont b2)%N :: utf16_of_utf8 rest2
      | [] => [b]
      end
    else if (b <? 240)%N then
      match rest with
      | b2 :: b3 :: rest3 =>
          (N.shiftl (N.land b 15) 12 + N.shiftl (cont b2) 6 + cont b3)%N
            :: utf16_of_utf8 rest3
      | _ => [b]
      end
    else
      match rest with
      | b2 :: b3 :: b4 :: rest4 =>
          let cp := (N.shiftl (N.land b 7) 18 + N.shiftl (cont b2) 12
                     + N.shiftl (cont b3) 6 + cont b4)%N in
          let v := (cp - 65536)%N in
          (55296 + N.shiftr v 10)%N :: (56320 + N.land v 1023)%N
            :: utf16_of_utf8 rest4
      | _ => [b]
      end
  end.

Definition js (s : string) : jsstring :=
  utf16_of_utf8 (map N_of_ascii (list_ascii_of_string s)).

(** The empty string. *)
Definition empty : jsstring := [].

Definition eqb (a b : jsstring) : bool :=
  if list_eq_dec N.eq_dec a b then true else false.

(** WhiteSpace and LineTerminator of ECMAScript: the characters [\s] matches
    and [trim] removes. *)
Definition is_space (c : char) : bool :=
  ((9 <=? c) && (c <=? 13) || (c =? 32) || (c =? 160) || (c =? 5760)
   || (8192 <=? c) && (c <=? 8202) || (c =? 8232) || (c =? 8233)
   || (c =? 8239) || (c =? 8287) || (c =? 12288) || (c =? 65279))%N.

Definition is_digit (c : char) : bool := ((48 <=? c) && (c <=? 57))%N.

(** [\n], [\r], U+2028 and U+2029, which [.] does not match. *)
Definition is_line_terminator (c : char) : bool :=
  ((c =? 10) || (c =? 13) || (c =? 8232) || (c =? 8233))%N.

Fixpoint trimStart (s : jsstring) : jsstring :=
  match s with
  | c :: s' => if is_space c then trimStart s' else s
  | [] => []
  end.

Definition trimEnd (s : jsstring) : jsstring := rev (trimStart (rev s)).

Definition trim (s : jsstring) : jsstring := trimEnd (trimStart s).

Fixpoint starts_with (p s : jsstring) : bool :=
  match p, s with
  | [], _ => true
  | a :: p', b :: s' => (a =? b)%N && starts_with p' s'
  | _ :: _, [] => false
  end.

(** [s.indexOf(p)]; [None] stands for -1. *)
Fixpoint indexOf (p s : jsstring) : option nat :=
  if starts_with p s then Some 0
  else match s with
       | [] => None
       | _ :: s' => option_map S (indexOf p s')
       end.

(** [s.slice(a, b)] for [0 <= a <= b]. *)
Definition slice (a b : nat) (s : jsstring) : jsstring :=
  firstn (b - a) (skipn a s).

(** [s.replace(p, r)] with a string pattern: the first occurrence only. *)
Fixpoint replace_first (p r s : jsstring) : jsstring :=
  if starts_with p s then r ++ skipn (List.length p) s
  else match s with
       | [] => []
       | c :: s' => c :: replace_first p r s'
       end.

End JsString.
Import JsString.

(* ================================================================== *)
(** ** Regular expressions                                             *)
(* ================================================================== *)

Module Regex.

(** Character classes. [ChrI c] is the literal [c] under the [i] flag: the
    characters whose canonical (upper-case) form is that of [c]. *)
Inductive cset :=
| Chr (c : char)
| ChrI (c : char)
| Digit
| Space
| Dot
| Range (lo hi : char)
| Union (a b : cset)
| Compl (a : cset).

(** The other case of a letter of Basic Latin or of [À]..[Þ], [à]..[þ]: the
    only other character with the same canonical form (ECMAScript keeps a
    non-ASCII character whose upper case is ASCII, so the long s and the
    Kelvin sign do not match [s] and [k]). The patterns of this program hold
    no other letter. *)
Definition swap_case (c : char) : char :=
  if ((65 <=? c) && (c <=? 90))%N then (c + 32)%N
  else if ((97 <=? c) && (c <=? 122))%N then (c - 32)%N
  else if ((192 <=? c) && (c <=? 222) && negb (c =? 215))%N then (c + 32)%N
  else if ((224 <=? c) && (c <=? 254) && negb (c =? 247))%N then (c - 32)%N
  else c.

Fixpoint mem (k : cset) (c : char) : bool :=
  match k with
  | Chr a => (a =? c)%N
  | ChrI a => (a =? c)%N || (swap_case a =? c)%N
  | Digit => is_digit c
  | Space => is_space c
  | Dot => negb (is_line_terminator c)
  | Range lo hi => ((lo <=? c) && (c <=? hi))%N
  | Union a b => mem a c || mem b c
  | Compl a => negb (mem a c)
  end.

(** One item of a pattern: a class with its quantifier [{lo,hi}] ([hi = None]
    is unbounded) and its greediness, the opening or closing parenthesis of a
    capture group, or an anchor. *)
Inductive node :=
| Rep (k : cset) (lo : nat) (hi : option nat) (greedy : bool)
| GOpen
| GClose
| Bol
| Eol.

Definition regex := list node.

Definition one (k : cset) : node := Rep k 1 (Some 1) true.
Definition opt (k : cset) : node := Rep k 0 (Some 1) true.
Definition star (k : cset) : node := Rep k 0 None true.
Definition plus (k : cset) : node := Rep k 1 None true.
Definition plus_lazy (k : cset) : node := Rep k 1 None false.
Definition times (k : cset) (lo hi : nat) : node := Rep k lo (Some hi) true.

(** A literal piece of a pattern, with and without the [i] flag. *)
Definition lit (s : string) : regex := map (fun c => one (Chr c)) (js s).
Definition lit_i (s : string) : regex := map (fun c => one (ChrI c)) (js s).

(** Number of leading characters of [s] in the class, at most [hi]. *)
Fixpoint run_length (k : cset) (hi : option nat) (s : jsstring) : nat :=
  match hi with
  | Some 0 => 0
  | _ =>
    match s with
    | c :: s' =>
        if mem k c then S (run_length k (option_map pred hi) s') else 0
    | [] => 0
    end
  end.

Section Backtrack.
Variable A : Type.
Variable f : nat -> option A.

(** Greedy: [k], [k-1], ..., [lo]. *)
Fixpoint try_down (lo k : nat) : option A :=
  match f k with
  | Some r => Some r
  | None =>
    match k with
    | S k' => if (lo <=? k')%nat then try_down lo k' else None
    | O => None
    end
  end.

(** Lazy: [k], [k+1], ..., [k+n]. *)
Fixpoint try_up (k n : nat) : option A :=
  match f k with
  | Some r => Some r
  | None =>
    match n with
    | S n' => try_up (S k) n'
    | O => None
    end
  end.
End Backtrack.

(** State of a match attempt: the groups captured so far, in the order of
    their parentheses, and the start of the group being captured. *)
Record mstate := { captured : list jsstring; opened : option (nat * jsstring) }.

Definition mstate0 : mstate := {| captured := []; opened := None |}.

(** [match_here r pos s st]: match [r] against [s], the subject from
    position [pos] on; the result is the end position and the groups. *)
Fixpoint match_here (r : regex) (pos : nat) (s : jsstring) (st : mstate)
  : option (nat * list jsstring) :=
  match r with
  | [] => Some (pos, captured st)
  | Rep k lo hi greedy :: r' =>
      let avail := run_length k hi s in
      if (avail <? lo)%nat then None
      else
        let next n := match_here r' (pos + n) (skipn n s) st in
        if greedy then try_down next lo avail
        else try_up next lo (avail - lo)
  | GOpen :: r' =>
      match_here r' pos s
        {| captured := captured st; opened := Some (pos, s) |}
  | GClose :: r' =>
      match opened st with
      | Some (p0, s0) =>
          match_here r' pos s
            {| captured := captured st ++ [firstn (pos - p0) s0];
               opened := None |}
      | None => match_here r' pos s st
      end
  | Bol :: r' => if (pos =? 0)%nat then match_here r' pos s st else None
  | Eol :: r' => match s with [] => match_here r' pos s st | _ => None end
  end.

(** A successful match: where it starts and stops, the matched text
    ([m[0]]) and the groups ([m[1]], [m[2]], ...). *)
Record rmatch := {
  m_start : nat; m_stop : nat; m_text : jsstring; m_groups : list jsstring }.

Definition mk_match (pos : nat) (s : jsstring) (r : nat * list jsstring)
  : rmatch :=
  {| m_start := pos; m_stop := fst r;
     m_text := firstn (fst r - pos) s; m_groups := snd r |}.

(** [m[i]]: the matched text for [i = 0], the [i]-th group otherwise. *)
Definition m_get (m : rmatch) (i : nat) : jsstring :=
  match i with
  | O => m_text m
  | S j => nth j (m_groups m) []
  end.

(** The leftmost match at or after [pos]. *)
Fixpoint search_from (r : regex) (pos : nat) (s : jsstring) : option rmatch :=
  match match_here r pos s mstate0 with
  | Some res => Some (mk_match pos s res)
  | None =>
    match s with
    | [] => None
    | _ :: s' => search_from r (S pos) s'
    end
  end.

(** [s.match(r)] for a pattern without the [g] flag. *)
Definition match_first (r : regex) (s : jsstring) : option rmatch :=
  search_from r 0 s.

(** The successive matches of a pattern with the [g] flag, left to right and
    without overlap: what repeated [exec] calls yield, and what [match] and
    [replace] iterate over. [skip] counts the characters still inside the
    previous match; after an empty match the search resumes one character
    further. *)
Fixpoint matches_from (r : regex) (pos : nat) (s : jsstring) (skip : nat)
  : list rmatch :=
  match skip with
  | S k =>
    match s with
    | [] => []
    | _ :: s' => matches_from r (S pos) s' k
    end
  | O =>
    match match_here r pos s mstate0 with
    | Some res =>
        mk_match pos s res ::
        match s with
        | [] => []
        | _ :: s' => matches_from r (S pos) s' (fst res - pos - 1)
        end
    | None =>
      match s with
      | [] => []
      | _ :: s' => matches_from r (S pos) s' 0
      end
    end
  end.

Definition match_all (r : regex) (s : jsstring) : list rmatch :=
  matches_from r 0 s 0.

(** [s.replace(r, by)] with the [g] flag ([by] holds no [$] pattern). *)
Fixpoint replace_from (r : regex) (by_ : jsstring) (pos : nat) (s : jsstring)
  (skip : nat) : jsstring :=
  match skip with
  | S k =>
    match s with
    | [] => []
    | _ :: s' => replace_from r by_ (S pos) s' k
    end
  | O =>
    match match_here r pos s mstate0 with
    | Some res =>
        by_ ++
        match s with
        | [] => []
        | c :: s' =>
            (if (fst res =? pos)%nat then [c] else [])
              ++ replace_from r by_ (S pos) s' (fst res - pos - 1)
        end
    | None =>
      match s with
      | [] => []
      | c :: s' => c :: replace_from r by_ (S pos) s' 0
      end
    end
  end.

Definition replace_all (r : regex) (by_ s : jsstring) : jsstring :=
  replace_from r by_ 0 s 0.

(** [s.replace(r, by)] without the [g] flag: the leftmost match only. *)
Definition replace_one (r : regex) (by_ s : jsstring) : jsstring :=
  match match_first r s with
  | Some m => firstn (m_start m) s ++ by_ ++ skipn (m_stop m) s
  | None => s
  end.

End Regex.
Import Regex.

(* ================================================================== *)
(** ** JavaScript numbers                                              *)
(* ================================================================== *)

Module JsNumber.

Local Open Scope Z_scope.

(** A Number is a binary64 value. *)
Definition number := spec_float.

Definition NaN : number := S754_nan.
Definition of_Z (z : Z) : number := binary_normalize 53 1024 z 0 false.
Definition sub (x y : number) : number := SFsub 53 1024 x y.
Definition mul (x y : number) : number := SFmul 53 1024 x y.
Definition div (x y : number) : number := SFdiv 53 1024 x y.
Definition opp (x : number) : number := SFopp x.
Definition ltb (x y : number) : bool := SFltb x y.
Definition leb (x y : number) : bool := SFleb x y.
(** [x > y] is evaluated as [y < x]; [x >= y] as [y <= x]. *)
Definition gtb (x y : number) : bool := SFltb y x.
Definition geb (x y : number) : bool := SFleb y x.

Definition isNaN (x : number) : bool :=
  match x with S754_nan => true | _ => false end.

(** ToNumber of a value that is a number or [null]: [null] is [+0]. *)
Definition to_number (v : option number) : number :=
  match v with Some x => x | None => S754_zero false end.

(** The binary64 value nearest to [n / d] (ties to even), for [0 < n] and
    [0 < d]: the quotient is computed with more than 64 significant bits and
    a sticky bit, then rounded once. *)
Definition of_ratio (n d : Z) : number :=
  let s := Z.max 0 (Z.log2 d + 66 - Z.log2 n) in
  let q := Z.div (n * 2 ^ s) d in
  let r := Z.modulo (n * 2 ^ s) d in
  binary_normalize 53 1024 (2 * q + (if r =? 0 then 0 else 1)) (- (s + 1))
    false.

(** The binary64 value nearest to [m * 10^e], for [0 <= m]. *)
Definition of_decimal (m e : Z) : number :=
  if m =? 0 then S754_zero false
  else if 0 <=? e then of_Z (m * 10 ^ e)
  else of_ratio m (10 ^ (- e)).

(** [Math.round]: the nearest integer, a tie going towards [+∞]; the sign
    of a zero result is the sign of the argument. *)
Definition Math_round (x : number) : number :=
  match x with
  | S754_finite sg m e =>
      if 0 <=? e then x
      else
        let num := if sg then Z.neg m else Z.pos m in
        let den := 2 ^ (- e) in
        let r := Z.div (2 * num + den) (2 * den) in
        if r =? 0 then S754_zero sg else of_Z r
  | _ => x
  end.

(** Value of a run of decimal digits. *)
Definition digit_val (c : char) : Z := Z.of_N c - 48.

Definition digits_val (ds : jsstring) : Z :=
  fold_left (fun acc c => 10 * acc + digit_val c) ds 0.

Fixpoint take_digits (s : jsstring) : jsstring * jsstring :=
  match s with
  | c :: s' =>
      if is_digit c then let (d, r) := take_digits s' in (c :: d, r)
      else ([], s)
  | [] => ([], [])
  end.

(** An optional sign: [(negative, rest)]. *)
Definition take_sign (s : jsstring) : bool * jsstring :=
  match s with
  | c :: s' =>
      if (c =? 45)%N then (true, s')
      else if (c =? 43)%N then (false, s')
      else (false, s)
  | [] => (false, [])
  end.

Definition signed (neg : bool) (x : number) : number :=
  if neg then opp x else x.

(** [parseInt(s, 10)]: leading white space, a sign, then the longest run of
    digits; [NaN] when there is none. An implementation may approximate an
    integer of more than 20 digits; this one rounds it correctly. *)
Definition parseInt10 (s : jsstring) : number :=
  let (neg, s1) := take_sign (trimStart s) in
  let (ds, _) := take_digits s1 in
  match ds with
  | [] => NaN
  | _ => signed neg (of_Z (digits_val ds))
  end.

(** The exponent part of a decimal literal, when there is one. *)
Definition take_exponent (s : jsstring) : Z :=
  match s with
  | c :: s' =>
      if ((c =? 101) || (c =? 69))%N then
        let (neg, s2) := take_sign s' in
        let (ds, _) := take_digits s2 in
        match ds with
        | [] => 0
        | _ => if neg then - digits_val ds else digits_val ds
        end
      else 0
  | [] => 0
  end.

(** [parseFloat(s)]: leading white space, then the longest prefix that is a
    decimal literal (sign, [Infinity] or digits with an optional fraction and
    exponent); [NaN] when there is none. *)
Definition parseFloat (s : jsstring) : number :=
  let (neg, s1) := take_sign (trimStart s) in
  if starts_with (js "Infinity") s1 then S754_infinity neg
  else
    let (ip, r1) := take_digits s1 in
    let (fp, r2) :=
      match r1 with
      | c :: r1' => if (c =? 46)%N then take_digits r1' else ([], r1)
      | [] => ([], r1)
      end in
    match ip ++ fp with
    | [] => NaN
    | ds =>
        signed neg
          (of_decimal (digits_val ds)
             (take_exponent r2 - Z.of_nat (List.length fp)))
    end.

End JsNumber.
Import JsNumber.

(* ================================================================== *)
(** ** Unicode tables                                                  *)
(* ================================================================== *)

(** [toLowerCase] and [normalize] read the Unicode character database. The
    parser is modelled over any implementation of them; what is used of the
    database is its restriction to Basic Latin, which case conversion maps
    to itself letter by letter and normalisation leaves alone. *)

Definition is_ascii (s : jsstring) : bool := forallb (fun c => (c <? 128)%N) s.

Definition ascii_lower (c : char) : char :=
  if ((65 <=? c) && (c <=? 90))%N then (c + 32)%N else c.

Class Unicode := {
  toLowerCase : jsstring -> jsstring;
  normalizeNFC : jsstring -> jsstring;
  normalizeNFD : jsstring -> jsstring;
  toLowerCase_ascii :
    forall s, is_ascii s = true -> toLowerCase s = map ascii_lower s;
  normalizeNFC_ascii : forall s, is_ascii s = true -> normalizeNFC s = s;
  normalizeNFD_ascii : forall s, is_ascii s = true -> normalizeNFD s = s
}.

(** The tables restricted to Basic Latin and the Latin-1 letters, one
    combining mark per letter: enough to run the parser on French names. *)
Module Latin1.

(** (precomposed capital, base capital, combining mark) *)
Definition decompositions : list (char * (char * char)) :=
  [ (192, (65, 768)); (193, (65, 769)); (194, (65, 770)); (195, (65, 771));
    (196, (65, 776)); (197, (65, 778)); (199, (67, 807)); (200, (69, 768));
    (201, (69, 769)); (202, (69, 770)); (203, (69, 776)); (204, (73, 768));
    (205, (73, 769)); (206, (73, 770)); (207, (73, 776)); (209, (78, 771));
    (210, (79, 768)); (211, (79, 769)); (212, (79, 770)); (213, (79, 771));
    (214, (79, 776)); (217, (85, 768)); (218, (85, 769)); (219, (85, 770));
    (220, (85, 776)); (221, (89, 769)) ]%N.

Definition table : list (char * (char * char)) :=
  decompositions
  ++ map (fun e => (fst e + 32, (fst (snd e) + 32, snd (snd e))))%N
       decompositions
  ++ [ (255, (121, 776)) ]%N.

Definition decompose (c : char) : jsstring :=
  match find (fun e => (fst e =? c)%N) table with
  | Some (_, (b, m)) => [b; m]
  | None => [c]
  end.

Definition compose (b m : char) : option char :=
  option_map fst
    (find (fun e => (fst (snd e) =? b)%N && (snd (snd e) =? m)%N) table).

Definition nfd (s : jsstring) : jsstring := flat_map decompose s.

Fixpoint nfc_from (prev : char) (s : jsstring) : jsstring :=
  match s with
  | [] => [prev]
  | c :: s' =>
    match compose prev c with
    | Some p => nfc_from p s'
    | None => prev :: nfc_from c s'
    end
  end.

Definition nfc (s : jsstring) : jsstring :=
  match nfd s with
  | [] => []
  | c :: s' => nfc_from c s'
  end.

Definition lower_char (c : char) : char :=
  if ((65 <=? c) && (c <=? 90))%N then (c + 32)%N
  else if ((192 <=? c) && (c <=? 222) && negb (c =? 215))%N then (c + 32)%N
  else c.

Definition lower (s : jsstring) : jsstring := map lower_char s.

End Latin1.

(* ================================================================== *)
(** ** The filename parser ([server/index.js], browser module)         *)
(* ================================================================== *)

(** The first code unit of a literal. *)
Definition chr (s : string) : char := hd 0%N (js s).

(** [s.replace(/p/g, by)] for a literal [p]; [fixFilenameEncoding] chains
    eleven of them, the innermost call first. *)
Definition replace_g (p by_ : string) (s : jsstring) : jsstring :=
  replace_all (lit p) (js by_) s.

Definition fixFilenameEncoding (str : jsstring) : jsstring :=
  replace_g "Ã€" "À" (replace_g "Ã‰" "É" (replace_g "Ã¼" "ü"
    (replace_g "Ã¯" "ï" (replace_g "Ã®" "î" (replace_g "Ã§" "ç"
      (replace_g "Ã»" "û" (replace_g "Ã´" "ô" (replace_g "Ã " "à"
        (replace_g "Ã¨" "è" (replace_g "Ã©" "é" str)))))))))).

(** A property value read from an object literal: [undefined], a number, or
    a member found on [Object.prototype], from which every object literal
    inherits (a function such as [constructor], never a number). *)
Inductive value :=
| VUndefined
| VNumber (n : number)
| VInherited (name : jsstring).

Definition Object_prototype_keys : list jsstring :=
  map js [ "constructor"; "__defineGetter__"; "__defineSetter__";
           "hasOwnProperty"; "__lookupGetter__"; "__lookupSetter__";
           "isPrototypeOf"; "propertyIsEnumerable"; "toString"; "valueOf";
           "__proto__"; "toLocaleString" ]%string.

(** [o[k]] for an object literal [o] with integer-valued own properties. *)
Definition get (o : list (jsstring * Z)) (k : jsstring) : value :=
  match find (fun e => JsString.eqb (fst e) k) o with
  | Some (_, v) => VNumber (of_Z v)
  | None =>
    if existsb (JsString.eqb k) Object_prototype_keys then VInherited k
    else VUndefined
  end.

Definition truthy (v : value) : bool :=
  match v with
  | VUndefined => false
  | VNumber (S754_zero _) => false
  | VNumber S754_nan => false
  | VNumber _ => true
  | VInherited _ => true
  end.

(** [a || b] *)
Definition or_else (a b : value) : value := if truthy a then a else b.

Definition MOIS_MAP : list (jsstring * Z) :=
  map (fun e => (js (fst e), snd e))
    [ ("janvier", 1); ("jan", 1); ("fevrier", 2); ("février", 2); ("fev", 2);
      ("mars", 3); ("avril", 4); ("mai", 5); ("juin", 6); ("juillet", 7);
      ("juil", 7); ("aout", 8); ("août", 8); ("septembre", 9); ("sept", 9);
      ("sep", 9); ("octobre", 10); ("novembre", 11); ("decembre", 12);
      ("décembre", 12); ("dec", 12); ("déc", 12) ]%string%Z.

Definition MOIS_FALLBACK : list (jsstring * Z) :=
  map (fun e => (js (fst e), snd e))
    [ ("delcembre", 12); ("aoult", 8); ("aoul", 8) ]%string%Z.

Definition MOIS_LABELS : list jsstring :=
  empty ::
  map js [ "Janvier"; "Février"; "Mars"; "Avril"; "Mai"; "Juin"; "Juillet";
           "Août"; "Septembre"; "Octobre"; "Novembre"; "Décembre" ]%string.

(** [a[v]] for an array [a]: an element when [v] is one of its indices,
    [undefined] ([None]) for any other key. *)
Definition array_get (a : list jsstring) (v : value) : option jsstring :=
  match v with
  | VNumber x =>
      match find (fun i => SFeqb x (of_Z (Z.of_nat i))) (seq 0 (List.length a))
      with
      | Some i => nth_error a i
      | None => None
      end
  | _ => None
  end.

Definition reA : regex :=
  [ Bol; GOpen; times Digit 1 2; GClose; one (Chr (chr "_"));
    GOpen; plus_lazy Dot; GClose; one (Chr (chr "_"));
    GOpen; plus_lazy (Compl (Union Digit (Chr (chr "_")))); GClose;
    GOpen; times Digit 4 4; GClose; Eol ].

Definition reB : regex :=
  [ Bol; GOpen; plus_lazy Dot; GClose; one (Chr (chr "_"));
    GOpen; plus_lazy (Compl (Union Digit (Chr (chr "_")))); GClose;
    GOpen; times Digit 4 4; GClose; Eol ].

(** The outcome: the populated record, or the error message alone. *)
Record ParsedFilename := {
  commune : jsstring;
  mois : value;
  moisLabel : option jsstring;
  annee : number }.

Inductive parse_result :=
| Erreur (erreur : jsstring)
| Parsed (p : ParsedFilename).

Section FilenameParser.
Context {U : Unicode}.

(** From the month token on: the part after the two patterns. *)
Definition resolve (communeRaw moisStr anneeStr : jsstring) : parse_result :=
  let moisTrim := toLowerCase (trim moisStr) in
  let moisClean :=
    replace_all [plus Space] []
      (replace_all [one (Range 768 879)] [] (normalizeNFD moisTrim)) in
  let moisIndex :=
    or_else (or_else (get MOIS_MAP moisTrim) (get MOIS_MAP moisClean))
      (get MOIS_FALLBACK moisClean) in
  if negb (truthy moisIndex) then
    Erreur (js "Mois " ++ [34%N] ++ trim moisStr ++ [34%N]
            ++ js " non reconnu.")
  else
    let annee := parseInt10 anneeStr in
    let commune :=
      trim (replace_all (lit "-") (js " ")
              (replace_all (lit "_") (js " ") communeRaw)) in
    let moisLabel := array_get MOIS_LABELS moisIndex in
    Parsed {| commune := commune; mois := moisIndex;
              moisLabel := moisLabel; annee := annee |}.

Definition parseFilename (filename : jsstring) : parse_result :=
  let base :=
    trim (replace_one ([one (Chr (chr "."))] ++ lit_i "pdf" ++ [Eol]) []
            filename) in
  let base := normalizeNFC (fixFilenameEncoding base) in
  match match_first reA base, match_first reB base with
  | Some mA, _ => resolve (m_get mA 2) (m_get mA 3) (m_get mA 4)
  | None, Some mB => resolve (m_get mB 1) (m_get mB 2) (m_get mB 3)
  | None, None =>
      Erreur (js "Format de nom de fichier non reconnu : " ++ filename)
  end.
End FilenameParser.

(* ================================================================== *)
(** ** The indicator extraction engine                                 *)
(* ================================================================== *)

(** [RawIndicatorSet]: what [parsePdfText] returns. *)
Record RawIndicatorSet := {
  population : option number;
  surface : option number;
  densite : option number;
  faitsN1 : option number;
  faitsN : option number;
  cumul : option number;
  taux : option number;
  cbv : option number;
  menaces : option number;
  volsSimp : option number;
  cambRes : option number;
  cambPro : option number;
  roulotte : option number;
  destrucVeh : option number;
  incendies : option number;
  stupef : option number;
  autorite : option number }.

(** One entry of the mapping [buildIndicateursFrontend] returns. The field
    [taux] exists on the [general_faits] entry only: [None] is its absence,
    [Some v] its value [v]. *)
Module Ind.
Record IndicatorRecord := {
  label : jsstring;
  cat : jsstring;
  valN1 : option number;
  valN : option number;
  cumul : option number;
  variationPct : option number;
  taux : option (option number) }.
End Ind.
Abbreviation IndicatorRecord := Ind.IndicatorRecord.
Abbreviation label := Ind.label.
Abbreviation cat := Ind.cat.
Abbreviation valN1 := Ind.valN1.
Abbreviation valN := Ind.valN.
Abbreviation variationPct := Ind.variationPct.

(** How a call ends: with a value, or with an exception. *)
Inductive exception := ReferenceError (identifier : jsstring).

Inductive completion (A : Type) :=
| Return (v : A)
| Throw (e : exception).
Arguments Return {A} v.
Arguments Throw {A} e.

(** [a === null] and [a ?? b] *)
Definition is_null (A : Type) (a : option A) : bool :=
  match a with None => true | Some _ => false end.

Definition coalesce (A : Type) (a b : option A) : option A :=
  match a with Some _ => a | None => b end.

(** The patterns; the two modules write them alike. *)

(** [/(\d+)\s+(\d+)\s*[\+\-%\d]/g] *)
Definition re_pair : regex :=
  [ GOpen; plus Digit; GClose; plus Space; GOpen; plus Digit; GClose;
    star Space;
    one (Union (Chr (chr "+")) (Union (Chr (chr "-"))
           (Union (Chr (chr "%")) Digit))) ].

(** The patterns are quoted with blanks around a group.

    [/Population\s*\*?\s*:?\s*( \d[\d\s]* )\s*habitants/i] *)
Definition re_population : regex :=
  lit_i "Population"
  ++ [ star Space; opt (Chr (chr "*")); star Space; opt (Chr (chr ":"));
       star Space; GOpen; one Digit; star (Union Digit Space); GClose;
       star Space ]
  ++ lit_i "habitants".

(** [/Surface\s*:?\s*( \d[\d\s,]* )\s*km/i] *)
Definition re_surface : regex :=
  lit_i "Surface"
  ++ [ star Space; opt (Chr (chr ":")); star Space; GOpen; one Digit;
       star (Union Digit (Union Space (Chr (chr ",")))); GClose; star Space ]
  ++ lit_i "km".

(** [/Densité\s*:?\s*( \d[\d\s,]* )\s*hab/i] *)
Definition re_densite : regex :=
  lit_i "Densité"
  ++ [ star Space; opt (Chr (chr ":")); star Space; GOpen; one Digit;
       star (Union Digit (Union Space (Chr (chr ",")))); GClose; star Space ]
  ++ lit_i "hab".

(** [/fait\s*\(\s*s\s*\)\s*\)\s*( \d{2,4} )/i] *)
Definition re_fait_i : regex :=
  lit_i "fait"
  ++ [ star Space; one (Chr (chr "(")); star Space; one (ChrI (chr "s"));
       star Space; one (Chr (chr ")")); star Space; one (Chr (chr ")"));
       star Space; GOpen; times Digit 2 4; GClose ].

(** [/fait\(s\)\)\s*( \d{2,4} )/] *)
Definition re_fait : regex :=
  lit "fait(s))" ++ [ star Space; GOpen; times Digit 2 4; GClose ].

(** [/Cumul\s*20\d{2}\s*( \d{2,4} )/i] *)
Definition re_cumul : regex :=
  lit_i "Cumul"
  ++ [ star Space ] ++ lit "20"
  ++ [ times Digit 2 2; star Space; GOpen; times Digit 2 4; GClose ].

(** [/Taux de criminalité\s*[\d.,\s]+\s*‰\s*( [\d.,\s]+ )\s*‰/i] *)
Definition num_chars : cset :=
  Union Digit (Union (Chr (chr ".")) (Union (Chr (chr ",")) Space)).

Definition re_taux : regex :=
  lit_i "Taux de criminalité"
  ++ [ star Space; plus num_chars; star Space; one (Chr (chr "‰"));
       star Space; GOpen; plus num_chars; GClose; star Space;
       one (Chr (chr "‰")) ].

(** *** The server module ([server/parsePdf.js]) *)
Module Server.

Definition normalizeNum (s : jsstring) : option number :=
  match s with
  | [] => None
  | _ =>
    let n := replace_first (js ",") (js ".") (replace_all [one Space] [] s) in
    let v := parseFloat n in
    if isNaN v then None else Some v
  end.

Definition parseIntStrict (s : jsstring) : option number :=
  match s with
  | [] => None
  | _ =>
    let n := replace_all [one Space] [] s in
    let v := parseInt10 n in
    if isNaN v then None else Some v
  end.

(** The [while ((m = re.exec(after)) !== null)] loop, over the successive
    matches of the pattern: a rejected candidate continues with the next
    match, the first accepted one is returned. *)
Fixpoint scan_pairs (ms : list rmatch) : option number * option number :=
  match ms with
  | [] => (None, None)
  | m :: ms' =>
    let a := parseIntStrict (m_get m 1) in
    let b := parseIntStrict (m_get m 2) in
    if gtb (to_number a) (of_Z 200) || gtb (to_number b) (of_Z 200)
    then scan_pairs ms'
    else if gtb (to_number a) (of_Z 25) && ltb (to_number b) (of_Z 5)
    then scan_pairs ms'
    else (a, b)
  end.

Definition getTwoIntsAfter (norm label : jsstring)
  : option number * option number :=
  match indexOf label norm with
  | None => (None, None)
  | Some idx =>
    let after :=
      slice (idx + List.length label) (idx + List.length label + 180) norm in
    scan_pairs (match_all re_pair after)
  end.

Definition getOneIntAfter (norm label : jsstring) : option number :=
  match indexOf label norm with
  | None => None
  | Some idx =>
    let after :=
      slice (idx + List.length label) (idx + List.length label + 80) norm in
    match match_first [plus Digit] after with
    | Some m => parseIntStrict (m_get m 0)
    | None => None
    end
  end.

Definition parsePdfText (text : jsstring) : completion RawIndicatorSet :=
  (* [text || empty string]: the empty string is the only falsy string *)
  let t := text in
  let norm := trim (replace_all [plus Space] (js " ") t) in
  let population :=
    match match_first re_population norm with
    | Some m => normalizeNum (m_get m 1)
    | None => None
    end in
  let surface :=
    match match_first re_surface norm with
    | Some m => normalizeNum (m_get m 1)
    | None => None
    end in
  let densite :=
    match match_first re_densite norm with
    | Some m => normalizeNum (m_get m 1)
    | None => None
    end in
  let '(faitsN1, faitsN, cumul) :=
    match indexOf (js "Nombre de faits constatés") norm with
    | Some faitsIdx =>
      let block := slice faitsIdx (faitsIdx + 280) norm in
      let nums := map m_text (match_all [plus Digit] block) in
      let '(faitsN1, faitsN) :=
        if (2 <=? List.length nums)%nat
        then (parseIntStrict (nth 0 nums []), parseIntStrict (nth 1 nums []))
        else (None, None) in
      let cumulAfterFait :=
        match match_first re_fait_i block with
        | Some m => Some m
        | None => match_first re_fait block
        end in
      let cumul :=
        match cumulAfterFait with
        | Some m => parseIntStrict (m_get m 1)
        | None => None
        end in
      (faitsN1, faitsN, cumul)
    | None => (None, None, None)
    end in
  let cumul :=
    match cumul with
    | None =>
      match match_first re_cumul norm with
      | Some m => parseIntStrict (m_get m 1)
      | None => None
      end
    | Some _ => cumul
    end in
  let taux :=
    match match_first re_taux norm with
    | Some m => normalizeNum (m_get m 1)
    | None => None
    end in
  let cbv := snd (getTwoIntsAfter norm (js "Coups et blessures volontaires")) in
  let menaces := snd (getTwoIntsAfter norm (js "Menaces ou chantages")) in
  let volsSimp := snd (getTwoIntsAfter norm (js "Vols simples (41")) in
  let cambRes := snd (getTwoIntsAfter norm (js "Cambriolages de résidences")) in
  let cambPro := snd (getTwoIntsAfter norm (js "Cambriolages de locaux")) in
  let cambPro :=
    if is_null cambPro
    then snd (getTwoIntsAfter norm (js "professionnelle, publique ou associative"))
    else cambPro in
  let cambPro :=
    if is_null cambPro
    then snd (getTwoIntsAfter norm (js "professionnelle ou associative (29)"))
    else cambPro in
  let roulotte := snd (getTwoIntsAfter norm (js "Vols à la roulotte")) in
  let roulotte :=
    if is_null roulotte
    then snd (getTwoIntsAfter norm (js "roulotte et d'accessoires"))
    else roulotte in
  let destrucVeh :=
    snd (getTwoIntsAfter norm
           (js "Destructions et dégradations de véhicules privés")) in
  let destrucVeh :=
    if is_null destrucVeh
    then snd (getTwoIntsAfter norm (js "véhicules privés (68)"))
    else destrucVeh in
  let incendies := snd (getTwoIntsAfter norm (js "Incendies volontaires de biens")) in
  let stupef := snd (getTwoIntsAfter norm (js "stupéfiants constatées")) in
  let stupef :=
    if is_null stupef
    then snd (getTwoIntsAfter norm (js "législation sur les stupéfiants"))
    else stupef in
  let autorite := snd (getTwoIntsAfter norm (js "Atteintes à l'autorité")) in
  let autorite :=
    if is_null autorite
    then snd (getTwoIntsAfter norm (js "autorité (72, 73)"))
    else autorite in
  (* [cambPro ?? cambPro2 ?? getOneIntAfter(...)]: [cambPro2] is declared
     nowhere, so reading it throws as soon as [cambPro] is [null]; the
     fields before it evaluate without effect. *)
  match cambPro with
  | None => Throw (ReferenceError (js "cambPro2"))
  | Some _ =>
    Return
      {| population := population; surface := surface; densite := densite;
            faitsN1 := faitsN1; faitsN := faitsN; cumul := cumul; taux := taux;
            cbv := coalesce cbv (getOneIntAfter norm (js "Coups et blessures"));
            menaces := menaces; volsSimp := volsSimp;
            cambRes :=
              coalesce cambRes
                (getOneIntAfter norm (js "Cambriolages de résidences"));
            cambPro := cambPro;
            roulotte := roulotte; destrucVeh := destrucVeh;
            incendies := incendies; stupef := stupef; autorite := autorite |}
  end.

Definition varPct (n1 n : option number) : option number :=
  match n1, n with
  | Some p, Some c =>
      if gtb p (of_Z 0)
      then Some (Math_round (mul (div (sub c p) p) (of_Z 100)))
      else None
  | _, _ => None
  end.

Definition category (l c : string) (v : option number) : IndicatorRecord :=
  {| label := js l; cat := js c; valN1 := None; valN := v;
     Ind.cumul := None; variationPct := None; Ind.taux := None |}.

Definition buildIndicateursFrontend (raw : RawIndicatorSet)
  : list (jsstring * IndicatorRecord) :=
  [ (js "general_faits",
     {| label := js "Faits constatés"; cat := js "Général";
        valN1 := faitsN1 raw; valN := faitsN raw; Ind.cumul := cumul raw;
        variationPct := varPct (faitsN1 raw) (faitsN raw);
        Ind.taux := Some (taux raw) |});
    (js "general_taux",
     {| label := js "Taux criminalité (‰)"; cat := js "Général";
        valN1 := None; valN := taux raw; Ind.cumul := None;
        variationPct := None; Ind.taux := None |});
    (js "cbv",
     category "Coups et blessures volontaires" "Personnes" (cbv raw));
    (js "menaces", category "Menaces ou chantages" "Personnes" (menaces raw));
    (js "vols_simples", category "Vols simples" "Vols" (volsSimp raw));
    (js "camb_resid",
     category "Cambriolages résidentiels" "Cambriolages" (cambRes raw));
    (js "camb_pro",
     category "Cambriolages locaux pro." "Cambriolages" (cambPro raw));
    (js "roulotte", category "Vols à la roulotte" "Automobile" (roulotte raw));
    (js "destruc_veh",
     category "Destructions véhicules" "Automobile" (destrucVeh raw));
    (js "incendies", category "Incendies volontaires" "Autres" (incendies raw));
    (js "stupef", category "Infractions stupéfiants" "Autres" (stupef raw));
    (js "autorite", category "Atteintes à l'autorité" "Autres" (autorite raw))
  ].

End Server.

(** *** The browser module *)
Module Browser.

Definition normalizeNum (s : jsstring) : option number :=
  match s with
  | [] => None
  | _ =>
    let n := replace_first (js ",") (js ".") (replace_all [one Space] [] s) in
    let v := parseFloat n in
    if isNaN v then None else Some v
  end.

Definition parseIntStrict (s : jsstring) : option number :=
  match s with
  | [] => None
  | _ =>
    let n := replace_all [one Space] [] s in
    let v := parseInt10 n in
    if isNaN v then None else Some v
  end.

(** The [while ((m = re.exec(after)) !== null)] loop, over the successive
    matches of the pattern: a rejected candidate continues with the next
    match, the first accepted one is returned. *)
Fixpoint scan_pairs (ms : list rmatch) : option number * option number :=
  match ms with
  | [] => (None, None)
  | m :: ms' =>
    let a := parseIntStrict (m_get m 1) in
    let b := parseIntStrict (m_get m 2) in
    if gtb (to_number a) (of_Z 200) || gtb (to_number b) (of_Z 200)
    then scan_pairs ms'
    else if gtb (to_number a) (of_Z 25) && ltb (to_number b) (of_Z 5)
    then scan_pairs ms'
    else (a, b)
  end.

Definition getTwoIntsAfter (norm label : jsstring)
  : option number * option number :=
  match indexOf label norm with
  | None => (None, None)
  | Some idx =>
    let after :=
      slice (idx + List.length label) (idx + List.length label + 180) norm in
    scan_pairs (match_all re_pair after)
  end.

Definition getOneIntAfter (norm label : jsstring) : option number :=
  match indexOf label norm with
  | None => None
  | Some idx =>
    let after :=
      slice (idx + List.length label) (idx + List.length label + 80) norm in
    match match_first [plus Digit] after with
    | Some m => parseIntStrict (m_get m 0)
    | None => None
    end
  end.

Definition parsePdfText (text : jsstring) : RawIndicatorSet :=
  (* [text || empty string]: the empty string is the only falsy string *)
  let t := text in
  let norm := trim (replace_all [plus Space] (js " ") t) in
  let population :=
    match match_first re_population norm with
    | Some m => normalizeNum (m_get m 1)
    | None => None
    end in
  let surface :=
    match match_first re_surface norm with
    | Some m => normalizeNum (m_get m 1)
    | None => None
    end in
  let densite :=
    match match_first re_densite norm with
    | Some m => normalizeNum (m_get m 1)
    | None => None
    end in
  let '(faitsN1, faitsN, cumul) :=
    match indexOf (js "Nombre de faits constatés") norm with
    | Some faitsIdx =>
      let block := slice faitsIdx (faitsIdx + 280) norm in
      let nums := map m_text (match_all [plus Digit] block) in
      let '(faitsN1, faitsN) :=
        if (2 <=? List.length nums)%nat
        then (parseIntStrict (nth 0 nums []), parseIntStrict (nth 1 nums []))
        else (None, None) in
      let cumulAfterFait :=
        match match_first re_fait_i block with
        | Some m => Some m
        | None => match_first re_fait block
        end in
      let cumul :=
        match cumulAfterFait with
        | Some m => parseIntStrict (m_get m 1)
        | None => None
        end in
      (faitsN1, faitsN, cumul)
    | None => (None, None, None)
    end in
  let cumul :=
    match cumul with
    | None =>
      match match_first re_cumul norm with
      | Some m => parseIntStrict (m_get m 1)
      | None => None
      end
    | Some _ => cumul
    end in
  let taux :=
    match match_first re_taux norm with
    | Some m => normalizeNum (m_get m 1)
    | None => None
    end in
  let cbv := snd (getTwoIntsAfter norm (js "Coups et blessures volontaires")) in
  let menaces := snd (getTwoIntsAfter norm (js "Menaces ou chantages")) in
  let volsSimp := snd (getTwoIntsAfter norm (js "Vols simples (41")) in
  let cambRes := snd (getTwoIntsAfter norm (js "Cambriolages de résidences")) in
  let cambPro := snd (getTwoIntsAfter norm (js "Cambriolages de locaux")) in
  let cambPro :=
    if is_null cambPro
    then snd (getTwoIntsAfter norm (js "professionnelle, publique ou associative"))
    else cambPro in
  let cambPro :=
    if is_null cambPro
    then snd (getTwoIntsAfter norm (js "professionnelle ou associative (29)"))
    else cambPro in
  let roulotte := snd (getTwoIntsAfter norm (js "Vols à la roulotte")) in
  let roulotte :=
    if is_null roulotte
    then snd (getTwoIntsAfter norm (js "roulotte et d'accessoires"))
    else roulotte in
  let destrucVeh :=
    snd (getTwoIntsAfter norm
           (js "Destructions et dégradations de véhicules privés")) in
  let destrucVeh :=
    if is_null destrucVeh
    then snd (getTwoIntsAfter norm (js "véhicules privés (68)"))
    else destrucVeh in
  let incendies := snd (getTwoIntsAfter norm (js "Incendies volontaires de biens")) in
  let stupef := snd (getTwoIntsAfter norm (js "stupéfiants constatées")) in
  let stupef :=
    if is_null stupef
    then snd (getTwoIntsAfter norm (js "législation sur les stupéfiants"))
    else stupef in
  let autorite := snd (getTwoIntsAfter norm (js "Atteintes à l'autorité")) in
  let autorite :=
    if is_null autorite
    then snd (getTwoIntsAfter norm (js "autorité (72, 73)"))
    else autorite in
  {| population := population; surface := surface; densite := densite;
       faitsN1 := faitsN1; faitsN := faitsN; cumul := cumul; taux := taux;
       cbv := coalesce cbv (getOneIntAfter norm (js "Coups et blessures"));
       menaces := menaces; volsSimp := volsSimp;
       cambRes :=
         coalesce cambRes
           (getOneIntAfter norm (js "Cambriolages de résidences"));
       cambPro := 
         coalesce cambPro (getOneIntAfter norm (js "Cambriolages de locaux"));
       roulotte := roulotte; destrucVeh := destrucVeh;
       incendies := incendies; stupef := stupef; autorite := autorite |}.

Definition varPct (n1 n : option number) : option number :=
  match n1, n with
  | Some p, Some c =>
      if gtb p (of_Z 0)
      then Some (Math_round (mul (div (sub c p) p) (of_Z 100)))
      else None
  | _, _ => None
  end.

Definition category (l c : string) (v : option number) : IndicatorRecord :=
  {| label := js l; cat := js c; valN1 := None; valN := v;
     Ind.cumul := None; variationPct := None; Ind.taux := None |}.

Definition buildIndicateursFrontend (raw : RawIndicatorSet)
  : list (jsstring * IndicatorRecord) :=
  [ (js "general_faits",
     {| label := js "Faits constatés"; cat := js "Général";
        valN1 := faitsN1 raw; valN := faitsN raw; Ind.cumul := cumul raw;
        variationPct := varPct (faitsN1 raw) (faitsN raw);
        Ind.taux := Some (taux raw) |});
    (js "general_taux",
     {| label := js "Taux criminalité (‰)"; cat := js "Général";
        valN1 := None; valN := taux raw; Ind.cumul := None;
        variationPct := None; Ind.taux := None |});
    (js "cbv",
     category "Coups et blessures volontaires" "Personnes" (cbv raw));
    (js "menaces", category "Menaces ou chantages" "Personnes" (menaces raw));
    (js "vols_simples", category "Vols simples" "Vols" (volsSimp raw));
    (js "camb_resid",
     category "Cambriolages résidentiels" "Cambriolages" (cambRes raw));
    (js "camb_pro",
     category "Cambriolages locaux pro." "Cambriolages" (cambPro raw));
    (js "roulotte", category "Vols à la roulotte" "Automobile" (roulotte raw));
    (js "destruc_veh",
     category "Destructions véhicules" "Automobile" (destrucVeh raw));
    (js "incendies", category "Incendies volontaires" "Autres" (incendies raw));
    (js "stupef", category "Infractions stupéfiants" "Autres" (stupef raw));
    (js "autorite", category "Atteintes à l'autorité" "Autres" (autorite raw))
  ].

End Browser.

(* ================================================================== *)
(** ** Notions used in the statements                                  *)
(* ================================================================== *)

(** The text the extractor scans: the [n] characters after the first
    occurrence of the label, when there is one. *)
Definition window (n : nat) (norm label : jsstring) : option jsstring :=
  match indexOf label norm with
  | None => None
  | Some idx =>
      Some (slice (idx + List.length label) (idx + List.length label + n) norm)
  end.

Definition plausible (x y : number) : Prop :=
  leb x (of_Z 200) = true /\ leb y (of_Z 200) = true
  /\ ~ (geb x (of_Z 26) = true /\ ltb y (of_Z 5) = true).

(** The variation as the specification words it: the rounded percent change
    when the prior value is present and strictly positive and the current
    value is present, [null] otherwise. *)
Definition variationPercent (prior current : option number) : option number :=
  match prior with
  | None => None
  | Some p =>
    if negb (gtb p (of_Z 0)) then None
    else
      match current with
      | None => None
      | Some c => Some (Math_round (mul (div (sub c p) p) (of_Z 100)))
      end
  end.

(** [m[k]] for the mapping returned by [buildIndicateursFrontend]. *)
Definition entry (k : string) (m : list (jsstring * IndicatorRecord))
  : option IndicatorRecord :=
  option_map snd (find (fun e => JsString.eqb (fst e) (js k)) m).

Definition indicator_keys : list jsstring :=
  map js [ "general_faits"; "general_taux"; "cbv"; "menaces"; "vols_simples";
           "camb_resid"; "camb_pro"; "roulotte"; "destruc_veh"; "incendies";
           "stupef"; "autorite" ]%string.

Definition category_groups : list jsstring :=
  map js [ "Personnes"; "Vols"; "Cambriolages"; "Automobile"; "Autres" ]%string.

(** The ten category entries: key, label, group and the raw field read. *)
Definition category_table (raw : RawIndicatorSet)
  : list (jsstring * (jsstring * jsstring * option number)) :=
  [ (js "cbv", (js "Coups et blessures volontaires", js "Personnes", cbv raw));
    (js "menaces", (js "Menaces ou chantages", js "Personnes", menaces raw));
    (js "vols_simples", (js "Vols simples", js "Vols", volsSimp raw));
    (js "camb_resid",
     (js "Cambriolages résidentiels", js "Cambriolages", cambRes raw));
    (js "camb_pro",
     (js "Cambriolages locaux pro.", js "Cambriolages", cambPro raw));
    (js "roulotte", (js "Vols à la roulotte", js "Automobile", roulotte raw));
    (js "destruc_veh",
     (js "Destructions véhicules", js "Automobile", destrucVeh raw));
    (js "incendies", (js "Incendies volontaires", js "Autres", incendies raw));
    (js "stupef", (js "Infractions stupéfiants", js "Autres", stupef raw));
    (js "autorite", (js "Atteintes à l'autorité", js "Autres", autorite raw)) ].

(** A category entry carries a label, a group and the current value only. *)
Definition is_category_entry (r : IndicatorRecord)
  (d : jsstring * jsstring * option number) : Prop :=
  label r = fst (fst d) /\ cat r = snd (fst d) /\ valN r = snd d
  /\ valN1 r = None /\ Ind.cumul r = None /\ variationPct r = None
  /\ Ind.taux r = None /\ In (cat r) category_groups.

(** The normalised text both copies work on. *)
Definition normalise (text : jsstring) : jsstring :=
  trim (replace_all [plus Space] (js " ") text).

(** The three paired lookups that set [cambPro], in their order. *)
Definition cambPro_lookups (norm : jsstring) : option number :=
  let cambPro := snd (Browser.getTwoIntsAfter norm (js "Cambriolages de locaux")) in
  let cambPro :=
    if is_null cambPro
    then snd (Browser.getTwoIntsAfter norm
                (js "professionnelle, publique ou associative"))
    else cambPro in
  if is_null cambPro
  then snd (Browser.getTwoIntsAfter norm
              (js "professionnelle ou associative (29)"))
  else cambPro.

Definition all_null : RawIndicatorSet :=
  {| population := None; surface := None; densite := None; faitsN1 := None;
     faitsN := None; cumul := None; taux := None; cbv := None;
     menaces := None; volsSimp := None; cambRes := None; cambPro := None;
     roulotte := None; destrucVeh := None; incendies := None; stupef := None;
     autorite := None |}.

(** The delimiter that must follow a pair: [+], [-], [%] or a digit. *)
Definition delimiter : cset :=
  Union (Chr (chr "+")) (Union (Chr (chr "-")) (Union (Chr (chr "%")) Digit)).

Definition no_delimiter (s : jsstring) : bool :=
  forallb (fun c => negb (mem delimiter c)) s.

(** What a global replacement of a two-character literal by [by_] does. *)
Fixpoint replace_pair (a b : char) (by_ s : jsstring) : jsstring :=
  match s with
  | [] => []
  | x :: s' =>
    match s' with
    | y :: t =>
        if ((a =? x) && (b =? y))%N then by_ ++ replace_pair a b by_ t
        else x :: replace_pair a b by_ s'
    | [] => [x]
    end
  end.

(** [s] holds the two characters [a], [b] side by side. *)
Fixpoint has_pair (a b : char) (s : jsstring) : bool :=
  match s with
  | [] => false
  | x :: s' =>
    match s' with
    | y :: _ => ((a =? x) && (b =? y))%N || has_pair a b s'
    | [] => false
    end
  end.

(** The repair as a table: the second character of each pattern (the first
    is [Ã]) and its replacement, in the order of the calls. *)
Definition A_tilde : char := 195.

Definition repairs : list (char * char) :=
  [ (169, 233); (168, 232); (32, 224); (180, 244); (187, 251); (167, 231);
    (174, 238); (175, 239); (188, 252); (8240, 201); (8364, 192) ]%N.

Definition repair_all (s : jsstring) : jsstring :=
  fold_left (fun acc e => replace_pair A_tilde (fst e) [snd e] acc) repairs s.

Definition clean_for (l : list (char * char)) (s : jsstring) : Prop :=
  forall e, In e l -> has_pair A_tilde (fst e) s = false.

(** No replacement character is [Ã] or the second character of a
    pattern. *)
Definition good_table (l : list (char * char)) : Prop :=
  forall e e2, In e l -> In e2 l -> snd e <> A_tilde /\ snd e <> fst e2.

(** The patterns the repair replaces, as the source writes them, in the
    order of the calls; the third is [Ã] and the space U+0020. *)
Definition repair_patterns : list jsstring :=
  map js [ "Ã©"; "Ã¨"; "Ã "; "Ã´"; "Ã»"; "Ã§"; "Ã®"; "Ã¯"; "Ã¼"; "Ã‰";
           "Ã€" ]%string.

(** The UTF-8 bytes of a character of the Basic Multilingual Plane. *)
Definition utf8_bytes (c : char) : list N :=
  if (c <? 128)%N then [c]
  else if (c <? 2048)%N then [192 + c / 64; 128 + c mod 64]%N
  else [224 + c / 4096; 128 + (c / 64) mod 64; 128 + c mod 64]%N.

(** A byte read as Latin-1 is the character of the same number. *)
Definition latin_1 (b : N) : char := b.

(** A byte read as Windows-1252: as Latin-1, but for the bytes 80 to 9F,
    which are the punctuation marks and letters of that code page. *)
Definition windows_1252_high : list (N * char) :=
  [ (128, 8364); (130, 8218); (131, 402); (132, 8222); (133, 8230);
    (134, 8224); (135, 8225); (136, 710); (137, 8240); (138, 352);
    (139, 8249); (140, 338); (142, 381); (145, 8216); (146, 8217);
    (147, 8220); (148, 8221); (149, 8226); (150, 8211); (151, 8212);
    (152, 732); (153, 8482); (154, 353); (155, 8250); (156, 339);
    (158, 382); (159, 376) ]%N.

Definition windows_1252 (b : N) : char :=
  match find (fun e => (fst e =? b)%N) windows_1252_high with
  | Some e => snd e
  | None => b
  end.

(** What a character becomes when its UTF-8 bytes are read one by one in a
    single-byte encoding. *)
Definition mis_encoding (read : N -> char) (c : char) : jsstring :=
  map read (utf8_bytes c).

(** The corrupted sequences: the eleven letters the repair writes, each as
    its UTF-8 bytes read as Windows-1252, the reading under which [É] and
    [À] give the sequences the source has for them. *)
Definition corrupted_sequences : list jsstring :=
  map (fun e => mis_encoding windows_1252 (snd e)) repairs.

(** The same letters with their bytes read as Latin-1. *)
Definition corrupted_sequences_latin_1 : list jsstring :=
  map (fun e => mis_encoding latin_1 (snd e)) repairs.

(** The two groups of a match of the pair pattern are non-empty runs of
    digits. *)
Definition digits_group (d : jsstring) : Prop :=
  d <> [] /\ forallb is_digit d = true.

(** What a lookup in an object literal can give. *)
Inductive lookup_kind (o : list (jsstring * Z)) (k : jsstring) : value -> Prop :=
| lk_undefined : lookup_kind o k VUndefined
| lk_own (v : Z) : In v (map snd o) -> lookup_kind o k (VNumber (of_Z v))
| lk_inherited : In k Object_prototype_keys -> lookup_kind o k (VInherited k).

(** A month is well formed when it is an integer of 1..12 with its label. *)
Definition month_ok (p : ParsedFilename) : Prop :=
  exists n : Z,
    (1 <= n <= 12)%Z /\ mois p = VNumber (of_Z n)
    /\ moisLabel p = nth_error MOIS_LABELS (Z.to_nat n).

Definition month_inherited (p : ParsedFilename) : Prop :=
  exists k, In k Object_prototype_keys /\ mois p = VInherited k
            /\ moisLabel p = None.

(** A month index: an integer of 1..12, an inherited member, or nothing. *)
Definition month_index (ix : value) : Prop :=
  (exists n : Z, (1 <= n <= 12)%Z /\ ix = VNumber (of_Z n))
  \/ (exists k, In k Object_prototype_keys /\ ix = VInherited k)
  \/ ix = VUndefined.

(* ================================================================== *)
(** ** Further notions                                                 *)
(* ================================================================== *)

(** The language of a sequence of quantified classes: [w] splits into one
    run per item, each within its class and its bounds. *)
Definition within (hi : option nat) (n : nat) : Prop :=
  match hi with Some h => (n <= h)%nat | None => True end.

Fixpoint accepts (body : regex) (w : jsstring) : Prop :=
  match body with
  | [] => w = []
  | Rep k lo hi _ :: body' =>
      exists w1 w2,
        w = w1 ++ w2 /\ forallb (mem k) w1 = true
        /\ (lo <= List.length w1)%nat /\ within hi (List.length w1)
        /\ accepts body' w2
  | _ :: _ => False
  end.

(** The characters of a month token: neither a digit nor an underscore. *)
Definition month_chars : cset := Compl (Union Digit (Chr (chr "_"))).

(** No white space at either end. *)
Definition trimmed (s : jsstring) : Prop :=
  match s with [] => True | c :: _ => is_space c = false end
  /\ match rev s with [] => True | c :: _ => is_space c = false end.

(** The first run of digits of a string, empty when it holds no digit. *)
Fixpoint first_digits (s : jsstring) : jsstring :=
  match s with
  | [] => []
  | c :: s' => if is_digit c then c :: fst (take_digits s') else first_digits s'
  end.

(** What the normalisation does to a text: each run of white space becomes
    one space ([in_run] tells that the previous character was white
    space). *)
Fixpoint squeeze (in_run : bool) (s : jsstring) : jsstring :=
  match s with
  | [] => []
  | c :: s' =>
    if is_space c
    then if in_run then squeeze true s' else 32%N :: squeeze true s'
    else c :: squeeze false s'
  end.

(** Every white-space character is a space (U+0020) and no two of them are
    adjacent ([prev] tells that the character before was one). *)
Fixpoint single_spaced (prev : bool) (s : jsstring) : bool :=
  match s with
  | [] => true
  | c :: s' =>
    if is_space c then (c =? 32)%N && negb prev && single_spaced true s'
    else single_spaced false s'
  end.

(** The words of a text: its maximal runs of characters other than white
    space ([cur] is the word being read). *)
Fixpoint words_from (cur s : jsstring) : list jsstring :=
  match s with
  | [] => match cur with [] => [] | _ => [cur] end
  | c :: s' =>
    if is_space c
    then match cur with
         | [] => words_from [] s'
         | _ => cur :: words_from [] s'
         end
    else words_from (cur ++ [c]) s'
  end.

Definition words (s : jsstring) : list jsstring := words_from [] s.

(** The runs of digits of a text: its maximal runs of digits, left to
    right ([cur] is the run being read). *)
Fixpoint digit_runs_from (cur s : jsstring) : list jsstring :=
  match s with
  | [] => match cur with [] => [] | _ => [cur] end
  | c :: s' =>
    if is_digit c then digit_runs_from (cur ++ [c]) s'
    else match cur with
         | [] => digit_runs_from [] s'
         | _ => cur :: digit_runs_from [] s'
         end
  end.

Definition digit_runs (s : jsstring) : list jsstring := digit_runs_from [] s.

(** A pattern that cannot match without reading a digit: it holds a
    repetition of digits that must take one. *)
Definition needs_digit (rx : regex) : bool :=
  existsb (fun n => match n with
                    | Rep Digit (S _) _ _ => true
                    | _ => false
                    end) rx.

(** A text without any digit. *)
Definition no_digit (s : jsstring) : Prop :=
  forall x, In x s -> is_digit x = false.

(** A count: [null], or the number of a natural number. *)
Definition natural (v : option number) : Prop :=
  v = None \/ exists z : Z, (0 <= z)%Z /\ v = Some (of_Z z).

(** A count of at most [n]. *)
Definition count_upto (n : Z) (v : option number) : Prop :=
  v = None \/ exists z : Z, (0 <= z <= n)%Z /\ v = Some (of_Z z).

(** The extension [.pdf], in any letter case. *)
Definition pdf_pattern : regex :=
  [one (Chr (chr "."))] ++ lit_i "pdf" ++ [Eol].

Definition is_pdf_extension (ext : jsstring) : bool :=
  match ext with
  | [a; b; c; d] =>
      mem (Chr (chr ".")) a && mem (ChrI (chr "p")) b
      && mem (ChrI (chr "d")) c && mem (ChrI (chr "f")) d
  | _ => false
  end.

(** A suffix of [s] is such an extension. *)
Fixpoint has_pdf_extension (s : jsstring) : bool :=
  is_pdf_extension s
  || match s with
     | [] => false
     | _ :: s' => has_pdf_extension s'
     end.

(** The record of a parsed name, when there is one. *)
Definition parsed (r : parse_result) : option ParsedFilename :=
  match r with
  | Parsed p => Some p
  | Erreur _ => None
  end.

(** The commune as the parser writes it: underscores and hyphens become
    spaces, white space is trimmed at both ends. *)
Definition commune_of (c : jsstring) : jsstring :=
  trim (map (fun x => if ((x =? 95) || (x =? 45))%N then 32%N else x) c).

(** The name the two patterns are matched against: without its extension,
    trimmed, repaired and composed. *)
Definition base_of {U : Unicode} (filename : jsstring) : jsstring :=
  normalizeNFC
    (fixFilenameEncoding (trim (replace_one pdf_pattern [] filename))).

(** The record expected for a commune part, a month token and four
    digits: the month is read in the table of months under the trimmed,
    lower-cased token. *)
Definition conventional_record (c m y : jsstring) : ParsedFilename :=
  let moisIndex := get MOIS_MAP (map ascii_lower (trim m)) in
  {| commune := commune_of c;
     mois := moisIndex;
     moisLabel := array_get MOIS_LABELS moisIndex;
     annee := of_Z (digits_val y) |}.

(* ================================================================== *)
(** ** The callers: the browser importer and the API handler           *)
(* ================================================================== *)

(** [s.includes(p)] and [s.endsWith(p)] *)
Definition includes (p s : jsstring) : bool :=
  match indexOf p s with Some _ => true | None => false end.

Definition endsWith (p s : jsstring) : bool := starts_with (rev p) (rev s).

(** What an awaited call into a library gives: its value, or the error it
    throws, of which the callers read [message] only ([None] when the
    thrown value has none). *)
Inductive awaited (A : Type) :=
| Resolved (v : A)
| Rejected (message : option jsstring).
Arguments Resolved {A} v.
Arguments Rejected {A} message.

(** [err.message || fallback]: the empty string is falsy. *)
Definition message_or (message : option jsstring) (fallback : jsstring)
  : jsstring :=
  match message with
  | Some (c :: m) => c :: m
  | _ => fallback
  end.

(** The record both callers build for a parsed file. *)
Module Pdf.
Record PdfData := {
  commune : jsstring;
  communeKey : jsstring;
  mois : value;
  moisLabel : option jsstring;
  annee : number;
  population : option number;
  surface : option number;
  densite : option number;
  fichierSource : jsstring;
  donneesSource : jsstring;
  donneesReference : bool;
  indicateurs : list (jsstring * IndicatorRecord) }.
End Pdf.
Abbreviation PdfData := Pdf.PdfData.

(** What the importer yields for a file, and what the list of imported
    files holds: the source and an error message, or the record. *)
Inductive import_result :=
| Failed (fichierSource erreur : jsstring)
| Imported (d : PdfData).

(** [extractTextFromPdf], from the text items of the pages on: the strings
    of a page joined by a space, a space after each page. *)
Fixpoint join (sep : jsstring) (items : list jsstring) : jsstring :=
  match items with
  | [] => []
  | [x] => x
  | x :: rest => x ++ sep ++ join sep rest
  end.

Definition fullText (pages : list (list jsstring)) : jsstring :=
  fold_left (fun text items => text ++ join (js " ") items ++ js " ") pages
    empty.

(** [a === b] on property values: numbers by value ([NaN] differs from
    itself), inherited members by identity. *)
Definition strict_eq (a b : value) : bool :=
  match a, b with
  | VUndefined, VUndefined => true
  | VNumber x, VNumber y => SFeqb x y
  | VInherited j, VInherited k => JsString.eqb j k
  | _, _ => false
  end.

(** The test of [processFiles] for an entry [f] already listed:
    [!f.erreur && f.communeKey === data.communeKey && f.mois === data.mois
    && f.annee === data.annee]. An error entry carries a non-empty
    message. *)
Definition same_month (data : PdfData) (f : import_result) : bool :=
  match f with
  | Failed _ _ => false
  | Imported g =>
      JsString.eqb (Pdf.communeKey g) (Pdf.communeKey data)
      && strict_eq (Pdf.mois g) (Pdf.mois data)
      && SFeqb (Pdf.annee g) (Pdf.annee data)
  end.

(** [`${v}`] for a label that may be [undefined]. *)
Definition label_text (l : option jsstring) : jsstring :=
  match l with Some s => s | None => js "undefined" end.

Section Importer.
Context {U : Unicode}.

(** A [File] of the browser, with its name; pdf.js gives the text items of
    its pages, or rejects. [Number_toString] is the conversion of a number
    in a template literal. *)
Variable File : Type.
Variable name : File -> jsstring.
Variable pages_of : File -> awaited (list (list jsstring)).
Variable Number_toString : number -> jsstring.

Definition extractTextFromPdf (file : File) : awaited jsstring :=
  match pages_of file with
  | Resolved pages => Resolved (fullText pages)
  | Rejected message => Rejected message
  end.

Definition parsePdfInBrowser (file : File) : import_result :=
  let filename :=
    match name file with [] => js "document.pdf" | n => n end in
  match parseFilename filename with
  | Erreur nameError => Failed filename nameError
  | Parsed p =>
    match extractTextFromPdf file with
    | Rejected message =>
        Failed filename (message_or message (js "Impossible de lire le PDF."))
    | Resolved text =>
      let raw := Browser.parsePdfText text in
      let indicateurs := Browser.buildIndicateursFrontend raw in
      Imported
        {| Pdf.commune := commune p;
           Pdf.communeKey := toLowerCase (commune p);
           Pdf.mois := mois p;
           Pdf.moisLabel := moisLabel p;
           Pdf.annee := annee p;
           Pdf.population := population raw;
           Pdf.surface := surface raw;
           Pdf.densite := densite raw;
           Pdf.fichierSource := filename;
           Pdf.donneesSource := js "exacte";
           Pdf.donneesReference := true;
           Pdf.indicateurs := indicateurs |}
    end
  end.

(** The loop of [processFiles] over the PDF files: [parsedFiles] is the
    list the callback closed over, [newEntries] the entries pushed so
    far. *)
Fixpoint import_loop (parsedFiles newEntries : list import_result)
  (pdfFiles : list File) : list import_result :=
  match pdfFiles with
  | [] => newEntries
  | file :: rest =>
    match parsePdfInBrowser file with
    | Failed _ erreur =>
        import_loop parsedFiles (newEntries ++ [Failed (name file) erreur])
          rest
    | Imported data =>
        let dup :=
          existsb (same_month data) parsedFiles
          || existsb (same_month data) newEntries in
        if dup then
          import_loop parsedFiles
            (newEntries
             ++ [Failed (name file)
                   (js "Ce mois est déjà importé ("
                    ++ label_text (Pdf.moisLabel data) ++ js " "
                    ++ Number_toString (Pdf.annee data) ++ js " — "
                    ++ Pdf.commune data ++ js ")")])
            rest
        else import_loop parsedFiles (newEntries ++ [Imported data]) rest
    end
  end.

(** [processFiles]: the list after [setParsedFiles(prev => [...prev,
    ...newEntries])], [prev] being the list at the time of the update. *)
Definition processFiles (parsedFiles prev : list import_result)
  (files : list File) : list import_result :=
  let pdfFiles :=
    filter (fun f => endsWith (js ".pdf") (toLowerCase (name f))) files in
  match pdfFiles with
  | [] => prev
  | _ => prev ++ import_loop parsedFiles [] pdfFiles
  end.

End Importer.

(** [remove(idx)]: [prev.filter((_, i) => i !== idx)] *)
Fixpoint remove (idx : nat) (prev : list import_result) : list import_result :=
  match prev, idx with
  | [], _ => []
  | _ :: rest, O => rest
  | f :: rest, S i => f :: remove i rest
  end.

(** The entries of the list hold distinct months: no record has the commune
    key, the month and the year of a record listed before it. *)
Definition months_distinct (l : list import_result) : Prop :=
  forall l1 d l2,
    l = l1 ++ Imported d :: l2 -> existsb (same_month d) l1 = false.

(** The source an entry names. *)
Definition source_of (f : import_result) : jsstring :=
  match f with
  | Failed fichierSource _ => fichierSource
  | Imported d => Pdf.fichierSource d
  end.

(** *** The handler of [POST /api/parse-pdf] ([server/index.js]) *)

(** What [extractPdfData] resolves to. *)
Module Extract.
Record Extracted := {
  population : option number;
  surface : option number;
  densite : option number;
  indicateurs : list (jsstring * IndicatorRecord) }.
End Extract.
Abbreviation Extracted := Extract.Extracted.

(** The response: its status and its JSON body. *)
Inductive body :=
| ErreurBody (erreur : jsstring)
| DataBody (d : PdfData).

Record response := { status : nat; json : body }.

Section Handler.
Context {U : Unicode}.

(** The uploaded file as multer hands it over: [pdf] is pdf-parse, giving
    the text of the document or rejecting; [latin1_to_utf8] is
    [Buffer.from(s, "latin1").toString("utf8")]; [message_of] is the
    [message] of an exception of the engine. *)
Variable Buffer : Type.
Variable pdf : Buffer -> awaited jsstring.
Variable latin1_to_utf8 : jsstring -> jsstring.
Variable message_of : exception -> option jsstring.

Record UploadedFile := {
  originalname : jsstring;
  buffer : option Buffer }.

Definition extractPdfData (pdfBuffer : Buffer) : awaited Extracted :=
  match pdf pdfBuffer with
  | Rejected message => Rejected message
  | Resolved text =>
    match Server.parsePdfText text with
    | Throw e => Rejected (message_of e)
    | Return raw =>
        Resolved
          {| Extract.population := population raw;
             Extract.surface := surface raw;
             Extract.densite := densite raw;
             Extract.indicateurs := Server.buildIndicateursFrontend raw |}
    end
  end.

(** The name the handler parses: the original name, decoded anew when it
    holds an [Ã] and the decoding holds none. *)
Definition received_name (originalname : jsstring) : jsstring :=
  let filename :=
    match originalname with [] => js "document.pdf" | n => n end in
  if includes (js "Ã") filename then
    let decoded := latin1_to_utf8 filename in
    match decoded with
    | [] => filename
    | _ => if negb (includes (js "Ã") decoded) then decoded else filename
    end
  else filename.

Definition handler (file : option UploadedFile) : response :=
  match file with
  | None =>
      {| status := 400; json := ErreurBody (js "Aucun fichier PDF envoyé.") |}
  | Some f =>
    match buffer f with
    | None =>
        {| status := 400;
           json := ErreurBody (js "Aucun fichier PDF envoyé.") |}
    | Some pdfBuffer =>
      let filename := received_name (originalname f) in
      match parseFilename filename with
      | Erreur nameError => {| status := 400; json := ErreurBody nameError |}
      | Parsed p =>
        match extractPdfData pdfBuffer with
        | Rejected message =>
            {| status := 500;
               json :=
                 ErreurBody
                   (message_or message
                      (js "Erreur lors de l'extraction du PDF.")) |}
        | Resolved x =>
            {| status := 200;
               json :=
                 DataBody
                   {| Pdf.commune := commune p;
                      Pdf.communeKey := toLowerCase (commune p);
                      Pdf.mois := mois p;
                      Pdf.moisLabel := moisLabel p;
                      Pdf.annee := annee p;
                      Pdf.population := Extract.population x;
                      Pdf.surface := Extract.surface x;
                      Pdf.densite := Extract.densite x;
                      Pdf.fichierSource := filename;
                      Pdf.donneesSource := js "exacte";
                      Pdf.donneesReference := true;
                      Pdf.indicateurs := Extract.indicateurs x |} |}
        end
      end
    end
  end.

End Handler.

(* ================================================================== *)
(** ** Properties                                                      *)
(* ================================================================== *)

Lemma jsstring_eqb_eq (a b : jsstring) : JsString.eqb a b = true <-> a = b.
Proof.
  unfold JsString.eqb. destruct (list_eq_dec N.eq_dec a b); split; congruence.
Qed.

(* ================================================================== *)
(** ** The Latin-1 tables implement the interface                      *)
(* ================================================================== *)

Lemma is_ascii_cons c s :
  is_ascii (c :: s) = true -> (c < 128)%N /\ is_ascii s = true.
Proof.
  unfold is_ascii; simpl. intros H. apply andb_true_iff in H.
  destruct H as [H1 H2]. split; [now apply N.ltb_lt|exact H2].
Qed.

Lemma find_none_by (A : Type) (p q : A -> bool) (l : list A) :
  forallb q l = true -> (forall x, q x = true -> p x = false) ->
  find p l = None.
Proof.
  intros Hq Hpq. induction l as [|x l IH]; simpl in *; [reflexivity|].
  apply andb_true_iff in Hq. destruct Hq as [Hx Hl].
  rewrite (Hpq x Hx). now apply IH.
Qed.

Lemma Latin1_decompose_ascii c : (c < 128)%N -> Latin1.decompose c = [c].
Proof.
  intros Hc. unfold Latin1.decompose.
  rewrite (@find_none_by _ _ (fun e => (192 <=? fst e)%N)).
  - reflexivity.
  - now vm_compute.
  - intros e He. apply N.leb_le in He. apply N.eqb_neq. lia.
Qed.

Lemma Latin1_compose_ascii b c : (c < 128)%N -> Latin1.compose b c = None.
Proof.
  intros Hc. unfold Latin1.compose.
  rewrite (@find_none_by _ _ (fun e => (768 <=? snd (snd e))%N)).
  - reflexivity.
  - now vm_compute.
  - intros e He. apply N.leb_le in He. apply andb_false_iff. right.
    apply N.eqb_neq. lia.
Qed.

Lemma Latin1_nfd_ascii s : is_ascii s = true -> Latin1.nfd s = s.
Proof.
  unfold Latin1.nfd. induction s as [|c s IH]; intros H; [reflexivity|].
  apply is_ascii_cons in H. destruct H as [Hc Hs]. simpl.
  rewrite (Latin1_decompose_ascii Hc), (IH Hs). reflexivity.
Qed.

Lemma Latin1_nfc_from_ascii s :
  forall c, is_ascii s = true -> Latin1.nfc_from c s = c :: s.
Proof.
  induction s as [|d s IH]; intros c H; [reflexivity|].
  apply is_ascii_cons in H. destruct H as [Hd Hs]. simpl.
  rewrite (Latin1_compose_ascii c Hd), (IH d Hs). reflexivity.
Qed.

Lemma Latin1_nfc_ascii s : is_ascii s = true -> Latin1.nfc s = s.
Proof.
  intros H. unfold Latin1.nfc. rewrite (Latin1_nfd_ascii s H).
  destruct s as [|c s]; [reflexivity|].
  apply is_ascii_cons in H. now apply Latin1_nfc_from_ascii.
Qed.

Lemma Latin1_lower_ascii s :
  is_ascii s = true -> Latin1.lower s = map ascii_lower s.
Proof.
  unfold Latin1.lower. induction s as [|c s IH]; intros H; [reflexivity|].
  apply is_ascii_cons in H. destruct H as [Hc Hs]. simpl.
  rewrite (IH Hs). f_equal.
  unfold Latin1.lower_char, ascii_lower.
  destruct ((65 <=? c) && (c <=? 90))%N; [reflexivity|].
  replace (192 <=? c)%N with false; [reflexivity|].
  symmetry. apply N.leb_gt. lia.
Qed.

Definition latin1 : Unicode :=
  {| toLowerCase := Latin1.lower;
     normalizeNFC := Latin1.nfc;
     normalizeNFD := Latin1.nfd;
     toLowerCase_ascii := Latin1_lower_ascii;
     normalizeNFC_ascii := Latin1_nfc_ascii;
     normalizeNFD_ascii := Latin1_nfd_ascii |}.

(** With these tables: a mis-encoded, accented, upper-case month and a
    hyphenated commune. *)
Example parseFilename_latin1 :
  @parseFilename latin1 (js "12_Saint-Alban_DÃ©cembre2024.PDF")
  = Parsed {| commune := js "Saint Alban"; mois := VNumber (of_Z 12);
              moisLabel := Some (js "Décembre"); annee := of_Z 2024 |}.
Proof. vm_compute; reflexivity. Qed.

(* ================================================================== *)
(** ** Comparisons of numbers                                          *)
(* ================================================================== *)

Lemma SFcompare_antisym (x y : number) :
  SFcompare y x = option_map CompOpp (SFcompare x y).
Proof.
  destruct x as [sx|sx| |sx mx ex], y as [sy|sy| |sy my ey]; simpl;
    try destruct sx; try destruct sy; try reflexivity;
    rewrite (Z.compare_antisym ex ey); destruct (ex ?= ey)%Z; simpl;
    try reflexivity;
    now rewrite (Pos.compare_cont_antisym mx my Eq).
Qed.

(** [x > c] false, for a number [x] that is not [NaN], means [x <= c]. *)
Lemma not_gtb_leb (x c : number) :
  isNaN x = false -> isNaN c = false -> gtb x c = false -> leb x c = true.
Proof.
  unfold gtb, leb, SFltb, SFleb. intros Hx Hc.
  rewrite (SFcompare_antisym x c).
  destruct (SFcompare x c) as [[]|] eqn:E; simpl; try congruence.
  destruct x as [[]|[]| |[]], c as [[]|[]| |[]]; discriminate.
Qed.

(** [26 <= x] entails [25 < x]. *)
Lemma geb_26_gtb_25 (x : number) :
  geb x (of_Z 26) = true -> gtb x (of_Z 25) = true.
Proof.
  unfold geb, gtb, SFleb, SFltb.
  change (of_Z 26) with (S754_finite false 7318349394477056 (-48)).
  change (of_Z 25) with (S754_finite false 7036874417766400 (-48)).
  destruct x as [s|s| |s m e]; cbv beta iota delta [SFcompare];
    try congruence; try (destruct s; congruence).
  destruct s; [congruence|].
  destruct (Z.compare (-48) e); try congruence.
  rewrite !Pos.compare_cont_spec. cbv beta iota delta [Pos.switch_Eq].
  destruct (7318349394477056 ?= m)%positive eqn:E; try congruence; intros _.
  - apply Pos.compare_eq in E. subst m. reflexivity.
  - pose proof (proj1 (Pos.compare_lt_iff _ _) E) as Hlt.
    replace (7036874417766400 ?= m)%positive with Lt; [reflexivity|].
    symmetry. apply Pos.compare_lt_iff. lia.
Qed.

(* ================================================================== *)
(** ** The paired-figure extractor returns plausible pairs only        *)
(* ================================================================== *)

Lemma parseIntStrict_not_NaN (s : jsstring) (v : number) :
  Browser.parseIntStrict s = Some v -> isNaN v = false.
Proof.
  unfold Browser.parseIntStrict. destruct s as [|c s]; [discriminate|].
  destruct (isNaN (parseInt10 _)) eqn:E; [discriminate|].
  intros H. injection H as <-. exact E.
Qed.

Lemma getTwoIntsAfter_window (norm label : jsstring) :
  Browser.getTwoIntsAfter norm label =
  match window 180 norm label with
  | None => (None, None)
  | Some after => Browser.scan_pairs (match_all re_pair after)
  end.
Proof.
  unfold Browser.getTwoIntsAfter, window.
  destruct (indexOf label norm); reflexivity.
Qed.

Lemma scan_pairs_plausible (ms : list rmatch) (x y : number) :
  Browser.scan_pairs ms = (Some x, Some y) -> plausible x y.
Proof.
  induction ms as [|m ms IH]; [discriminate|].
  cbn [Browser.scan_pairs].
  destruct (Browser.parseIntStrict (m_get m 1)) as [a|] eqn:Ea;
    destruct (Browser.parseIntStrict (m_get m 2)) as [b|] eqn:Eb;
    cbn [to_number].
  2-4: destruct (_ || _); [exact IH|]; destruct (_ && _); [exact IH|];
       discriminate.
  destruct (gtb a (of_Z 200)) eqn:Ga; [exact IH|].
  destruct (gtb b (of_Z 200)) eqn:Gb; [exact IH|].
  cbn [orb].
  destruct (gtb a (of_Z 25) && ltb b (of_Z 5)) eqn:Gc; [exact IH|].
  intros H. injection H as <- <-.
  apply parseIntStrict_not_NaN in Ea, Eb.
  repeat split.
  - now apply not_gtb_leb.
  - now apply not_gtb_leb.
  - intros [H26 H5]. apply geb_26_gtb_25 in H26.
    rewrite H26, H5 in Gc. discriminate.
Qed.

(* ================================================================== *)
(** ** Year-over-year variation                                        *)
(* ================================================================== *)

(** C4. In both modules [varPct] is the variation of the specification:
    [round((current - prior) / prior * 100)] when the prior value is present
    and strictly positive and the current value is present, [null] when the
    prior value is [null], zero or negative or the current value is [null];
    27 and 36 give +33, 10 and 8 give -20. The arithmetic is that of
    binary64 numbers and [round] is [Math.round]. *)
Theorem varPct_variationPercent :
  (forall prior current,
      Browser.varPct prior current = variationPercent prior current
      /\ Server.varPct prior current = variationPercent prior current)
  /\ (forall current, Browser.varPct None current = None)
  /\ (forall prior, Browser.varPct prior None = None)
  /\ (forall p current,
         leb p (of_Z 0) = true -> Browser.varPct (Some p) current = None)
  /\ Browser.varPct (Some (of_Z 27)) (Some (of_Z 36)) = Some (of_Z 33)
  /\ Browser.varPct (Some (of_Z 10)) (Some (of_Z 8)) = Some (of_Z (-20)).
Proof.
  split; [|split; [|split; [|split; [|split]]]].
  - intros [p|] [c|]; unfold Browser.varPct, Server.varPct, variationPercent;
      try destruct (gtb p (of_Z 0)); split; reflexivity.
  - intros [c|]; reflexivity.
  - intros [p|]; reflexivity.
  - intros p current Hp. unfold Browser.varPct.
    replace (gtb p (of_Z 0)) with false; [now destruct current|].
    symmetry. revert Hp. unfold gtb, leb, SFltb, SFleb.
    rewrite (SFcompare_antisym p (of_Z 0)).
    destruct (SFcompare p (of_Z 0)) as [[]|]; simpl; congruence.
  - vm_compute; reflexivity.
  - vm_compute; reflexivity.
Qed.

Lemma varPct_variationPercent_witness :
  leb (of_Z (-3)) (of_Z 0) = true
  /\ Browser.varPct (Some (of_Z (-3))) (Some (of_Z 8)) = None.
Proof.
  split; [vm_compute; reflexivity|].
  apply (proj1 (proj2 (proj2 (proj2 varPct_variationPercent)))).
  vm_compute; reflexivity.
Defined.

(** The percent change is computed in binary64: when the exact quotient
    falls on a half, the double below it can be what is rounded. From 200 to
    403 the exact change is 101.5 and the result 101; from 8 to 9 it is 12.5
    and the result 13. *)
Remark varPct_at_ties :
  Browser.varPct (Some (of_Z 200)) (Some (of_Z 403)) = Some (of_Z 101)
  /\ Browser.varPct (Some (of_Z 8)) (Some (of_Z 9)) = Some (of_Z 13).
Proof. split; vm_compute; reflexivity. Qed.

(* ================================================================== *)
(** ** Output assembly                                                 *)
(* ================================================================== *)

Lemma build_server_browser (raw : RawIndicatorSet) :
  Server.buildIndicateursFrontend raw = Browser.buildIndicateursFrontend raw.
Proof. reflexivity. Qed.

(** C9. For every raw set the mapping has exactly the twelve fixed keys, in
    this order; [general_faits] is labelled "Faits constatés" in group
    "Général" and carries the prior and current values, the cumulative
    total, the variation and the crime rate; [general_taux] is labelled
    "Taux criminalité (‰)" in group "Général" and carries the crime rate as
    its current value and nothing else; each of the ten category entries
    carries its fixed label, one of the five groups and its current value. *)
Theorem buildIndicateursFrontend_shape (raw : RawIndicatorSet) :
  let m := Browser.buildIndicateursFrontend raw in
  map fst m = indicator_keys
  /\ List.length m = 12 /\ NoDup (map fst m)
  /\ entry "general_faits" m =
     Some {| label := js "Faits constatés"; cat := js "Général";
             valN1 := faitsN1 raw; valN := faitsN raw;
             Ind.cumul := cumul raw;
             variationPct := Browser.varPct (faitsN1 raw) (faitsN raw);
             Ind.taux := Some (taux raw) |}
  /\ entry "general_taux" m =
     Some {| label := js "Taux criminalité (‰)"; cat := js "Général";
             valN1 := None; valN := taux raw; Ind.cumul := None;
             variationPct := None; Ind.taux := None |}
  /\ map fst (skipn 2 m) = map fst (category_table raw)
  /\ Forall2 is_category_entry (map snd (skipn 2 m))
       (map snd (category_table raw))
  /\ Server.buildIndicateursFrontend raw = m.
Proof.
  cbv zeta. repeat split.
  - apply NoDup_count_occ' with (decA := list_eq_dec N.eq_dec).
    intros x Hx.
    repeat (destruct Hx as [<-|Hx]; [vm_compute; reflexivity|]).
    destruct Hx.
  - cbn [Browser.buildIndicateursFrontend skipn map snd category_table].
    unfold is_category_entry, Browser.category.
    repeat (apply Forall2_cons || apply Forall2_nil);
      cbn [label cat valN valN1 Ind.cumul variationPct Ind.taux fst snd];
      repeat split; vm_compute; tauto.
Qed.

(* ================================================================== *)
(** ** The two copies of the extraction                                *)
(* ================================================================== *)

Lemma helpers_server_browser :
  Server.getTwoIntsAfter = Browser.getTwoIntsAfter
  /\ Server.getOneIntAfter = Browser.getOneIntAfter
  /\ Server.normalizeNum = Browser.normalizeNum
  /\ Server.parseIntStrict = Browser.parseIntStrict.
Proof. repeat split. Qed.

(** The server copy, in terms of the browser copy: it throws when the three
    paired lookups of [cambPro] fail, and returns what the browser copy
    returns otherwise. *)
Lemma Server_parsePdfText_cases (text : jsstring) :
  Server.parsePdfText text =
  match cambPro_lookups (normalise text) with
  | None => Throw (ReferenceError (js "cambPro2"))
  | Some _ => Return (Browser.parsePdfText text)
  end.
Proof.
  destruct helpers_server_browser as (E2 & E1 & En & Ei).
  unfold Server.parsePdfText, Browser.parsePdfText, cambPro_lookups, normalise.
  rewrite E2, E1, En, Ei. cbv zeta.
  repeat match goal with
         | |- context [match ?X with pair _ _ => _ end] => destruct X
         end.
  match goal with
  | |- match ?X with _ => _ end = _ => destruct X; reflexivity
  end.
Qed.

(** C1. On the server copy the extraction throws for missing data: whenever
    the three paired lookups of the cambriolages-de-locaux figure fail,
    [parsePdfText] ends with a [ReferenceError] on [cambPro2] instead of
    returning a set with [null] values. *)
Theorem Server_parsePdfText_throws (text : jsstring) :
  cambPro_lookups (normalise text) = None ->
  Server.parsePdfText text = Throw (ReferenceError (js "cambPro2")).
Proof.
  intros H. rewrite Server_parsePdfText_cases, H. reflexivity.
Qed.

Lemma Server_parsePdfText_throws_witness :
  cambPro_lookups (normalise empty) = None
  /\ Server.parsePdfText empty = Throw (ReferenceError (js "cambPro2")).
Proof.
  split; [vm_compute; reflexivity|].
  apply (@Server_parsePdfText_throws empty). vm_compute; reflexivity.
Defined.

(** The browser copy is total and returns the all-[null] set on the empty
    text. *)
Lemma Browser_parsePdfText_empty : Browser.parsePdfText empty = all_null.
Proof. vm_compute; reflexivity. Qed.

(** Where the server copy returns, it returns what the browser copy does. *)
Lemma Server_returns_as_Browser (text : jsstring) (raw : RawIndicatorSet) :
  Server.parsePdfText text = Return raw -> Browser.parsePdfText text = raw.
Proof.
  rewrite Server_parsePdfText_cases.
  destruct (cambPro_lookups (normalise text)); [|discriminate].
  intros H. now injection H.
Qed.

(** C2. The two copies of [parsePdfText] are not the same function: on the
    empty text the browser copy returns the all-[null] set and the server
    copy throws. The two copies of [buildIndicateursFrontend] agree on every
    raw set. *)
Theorem parsePdfText_server_browser_differ :
  Browser.parsePdfText empty = all_null
  /\ Server.parsePdfText empty = Throw (ReferenceError (js "cambPro2"))
  /\ Server.parsePdfText empty <> Return (Browser.parsePdfText empty)
  /\ (forall raw,
         Server.buildIndicateursFrontend raw
         = Browser.buildIndicateursFrontend raw).
Proof.
  repeat split.
  - vm_compute. discriminate.
Qed.

(* ================================================================== *)
(** ** The filename parser on the documented names                     *)
(* ================================================================== *)

Ltac eval_closed t := let v := eval vm_compute in t in change t with v.

(** Runs [parseFilename] on a name of Basic Latin characters: the Unicode
    tables are only consulted on such strings. *)
Ltac run_parseFilename :=
  unfold parseFilename; cbv zeta;
  rewrite normalizeNFC_ascii by (vm_compute; reflexivity);
  match goal with
  | |- context [match_first reA ?b] => eval_closed (match_first reA b)
  end;
  match goal with
  | |- context [match_first reB ?b] => eval_closed (match_first reB b)
  end;
  cbv beta iota; cbn [m_get m_groups nth];
  try (unfold resolve; cbv zeta;
       rewrite toLowerCase_ascii by (vm_compute; reflexivity);
       rewrite normalizeNFD_ascii by (vm_compute; reflexivity));
  vm_compute; reflexivity.

Section FilenameExamples.
Context {U : Unicode}.

(** C6. The two documented names parse to their triple, with no error:
    commune "Saint Alban", month 6 labelled "Juin", year 2024 for the
    numbered form (its prefix "06" is not part of the commune); commune
    "Saint Alban", month 8 labelled "Août", year 2023 for the other. *)
Theorem parseFilename_conventions :
  parseFilename (js "06_Saint_Alban_juin2024.pdf")
  = Parsed {| commune := js "Saint Alban"; mois := VNumber (of_Z 6);
              moisLabel := Some (js "Juin"); annee := of_Z 2024 |}
  /\ parseFilename (js "Saint_Alban_aout2023.pdf")
     = Parsed {| commune := js "Saint Alban"; mois := VNumber (of_Z 8);
                 moisLabel := Some (js "Août"); annee := of_Z 2023 |}.
Proof. split; run_parseFilename. Qed.

(** C7. A name matching neither pattern gives the format error carrying
    the name; a month token found in none of the tables gives the month
    error carrying the token. *)
Theorem parseFilename_errors :
  parseFilename (js "rapport.pdf")
  = Erreur (js "Format de nom de fichier non reconnu : rapport.pdf")
  /\ parseFilename (js "Commune_xyz2024.pdf")
     = Erreur (js "Mois " ++ [34%N] ++ js "xyz" ++ [34%N]
               ++ js " non reconnu.")
  /\ get MOIS_MAP (js "xyz") = VUndefined
  /\ get MOIS_FALLBACK (js "xyz") = VUndefined.
Proof. repeat split; run_parseFilename. Qed.

(** C3. The month token "constructor" is found on the prototype of the
    month table: the parser returns a record without error whose month is
    the inherited member, not an integer of 1..12, and whose month label
    is [undefined]. *)
Theorem parseFilename_inherited_month :
  parseFilename (js "Commune_constructor2024.pdf")
  = Parsed {| commune := js "Commune";
              mois := VInherited (js "constructor");
              moisLabel := None; annee := of_Z 2024 |}.
Proof. run_parseFilename. Qed.
End FilenameExamples.

(* ================================================================== *)
(** ** Reasoning about the matcher                                     *)
(* ================================================================== *)

Section MatcherSteps.
Variables (r : regex) (pos : nat) (s : jsstring) (st : mstate).

Lemma match_here_greedy k lo hi :
  match_here (Rep k lo hi true :: r) pos s st =
  if (run_length k hi s <? lo)%nat then None
  else try_down (fun n => match_here r (pos + n) (skipn n s) st) lo
         (run_length k hi s).
Proof. reflexivity. Qed.

Lemma match_here_open :
  match_here (GOpen :: r) pos s st =
  match_here r pos s {| captured := captured st; opened := Some (pos, s) |}.
Proof. reflexivity. Qed.

Lemma match_here_close p0 s0 :
  opened st = Some (p0, s0) ->
  match_here (GClose :: r) pos s st =
  match_here r pos s
    {| captured := captured st ++ [firstn (pos - p0) s0]; opened := None |}.
Proof. intros H. cbn [match_here]. now rewrite H. Qed.
End MatcherSteps.

Section TryDown.
Variables (A : Type) (f : nat -> option A).

Lemma try_down_first lo k res : f k = Some res -> try_down f lo k = Some res.
Proof. intros H. destruct k; cbn [try_down]; now rewrite H. Qed.

Lemma try_down_next lo k :
  f (S k) = None -> (lo <= k)%nat -> try_down f lo (S k) = try_down f lo k.
Proof.
  intros H Hle. cbn [try_down]. rewrite H.
  now replace (lo <=? k)%nat with true by (symmetry; now apply Nat.leb_le).
Qed.

Lemma try_down_none lo k :
  (forall j, (j <= k)%nat -> f j = None) -> try_down f lo k = None.
Proof.
  induction k as [|k IH]; intros H; cbn [try_down].
  - now rewrite (H 0%nat).
  - rewrite (H (S k)) by lia. destruct (lo <=? k)%nat; [|reflexivity].
    apply IH. intros j Hj. apply H. lia.
Qed.
End TryDown.

(** A run of characters of the class, followed by nothing or by a character
    outside it, is what an unbounded repetition can take. *)
Lemma run_length_app (k : cset) (d t : jsstring) :
  forallb (mem k) d = true ->
  match t with [] => True | c :: _ => mem k c = false end ->
  run_length k None (d ++ t) = List.length d.
Proof.
  intros Hd Ht. induction d as [|c d IH]; cbn [app List.length].
  - destruct t as [|c t]; cbn [run_length]; [reflexivity|now rewrite Ht].
  - cbn [forallb] in Hd. apply andb_true_iff in Hd. destruct Hd as [Hc Hd].
    cbn [run_length option_map]. rewrite Hc. f_equal. now apply IH.
Qed.

Lemma run_length_zero (k : cset) (s : jsstring) :
  run_length k (Some 0%nat) s = 0%nat.
Proof. destruct s; reflexivity. Qed.

Lemma forallb_skipn (A : Type) (p : A -> bool) (n : nat) (l : list A) :
  forallb p l = true -> forallb p (skipn n l) = true.
Proof.
  revert l. induction n as [|n IH]; intros [|x l] H; cbn [skipn]; trivial.
  cbn [forallb] in H. apply andb_true_iff in H. now apply IH.
Qed.

Lemma no_delimiter_head (s : jsstring) :
  no_delimiter s = true ->
  match s with [] => True | c :: _ => mem delimiter c = false end.
Proof.
  destruct s as [|c s]; [trivial|]. unfold no_delimiter. cbn [forallb].
  intros H. apply andb_true_iff in H. now apply negb_true_iff.
Qed.

Lemma delimiter_fails (rest : jsstring) (p : nat) (st : mstate) :
  no_delimiter rest = true ->
  match_here [star Space; one delimiter] p rest st = None.
Proof.
  intros H. unfold star, one. rewrite match_here_greedy.
  cbn [Nat.ltb Nat.leb]. apply try_down_none. intros j _.
  rewrite match_here_greedy.
  pose proof (no_delimiter_head (skipn j rest) (forallb_skipn _ j rest H)) as Hj.
  destruct (skipn j rest) as [|c t]; cbn [run_length]; [reflexivity|].
  now rewrite Hj.
Qed.

Lemma digit_not_space (c : char) : is_digit c = true -> is_space c = false.
Proof.
  unfold is_digit, is_space. intros H. apply andb_true_iff in H.
  destruct H as [H1 H2]. apply N.leb_le in H1, H2.
  repeat (apply orb_false_iff; split);
    try (apply andb_false_iff; (left + right); apply N.leb_gt; lia);
    apply N.eqb_neq; lia.
Qed.

Lemma digit_delimiter (c : char) : is_digit c = true -> mem delimiter c = true.
Proof.
  intros H. unfold delimiter. cbn [mem]. rewrite H. now rewrite !orb_true_r.
Qed.

Lemma no_delimiter_not_digit (s : jsstring) :
  no_delimiter s = true ->
  match s with [] => True | c :: _ => is_digit c = false end.
Proof.
  intros H. apply no_delimiter_head in H. destruct s as [|c s]; [trivial|].
  destruct (is_digit c) eqn:E; [|reflexivity].
  now rewrite (digit_delimiter c E) in H.
Qed.

(** The delimiter can be the last digit of the second numeral: on two runs
    of digits separated by a blank, the second of at least two digits and
    followed by no delimiter, the pattern matches up to the end of the
    second run, and the second group is that run without its last digit. *)
Lemma re_pair_takes_last_digit (d1 d2 rest : jsstring) (c : char) (pos : nat) :
  d1 <> [] -> forallb is_digit d1 = true ->
  d2 <> [] -> forallb is_digit d2 = true ->
  is_digit c = true -> no_delimiter rest = true ->
  match_here re_pair pos (d1 ++ 32%N :: d2 ++ c :: rest) mstate0 =
  Some (pos + List.length d1 + 1 + List.length d2 + 1, [d1; d2])%nat.
Proof.
  intros N1 D1 N2 D2 Dc Hrest.
  assert (L1 : (1 <= List.length d1)%nat)
    by (destruct d1; cbn; [congruence|lia]).
  assert (L2 : (1 <= List.length d2)%nat)
    by (destruct d2; cbn; [congruence|lia]).
  unfold re_pair, plus.
  (* first group *)
  rewrite match_here_open, match_here_greedy.
  rewrite (run_length_app Digit d1 (32%N :: d2 ++ c :: rest) D1 eq_refl).
  replace (List.length d1 <? 1)%nat with false
    by (symmetry; apply Nat.ltb_ge; lia).
  apply try_down_first.
  rewrite skipn_app, skipn_all, Nat.sub_diag. cbn [app skipn].
  erewrite match_here_close by reflexivity.
  cbn [captured app].
  replace (pos + List.length d1 - pos)%nat with (List.length d1) by lia.
  rewrite firstn_app, firstn_all, Nat.sub_diag. cbn [firstn].
  rewrite app_nil_r.
  (* the blank *)
  rewrite match_here_greedy.
  assert (S2 : run_length Space None (32%N :: d2 ++ c :: rest) = 1%nat).
  { change (32%N :: d2 ++ c :: rest) with ([32%N] ++ d2 ++ c :: rest).
    apply run_length_app; [reflexivity|].
    destruct d2 as [|x d2]; [congruence|]. cbn [app mem].
    cbn [forallb] in D2. apply andb_true_iff in D2.
    now apply digit_not_space. }
  rewrite S2. cbn [Nat.ltb Nat.leb]. apply try_down_first. cbn [skipn].
  (* second group: all the digits first, then one fewer *)
  rewrite match_here_open, match_here_greedy.
  assert (S3 : run_length Digit None (d2 ++ c :: rest) = S (List.length d2)).
  { change (d2 ++ c :: rest) with (d2 ++ [c] ++ rest). rewrite app_assoc.
    rewrite run_length_app.
    - rewrite length_app. cbn [List.length]. lia.
    - rewrite forallb_app. change (mem Digit) with is_digit.
      rewrite D2. cbn [forallb]. now rewrite Dc.
    - now apply no_delimiter_not_digit. }
  rewrite S3. cbn [Nat.ltb Nat.leb].
  rewrite try_down_next; [| |exact L2].
  2:{ change (d2 ++ c :: rest) with (d2 ++ [c] ++ rest). rewrite app_assoc.
      replace (S (List.length d2)) with (List.length (d2 ++ [c]))
        by (rewrite length_app; cbn [List.length]; lia).
      rewrite skipn_app, skipn_all, Nat.sub_diag. cbn [app skipn].
      erewrite match_here_close by reflexivity.
      now apply delimiter_fails. }
  apply try_down_first.
  rewrite skipn_app, skipn_all, Nat.sub_diag. cbn [app skipn].
  erewrite match_here_close by reflexivity.
  cbn [captured app].
  replace (pos + List.length d1 + 1 + List.length d2
           - (pos + List.length d1 + 1))%nat with (List.length d2) by lia.
  rewrite firstn_app, firstn_all, Nat.sub_diag. cbn [firstn].
  rewrite app_nil_r.
  (* no blank, then the last digit as the delimiter *)
  unfold star, one. rewrite match_here_greedy.
  cbn [run_length]. change (mem Space c) with (is_space c).
  rewrite (digit_not_space c Dc).
  cbn [Nat.ltb Nat.leb try_down skipn]. rewrite match_here_greedy.
  cbn [run_length]. fold delimiter. rewrite (digit_delimiter c Dc).
  cbn [option_map pred run_length Nat.ltb Nat.leb try_down skipn match_here
       captured].
  rewrite run_length_zero. do 2 f_equal. lia.
Qed.

(* ================================================================== *)
(** ** A digit of the second numeral as the delimiter                  *)
(* ================================================================== *)

(** The first candidate is returned when it passes the two filters. *)
Lemma scan_pairs_accept (m : rmatch) (ms : list rmatch) (a b : option number) :
  Browser.parseIntStrict (m_get m 1) = a ->
  Browser.parseIntStrict (m_get m 2) = b ->
  gtb (to_number a) (of_Z 200) || gtb (to_number b) (of_Z 200) = false ->
  gtb (to_number a) (of_Z 25) && ltb (to_number b) (of_Z 5) = false ->
  Browser.scan_pairs (m :: ms) = (a, b).
Proof.
  intros Ha Hb H1 H2. cbn [Browser.scan_pairs]. rewrite Ha, Hb, H1, H2.
  reflexivity.
Qed.

Lemma scan_pairs_first (s : jsstring) (res : nat * list jsstring)
  (a b : option number) :
  match_here re_pair 0 s mstate0 = Some res ->
  Browser.parseIntStrict (nth 0 (snd res) []) = a ->
  Browser.parseIntStrict (nth 1 (snd res) []) = b ->
  gtb (to_number a) (of_Z 200) || gtb (to_number b) (of_Z 200) = false ->
  gtb (to_number a) (of_Z 25) && ltb (to_number b) (of_Z 5) = false ->
  Browser.scan_pairs (match_all re_pair s) = (a, b).
Proof.
  intros H Ha Hb H1 H2. unfold match_all.
  destruct s as [|c s]; cbn [matches_from]; rewrite H;
    now apply scan_pairs_accept.
Qed.

(** C10, as the code has it. When the window after the label starts with
    "12 156" and holds no [+], [-], [%] or digit after it, the pair is
    (12, 15): the final 6 is the delimiter. When it starts with "12 15" and
    holds no [+], [-], [%] or digit after it, the pair is (12, 1): the
    final 5 is the delimiter, and the result is not absent. *)
Theorem getTwoIntsAfter_digit_delimiter (norm label rest : jsstring) :
  no_delimiter rest = true ->
  (window 180 norm label = Some (js "12 156" ++ rest) ->
   Browser.getTwoIntsAfter norm label = (Some (of_Z 12), Some (of_Z 15))
   /\ Server.getTwoIntsAfter norm label = (Some (of_Z 12), Some (of_Z 15)))
  /\ (window 180 norm label = Some (js "12 15" ++ rest) ->
      Browser.getTwoIntsAfter norm label = (Some (of_Z 12), Some (of_Z 1))
      /\ Server.getTwoIntsAfter norm label = (Some (of_Z 12), Some (of_Z 1))).
Proof.
  intros Hrest.
  change (Server.getTwoIntsAfter norm label)
    with (Browser.getTwoIntsAfter norm label).
  split; intros Hw; rewrite getTwoIntsAfter_window, Hw; cbv beta iota.
  - assert (H : Browser.scan_pairs (match_all re_pair (js "12 156" ++ rest))
                = (Some (of_Z 12), Some (of_Z 15))); [|now split].
    apply (@scan_pairs_first (js "12 156" ++ rest) _ _ _
             (@re_pair_takes_last_digit (js "12") (js "15") rest 54%N 0
                ltac:(discriminate) eq_refl ltac:(discriminate) eq_refl
                eq_refl Hrest)); vm_compute; reflexivity.
  - assert (H : Browser.scan_pairs (match_all re_pair (js "12 15" ++ rest))
                = (Some (of_Z 12), Some (of_Z 1))); [|now split].
    apply (@scan_pairs_first (js "12 15" ++ rest) _ _ _
             (@re_pair_takes_last_digit (js "12") (js "1") rest 53%N 0
                ltac:(discriminate) eq_refl ltac:(discriminate) eq_refl
                eq_refl Hrest)); vm_compute; reflexivity.
Qed.

Lemma getTwoIntsAfter_digit_delimiter_witness :
  no_delimiter (js " faits") = true
  /\ window 180 (js "Menaces ou chantages12 156 faits")
       (js "Menaces ou chantages") = Some (js "12 156" ++ js " faits")
  /\ Browser.getTwoIntsAfter (js "Menaces ou chantages12 156 faits")
       (js "Menaces ou chantages") = (Some (of_Z 12), Some (of_Z 15)).
Proof.
  split; [vm_compute; reflexivity|]. split; [vm_compute; reflexivity|].
  destruct (@getTwoIntsAfter_digit_delimiter
              (js "Menaces ou chantages12 156 faits")
              (js "Menaces ou chantages") (js " faits") eq_refl) as [H _].
  apply H. vm_compute; reflexivity.
Defined.

(** C10 as first stated fails: with the label followed only by "12 15" and
    no delimiter after it, the result is not absent. *)
Lemma getTwoIntsAfter_12_15_not_absent :
  window 180 (js "Menaces ou chantages12 15") (js "Menaces ou chantages")
  = Some (js "12 15")
  /\ no_delimiter [] = true
  /\ Browser.getTwoIntsAfter (js "Menaces ou chantages12 15")
       (js "Menaces ou chantages") <> (None, None).
Proof.
  split; [vm_compute; reflexivity|]. split; [reflexivity|].
  vm_compute. discriminate.
Qed.

(* ================================================================== *)
(** ** The repair of mis-encoded names                                 *)
(* ================================================================== *)

Lemma run_length_one (k : cset) (x : char) (t : jsstring) :
  run_length k (Some 1%nat) (x :: t) = if mem k x then 1%nat else 0%nat.
Proof.
  cbn [run_length option_map pred]. destruct (mem k x); [|reflexivity].
  now rewrite run_length_zero.
Qed.

Lemma match_here_one (k : cset) (pos : nat) (s : jsstring) (st : mstate)
  (rx : regex) :
  match_here (one k :: rx) pos s st =
  match s with
  | x :: t => if mem k x then match_here rx (pos + 1) t st else None
  | [] => None
  end.
Proof.
  unfold one. rewrite match_here_greedy. destruct s as [|x t]; [reflexivity|].
  rewrite run_length_one. destruct (mem k x); [|reflexivity].
  cbn [Nat.ltb Nat.leb try_down skipn].
  now destruct (match_here rx (pos + 1) t st).
Qed.

Lemma match_here_pair (a b : char) (pos : nat) (s : jsstring) :
  match_here [one (Chr a); one (Chr b)] pos s mstate0 =
  match s with
  | x :: y :: _ =>
      if ((a =? x) && (b =? y))%N then Some (pos + 1 + 1, [])%nat else None
  | _ => None
  end.
Proof.
  rewrite match_here_one. destruct s as [|x [|y t]]; trivial; cbn [mem];
    destruct (a =? x)%N; trivial; rewrite match_here_one; trivial.
Qed.

Lemma replace_from_0 (rx : regex) (by_ : jsstring) (pos : nat) (s : jsstring) :
  replace_from rx by_ pos s 0 =
  match match_here rx pos s mstate0 with
  | Some res =>
      by_ ++
      match s with
      | [] => []
      | c :: s' =>
          (if (fst res =? pos)%nat then [c] else [])
            ++ replace_from rx by_ (S pos) s' (fst res - pos - 1)
      end
  | None =>
      match s with
      | [] => []
      | c :: s' => c :: replace_from rx by_ (S pos) s' 0
      end
  end.
Proof. destruct s; reflexivity. Qed.

Lemma replace_from_pair (a b : char) (by_ : jsstring) (n : nat) :
  forall s pos, (List.length s <= n)%nat ->
  replace_from [one (Chr a); one (Chr b)] by_ pos s 0 = replace_pair a b by_ s.
Proof.
  induction n as [|n IH]; intros s pos Hn.
  - destruct s; [reflexivity|cbn in Hn; lia].
  - rewrite replace_from_0, match_here_pair.
    destruct s as [|x [|y t]]; [reflexivity|reflexivity|].
    cbn [replace_pair]. destruct ((a =? x) && (b =? y))%N.
    + cbn [fst]. replace (pos + 1 + 1 =? pos)%nat with false
        by (symmetry; apply Nat.eqb_neq; lia).
      replace (pos + 1 + 1 - pos - 1)%nat with 1%nat by lia.
      change (replace_from [one (Chr a); one (Chr b)] by_ (S pos) (y :: t) 1)
        with (replace_from [one (Chr a); one (Chr b)] by_ (S (S pos)) t 0).
      cbn [app]. f_equal. apply IH. cbn in Hn |- *. lia.
    + f_equal. apply IH. cbn in Hn |- *. lia.
Qed.

Lemma replace_all_pair (a b : char) (by_ s : jsstring) :
  replace_all [one (Chr a); one (Chr b)] by_ s = replace_pair a b by_ s.
Proof.
  unfold replace_all. now apply replace_from_pair with (n := List.length s).
Qed.

Lemma replace_pair_noop (a b : char) (by_ s : jsstring) :
  has_pair a b s = false -> replace_pair a b by_ s = s.
Proof.
  induction s as [|x s IH]; [reflexivity|].
  destruct s as [|y t]; [reflexivity|].
  cbn [has_pair replace_pair]. intros H. apply orb_false_iff in H.
  destruct H as [H1 H2]. rewrite H1. f_equal. now apply IH.
Qed.

Lemma replace_pair_cons2 (a b x y : char) (by_ t : jsstring) :
  replace_pair a b by_ (x :: y :: t)
  = if ((a =? x) && (b =? y))%N then by_ ++ replace_pair a b by_ t
    else x :: replace_pair a b by_ (y :: t).
Proof. reflexivity. Qed.

Lemma has_pair_cons2 (a b x y : char) (t : jsstring) :
  has_pair a b (x :: y :: t)
  = ((a =? x) && (b =? y))%N || has_pair a b (y :: t).
Proof. reflexivity. Qed.

(** The first character after a replacement by one character [c] is [c] or
    the first character before. *)
Lemma replace_pair_head (a b c : char) (s : jsstring) :
  match replace_pair a b [c] s with
  | [] => s = []
  | z :: _ => z = c \/ exists t, s = z :: t
  end.
Proof.
  destruct s as [|x [|y t]]; cbn [replace_pair]; trivial.
  - right. now exists [].
  - destruct ((a =? x) && (b =? y))%N; cbn [app]; [now left|].
    right. now eexists.
Qed.

(** After the replacement of [a b] by a character [c] that is neither [a2]
    nor [b2], the pair [a2 b2] occurs only if it occurred before and is not
    the pair replaced. *)
Lemma has_pair_replace_pair (a b c a2 b2 : char) (n : nat) :
  c <> a2 -> c <> b2 ->
  forall s, (List.length s <= n)%nat ->
  has_pair a2 b2 s = false \/ (a2 = a /\ b2 = b) ->
  has_pair a2 b2 (replace_pair a b [c] s) = false.
Proof.
  intros Ha Hb. induction n as [|n IH]; intros s Hn Hs.
  - destruct s; [reflexivity|cbn in Hn; lia].
  - destruct s as [|x [|y t]]; [reflexivity|reflexivity|].
    assert (Ht : has_pair a2 b2 (y :: t) = false \/ (a2 = a /\ b2 = b)).
    { destruct Hs as [Hs|Hs]; [left|now right]. rewrite has_pair_cons2 in Hs.
      now apply orb_false_iff in Hs. }
    rewrite replace_pair_cons2. destruct ((a =? x) && (b =? y))%N eqn:E.
    + cbn [app].
      assert (Htt : has_pair a2 b2 t = false \/ (a2 = a /\ b2 = b)).
      { destruct Ht as [Ht|Ht]; [left|now right].
        destruct t as [|z t]; [reflexivity|]. rewrite has_pair_cons2 in Ht.
        now apply orb_false_iff in Ht. }
      pose proof (IH t ltac:(cbn in Hn; lia) Htt) as IHt.
      destruct (replace_pair a b [c] t) as [|z u] eqn:Er; [reflexivity|].
      rewrite has_pair_cons2, IHt.
      replace (a2 =? c)%N with false; [reflexivity|].
      symmetry. apply N.eqb_neq. congruence.
    + pose proof (IH (y :: t) ltac:(cbn in Hn |- *; lia) Ht) as IHt.
      pose proof (replace_pair_head a b c (y :: t)) as Hh.
      destruct (replace_pair a b [c] (y :: t)) as [|z u] eqn:Er;
        [discriminate Hh|].
      rewrite has_pair_cons2, IHt.
      rewrite orb_false_r. apply andb_false_iff.
      destruct Hh as [->|[t' Hh]].
      * right. apply N.eqb_neq. congruence.
      * injection Hh as <- _.
        destruct Hs as [Hs|[-> ->]]; [|exact (proj1 (andb_false_iff _ _) E)].
        rewrite has_pair_cons2 in Hs. apply orb_false_iff in Hs.
        exact (proj1 (andb_false_iff _ _) (proj1 Hs)).
Qed.

Lemma fixFilenameEncoding_repair_all (s : jsstring) :
  fixFilenameEncoding s = repair_all s.
Proof.
  unfold fixFilenameEncoding, replace_g, repair_all, repairs, A_tilde.
  cbn [fold_left fst snd].
  repeat match goal with
         | |- context [lit ?p] => eval_closed (lit p)
         | |- context [js ?p] => eval_closed (js p)
         end.
  fold (one (Chr 195)).
  repeat match goal with
         | |- context [Rep (Chr ?b) 1 (Some 1) true] => fold (one (Chr b))
         end.
  now rewrite !replace_all_pair.
Qed.

Lemma fold_repairs_noop (l : list (char * char)) (s : jsstring) :
  clean_for l s ->
  fold_left (fun acc e => replace_pair A_tilde (fst e) [snd e] acc) l s = s.
Proof.
  induction l as [|e l IH]; intros H; [reflexivity|]. cbn [fold_left].
  rewrite replace_pair_noop by (apply H; now left).
  apply IH. intros e2 H2. apply H. now right.
Qed.

Lemma fold_repairs_clean (l : list (char * char)) :
  forall done s, good_table (done ++ l) -> clean_for done s ->
  clean_for (done ++ l)
    (fold_left (fun acc e => replace_pair A_tilde (fst e) [snd e] acc) l s).
Proof.
  induction l as [|e l IH]; intros done s Hg Hc.
  - now rewrite app_nil_r.
  - cbn [fold_left].
    replace (done ++ e :: l) with ((done ++ [e]) ++ l) in *
      by (now rewrite <- app_assoc).
    apply IH; [exact Hg|].
    assert (He : In e ((done ++ [e]) ++ l))
      by (apply in_or_app; left; apply in_or_app; right; now left).
    intros e2 H2.
    assert (H2' : In e2 ((done ++ [e]) ++ l))
      by (apply in_or_app; now left).
    destruct (Hg e e2 He H2') as [G1 G2].
    apply has_pair_replace_pair with (n := List.length s); trivial.
    apply in_app_or in H2. destruct H2 as [H2|[<-|[]]].
    + left. now apply Hc.
    + now right.
Qed.

Lemma good_repairs : good_table repairs.
Proof.
  assert (H : forallb (fun e => forallb (fun e2 =>
                negb (snd e =? A_tilde)%N && negb (snd e =? fst e2)%N)
                repairs) repairs = true) by (vm_compute; reflexivity).
  intros e e2 He He2. rewrite forallb_forall in H.
  specialize (H e He). rewrite forallb_forall in H. specialize (H e2 He2).
  apply andb_true_iff in H. destruct H as [H1 H2].
  apply negb_true_iff in H1, H2. now split; apply N.eqb_neq.
Qed.

Lemma indexOf_pair_none (a b : char) (s : jsstring) :
  indexOf [a; b] s = None -> has_pair a b s = false.
Proof.
  induction s as [|x s IH]; [reflexivity|].
  cbn [indexOf starts_with]. destruct s as [|y t].
  - reflexivity.
  - cbn [starts_with has_pair]. rewrite andb_true_r.
    destruct ((a =? x) && (b =? y))%N; [discriminate|].
    cbn [orb]. intros H. apply IH.
    destruct (indexOf [a; b] (y :: t)); [discriminate|reflexivity].
Qed.

Lemma repair_patterns_repairs :
  repair_patterns = map (fun e => [A_tilde; fst e]) repairs.
Proof. vm_compute; reflexivity. Qed.

Lemma has_pair_indexOf_none (a b : char) (s : jsstring) :
  has_pair a b s = false -> indexOf [a; b] s = None.
Proof.
  induction s as [|x s IH]; [reflexivity|].
  destruct s as [|y t].
  - intros _. cbn [indexOf starts_with]. now rewrite andb_false_r.
  - rewrite has_pair_cons2. intros H. apply orb_false_iff in H.
    destruct H as [H1 H2]. specialize (IH H2).
    change (indexOf [a; b] (x :: y :: t))
      with (if (a =? x)%N && ((b =? y)%N && true) then Some 0%nat
            else option_map S (indexOf [a; b] (y :: t))).
    now rewrite andb_true_r, H1, IH.
Qed.

(** What the repair leaves holds none of its patterns. *)
Lemma repair_all_clean (s : jsstring) : clean_for repairs (repair_all s).
Proof.
  apply (@fold_repairs_clean repairs [] s good_repairs). intros e [].
Qed.

(** Ten of the patterns are corrupted sequences; the eleventh corrupted
    sequence has a no-break space where the pattern has a space. *)
Lemma corrupted_sequences_patterns :
  corrupted_sequences
  = map (fun e : char * char =>
           [A_tilde; if (fst e =? 32)%N then 160%N else fst e]) repairs.
Proof. vm_compute; reflexivity. Qed.

(** Without a corrupted sequence, the only pattern a string can hold is [Ã]
    before a space. *)
Lemma clean_for_corrupted (s : jsstring) :
  Forall (fun p => indexOf p s = None) corrupted_sequences ->
  indexOf [A_tilde; 32%N] s = None ->
  clean_for repairs s.
Proof.
  intros H Hs e He. apply indexOf_pair_none.
  destruct (fst e =? 32)%N eqn:E32.
  - apply N.eqb_eq in E32. now rewrite E32.
  - rewrite corrupted_sequences_patterns, Forall_forall in H. apply H.
    apply in_map_iff. exists e. cbv beta. now rewrite E32.
Qed.

(** A property of the characters U+00C0 to U+00FF, those whose UTF-8 bytes
    start with the byte read as [Ã], checked one by one. *)
Lemma letters_C0_FF (P : char -> bool) :
  forallb (fun k => P (192 + N.of_nat k)%N) (seq 0 64) = true ->
  forall c, (192 <= c < 256)%N -> P c = true.
Proof.
  intros H c Hc. rewrite forallb_forall in H.
  specialize (H (N.to_nat (c - 192))).
  replace (192 + N.of_nat (N.to_nat (c - 192)))%N with c in H by lia.
  apply H, in_seq. lia.
Qed.

(** C8. The repair rewrites a correctly encoded name. The name
    [IRMÃ DULCE_juin2024] holds none of the corrupted sequences, whether the
    bytes were read as Windows-1252 or as Latin-1, nor the corrupted
    sequence of any character from U+00C0 to U+00FF, and the repair turns it
    into [IRMàDULCE_juin2024]. The pattern written for [à] is [Ã] before the
    space U+0020, where the corrupted sequence of [à] has the no-break space
    U+00A0; the ten other patterns are the corrupted sequences of their
    letters. So the corrupted [à] of [Pont-à-Mousson] is left as it is, and
    a string without corrupted sequence is unchanged exactly when it holds
    no [Ã] before a space. Repairing twice is repairing once. *)
Theorem fixFilenameEncoding_false_positive :
  Forall (fun p => indexOf p (js "IRMÃ DULCE_juin2024") = None)
    (corrupted_sequences ++ corrupted_sequences_latin_1)
  /\ (forall c,
        (192 <= c < 256)%N ->
        hd 0%N (mis_encoding windows_1252 c) = A_tilde
        /\ indexOf (mis_encoding windows_1252 c) (js "IRMÃ DULCE_juin2024")
           = None
        /\ indexOf (mis_encoding latin_1 c) (js "IRMÃ DULCE_juin2024")
           = None)
  /\ fixFilenameEncoding (js "IRMÃ DULCE_juin2024") = js "IRMàDULCE_juin2024"
  /\ nth_error repair_patterns 2 = Some [A_tilde; 32%N]
  /\ nth_error corrupted_sequences 2 = Some [A_tilde; 160%N]
  /\ (forall i : nat,
        i <> 2%nat ->
        nth_error repair_patterns i = nth_error corrupted_sequences i)
  /\ fixFilenameEncoding (js "Pont-Ã" ++ 160%N :: js "-Mousson_juin2024")
     = js "Pont-Ã" ++ 160%N :: js "-Mousson_juin2024"
  /\ (forall s,
        Forall (fun p => indexOf p s = None) corrupted_sequences ->
        (fixFilenameEncoding s = s <-> indexOf [A_tilde; 32%N] s = None))
  /\ (forall s, fixFilenameEncoding (fixFilenameEncoding s)
                = fixFilenameEncoding s).
Proof.
  split; [|split; [|split; [|split; [|split; [|split; [|split; [|split]]]]]]].
  - vm_compute. repeat constructor.
  - intros c Hc.
    pose proof
      (@letters_C0_FF
         (fun c =>
            (hd 0%N (mis_encoding windows_1252 c) =? A_tilde)%N
            && match
                 indexOf (mis_encoding windows_1252 c)
                   (js "IRMÃ DULCE_juin2024"),
                 indexOf (mis_encoding latin_1 c) (js "IRMÃ DULCE_juin2024")
               with
               | None, None => true
               | _, _ => false
               end)
         ltac:(vm_compute; reflexivity) c Hc) as H.
    cbv beta in H. apply andb_true_iff in H. destruct H as [H1 H2].
    apply N.eqb_eq in H1. split; [exact H1|].
    destruct (indexOf (mis_encoding windows_1252 c) _); [discriminate|].
    destruct (indexOf (mis_encoding latin_1 c) _); [discriminate|].
    now split.
  - vm_compute. reflexivity.
  - vm_compute. reflexivity.
  - vm_compute. reflexivity.
  - intros i Hi.
    do 11 (destruct i as [|i]; [first [now elim Hi | vm_compute; reflexivity]|]).
    now destruct i.
  - vm_compute. reflexivity.
  - intros s H. split.
    + intros E. apply has_pair_indexOf_none.
      rewrite <- E, fixFilenameEncoding_repair_all.
      apply (@repair_all_clean s (32%N, 224%N)).
      unfold repairs. cbn [In]. auto.
    + intros Hs. rewrite fixFilenameEncoding_repair_all.
      apply fold_repairs_noop. now apply clean_for_corrupted.
  - intros s. rewrite !fixFilenameEncoding_repair_all.
    apply fold_repairs_noop. apply repair_all_clean.
Qed.

(* ================================================================== *)
(** ** The extractor returns a plausible pair or nothing              *)
(* ================================================================== *)

(** Rounding an integer to binary64 never gives [NaN]. *)
Lemma iter_pos_invariant (A : Type) (P : A -> Prop) (f : A -> A) :
  (forall x, P x -> P (f x)) -> forall p x, P x -> P (iter_pos f p x).
Proof.
  intros Hf. induction p as [p IH|p IH|]; intros x Hx; cbn [iter_pos]; auto.
Qed.

Lemma shr_1_nonneg (mrs : shr_record) :
  (0 <= shr_m mrs)%Z -> (0 <= shr_m (shr_1 mrs))%Z.
Proof.
  destruct mrs as [m rr ss]. cbn [shr_m shr_1].
  destruct m as [|[p|p|]|[p|p|]]; cbn [shr_m]; lia.
Qed.

Lemma shr_fexp_nonneg (m e : Z) (l : location) :
  (0 <= m)%Z -> (0 <= shr_m (fst (shr_fexp 53 1024 m e l)))%Z.
Proof.
  intros Hm. unfold shr_fexp, shr.
  assert (H0 : (0 <= shr_m (shr_record_of_loc m l))%Z)
    by (destruct l as [|[]]; exact Hm).
  destruct (fexp 53 1024 (Zdigits2 m + e) - e)%Z as [|p|p]; cbn [fst]; trivial.
  apply iter_pos_invariant; [exact shr_1_nonneg|exact H0].
Qed.

Lemma binary_round_aux_not_NaN (sx : bool) (mx ex : Z) (lx : location) :
  (0 <= mx)%Z -> isNaN (binary_round_aux 53 1024 sx mx ex lx) = false.
Proof.
  intros Hm. unfold binary_round_aux.
  pose proof (shr_fexp_nonneg ex lx Hm) as H1.
  destruct (shr_fexp 53 1024 mx ex lx) as [mrs1 e1]. cbn [fst] in H1.
  assert (H2 : (0 <= round_nearest_even (shr_m mrs1)
                       (loc_of_shr_record mrs1))%Z).
  { unfold round_nearest_even.
    destruct (loc_of_shr_record mrs1) as [|[]];
      try destruct (Z.even (shr_m mrs1)); lia. }
  pose proof (shr_fexp_nonneg e1 loc_Exact H2) as H3.
  destruct (shr_fexp 53 1024 _ e1 loc_Exact) as [mrs2 e2]. cbn [fst] in H3.
  destruct (shr_m mrs2) as [|p|p]; [reflexivity| |lia].
  now destruct (e2 <=? 1024 - 53)%Z.
Qed.

Lemma of_Z_not_NaN (z : Z) : isNaN (of_Z z) = false.
Proof.
  unfold of_Z, binary_normalize, binary_round.
  destruct z as [|p|p]; [reflexivity| |];
    destruct (shl_align _ _ _) as [mz ez];
    now apply binary_round_aux_not_NaN.
Qed.

(** [parseIntStrict] on a non-empty run of digits is its value. *)
Lemma replace_from_one (k : cset) (s : jsstring) :
  forall pos,
  replace_from [one k] [] pos s 0 = filter (fun c => negb (mem k c)) s.
Proof.
  induction s as [|x t IH]; intros pos; [reflexivity|].
  rewrite replace_from_0, match_here_one. cbn [filter].
  destruct (mem k x); cbn [negb match_here fst app].
  - replace (pos + 1 =? pos)%nat with false
      by (symmetry; apply Nat.eqb_neq; lia).
    replace (pos + 1 - pos - 1)%nat with 0%nat by lia. apply IH.
  - f_equal. apply IH.
Qed.

Lemma filter_all (A : Type) (p : A -> bool) (l : list A) :
  forallb p l = true -> filter p l = l.
Proof.
  induction l as [|x l IH]; [reflexivity|]. cbn [forallb filter].
  intros H. apply andb_true_iff in H. destruct H as [Hx Hl].
  rewrite Hx. f_equal. now apply IH.
Qed.

Lemma take_digits_all (ds : jsstring) :
  forallb is_digit ds = true -> take_digits ds = (ds, []).
Proof.
  induction ds as [|c ds IH]; [reflexivity|]. cbn [forallb take_digits].
  intros H. apply andb_true_iff in H. destruct H as [Hc Hd].
  now rewrite Hc, (IH Hd).
Qed.

Lemma parseIntStrict_digits (ds : jsstring) :
  ds <> [] -> forallb is_digit ds = true ->
  Browser.parseIntStrict ds = Some (of_Z (digits_val ds)).
Proof.
  intros Hne Hd. destruct ds as [|c ds]; [congruence|].
  unfold Browser.parseIntStrict, replace_all. rewrite replace_from_one.
  rewrite filter_all.
  2:{ apply forallb_forall. intros x Hx. rewrite forallb_forall in Hd.
      apply negb_true_iff. apply digit_not_space. now apply Hd. }
  assert (Hc : is_digit c = true)
    by (cbn [forallb] in Hd; now apply andb_true_iff in Hd).
  unfold parseInt10. cbn [trimStart]. rewrite (digit_not_space c Hc).
  assert (Hs : take_sign (c :: ds) = (false, c :: ds)).
  { unfold take_sign. unfold is_digit in Hc. apply andb_true_iff in Hc.
    destruct Hc as [H1 H2]. apply N.leb_le in H1, H2.
    replace (c =? 45)%N with false by (symmetry; apply N.eqb_neq; lia).
    now replace (c =? 43)%N with false by (symmetry; apply N.eqb_neq; lia). }
  rewrite Hs, (take_digits_all _ Hd). cbn [signed].
  now rewrite of_Z_not_NaN.
Qed.

(** What a successful greedy repetition took. *)
Lemma try_down_some (A : Type) (f : nat -> option A) (lo k : nat) (res : A) :
  (lo <= k)%nat -> try_down f lo k = Some res ->
  exists n, (lo <= n <= k)%nat /\ f n = Some res.
Proof.
  induction k as [|k IH]; intros Hle; cbn [try_down].
  - destruct (f 0%nat) eqn:E; [|discriminate].
    intros H. exists 0%nat. split; [lia|congruence].
  - destruct (f (S k)) eqn:E.
    + intros H. exists (S k). split; [lia|congruence].
    + destruct (lo <=? k)%nat eqn:Ek; [|discriminate].
      apply Nat.leb_le in Ek. intros H.
      destruct (IH Ek H) as (n & Hn & Hf). exists n. split; [lia|exact Hf].
Qed.

Lemma match_here_greedy_some (rx : regex) (k : cset) (lo : nat)
  (hi : option nat) (pos : nat) (s : jsstring) (st : mstate)
  (res : nat * list jsstring) :
  match_here (Rep k lo hi true :: rx) pos s st = Some res ->
  exists n, (lo <= n <= run_length k hi s)%nat
            /\ match_here rx (pos + n) (skipn n s) st = Some res.
Proof.
  rewrite match_here_greedy.
  destruct (run_length k hi s <? lo)%nat eqn:E; [discriminate|].
  apply Nat.ltb_ge in E. intros H.
  exact (try_down_some _ E H).
Qed.

Lemma firstn_run_length (k : cset) (n : nat) :
  forall hi s, (n <= run_length k hi s)%nat ->
  forallb (mem k) (firstn n s) = true /\ List.length (firstn n s) = n.
Proof.
  induction n as [|n IH]; intros hi s Hn; [now split|].
  destruct s as [|c s]; [destruct hi as [[|h]|]; cbn in Hn; lia|].
  assert (E : mem k c = true /\
              (n <= run_length k (option_map pred hi) s)%nat).
  { destruct hi as [[|h]|]; cbn [run_length] in Hn; try lia;
      destruct (mem k c); try lia; split; trivial; lia. }
  destruct E as [Hc Hr]. destruct (IH _ s Hr) as [H1 H2].
  cbn [firstn forallb List.length]. now rewrite Hc, H1, H2.
Qed.

Lemma re_pair_groups (pos : nat) (s : jsstring) (res : nat * list jsstring) :
  match_here re_pair pos s mstate0 = Some res ->
  exists d1 d2, snd res = [d1; d2] /\ digits_group d1 /\ digits_group d2.
Proof.
  unfold re_pair, plus, star, one. rewrite match_here_open. intros H.
  apply match_here_greedy_some in H. destruct H as (n1 & Hn1 & H).
  erewrite match_here_close in H by reflexivity. cbn [captured app] in H.
  replace (pos + n1 - pos)%nat with n1 in H by lia.
  apply match_here_greedy_some in H. destruct H as (n2 & Hn2 & H).
  rewrite match_here_open in H.
  apply match_here_greedy_some in H. destruct H as (n3 & Hn3 & H).
  erewrite match_here_close in H by reflexivity. cbn [captured app] in H.
  replace (pos + n1 + n2 + n3 - (pos + n1 + n2))%nat with n3 in H by lia.
  apply match_here_greedy_some in H. destruct H as (n4 & Hn4 & H).
  apply match_here_greedy_some in H. destruct H as (n5 & Hn5 & H).
  cbn [match_here captured] in H. injection H as <-. cbn [snd].
  destruct (@firstn_run_length Digit n1 None s (proj2 Hn1)) as [A1 B1].
  destruct (@firstn_run_length Digit n3 None _ (proj2 Hn3)) as [A3 B3].
  do 2 eexists. split; [reflexivity|]. unfold digits_group.
  repeat split; trivial; intros E; rewrite E in *; cbn in *; lia.
Qed.

Lemma matches_from_In (rx : regex) (m : rmatch) (s : jsstring) :
  forall pos skip, In m (matches_from rx pos s skip) ->
  exists pos2 s2 res,
    match_here rx pos2 s2 mstate0 = Some res /\ m = mk_match pos2 s2 res.
Proof.
  induction s as [|c s IH]; intros pos skip.
  - destruct skip; cbn [matches_from]; [|intros []].
    destruct (match_here rx pos [] mstate0) as [res|] eqn:E; [|intros []].
    intros [<-|[]]. now exists pos, [], res.
  - destruct skip; cbn [matches_from]; [|apply IH].
    destruct (match_here rx pos (c :: s) mstate0) as [res|] eqn:E;
      [|apply IH].
    intros [<-|H]; [now exists pos, (c :: s), res|exact (IH _ _ H)].
Qed.

Lemma scan_pairs_both (ms : list rmatch) :
  (forall m, In m ms ->
     exists d1 d2, m_groups m = [d1; d2] /\ digits_group d1 /\ digits_group d2) ->
  Browser.scan_pairs ms = (None, None)
  \/ exists x y, Browser.scan_pairs ms = (Some x, Some y).
Proof.
  induction ms as [|m ms IH]; intros H; [now left|].
  assert (IH2 := IH (fun m2 H2 => H m2 (or_intror H2))).
  destruct (H m (or_introl eq_refl)) as (d1 & d2 & Eg & [N1 D1] & [N2 D2]).
  cbn [Browser.scan_pairs m_get]. rewrite Eg. cbn [nth].
  rewrite (parseIntStrict_digits N1 D1), (parseIntStrict_digits N2 D2).
  destruct (_ || _); [exact IH2|]. destruct (_ && _); [exact IH2|].
  right. now do 2 eexists.
Qed.

(** C5. Whatever the normalised text and the label, [getTwoIntsAfter]
    returns either nothing ([null, null]) or a plausible pair of numbers:
    neither exceeds 200, and the pair is not a first number of at least 26
    with a second number below 5. A candidate outside these bounds is never
    returned. The server copy returns the same. *)
Theorem getTwoIntsAfter_absent_or_plausible (norm label : jsstring) :
  (Browser.getTwoIntsAfter norm label = (None, None)
   \/ exists x y,
        Browser.getTwoIntsAfter norm label = (Some x, Some y)
        /\ leb x (of_Z 200) = true /\ leb y (of_Z 200) = true
        /\ ~ (geb x (of_Z 26) = true /\ ltb y (of_Z 5) = true))
  /\ Server.getTwoIntsAfter norm label = Browser.getTwoIntsAfter norm label.
Proof.
  split; [|reflexivity].
  rewrite getTwoIntsAfter_window.
  destruct (window 180 norm label) as [after|]; [|now left].
  destruct (scan_pairs_both (match_all re_pair after)) as [H|(x & y & H)].
  - intros m Hm. apply matches_from_In in Hm.
    destruct Hm as (pos2 & s2 & res & Hres & ->).
    exact (re_pair_groups _ _ Hres).
  - now left.
  - right. exists x, y. split; [exact H|].
    exact (scan_pairs_plausible _ H).
Qed.

(** An article reference and an oversized figure are passed over. *)
Example getTwoIntsAfter_skips_implausible :
  Browser.getTwoIntsAfter
    (js "Vols à la roulotte (37, 38) 300 2 - 41 2 + 4 7 %")
    (js "Vols à la roulotte") = (Some (of_Z 4), Some (of_Z 7)).
Proof. vm_compute; reflexivity. Qed.

(* ================================================================== *)
(** ** The month of a parsed name                                      *)
(* ================================================================== *)

Lemma get_kind (o : list (jsstring * Z)) (k : jsstring) :
  lookup_kind o k (get o k).
Proof.
  unfold get. destruct (find _ o) as [[k2 v]|] eqn:E.
  - apply find_some in E. destruct E as [E _]. apply lk_own.
    exact (in_map snd _ _ E).
  - destruct (existsb (JsString.eqb k) Object_prototype_keys) eqn:Ex.
    + apply existsb_exists in Ex. destruct Ex as (x & Hx & Hk).
      apply jsstring_eqb_eq in Hk. subst x. now apply lk_inherited.
    + apply lk_undefined.
Qed.

Lemma month_tables_range (v : Z) :
  In v (map snd MOIS_MAP) \/ In v (map snd MOIS_FALLBACK) ->
  (1 <= v <= 12)%Z.
Proof.
  intros H. apply in_or_app in H.
  assert (F : forallb (fun v => (1 <=? v)%Z && (v <=? 12)%Z)
                (map snd MOIS_MAP ++ map snd MOIS_FALLBACK) = true)
    by (vm_compute; reflexivity).
  rewrite forallb_forall in F. specialize (F v H).
  apply andb_true_iff in F. destruct F as [F1 F2].
  apply Z.leb_le in F1, F2. lia.
Qed.

Lemma array_get_month (n : Z) :
  (1 <= n <= 12)%Z ->
  array_get MOIS_LABELS (VNumber (of_Z n)) = nth_error MOIS_LABELS (Z.to_nat n).
Proof.
  intros H.
  assert (E : (n = 1 \/ n = 2 \/ n = 3 \/ n = 4 \/ n = 5 \/ n = 6 \/ n = 7
              \/ n = 8 \/ n = 9 \/ n = 10 \/ n = 11 \/ n = 12)%Z) by lia.
  repeat (destruct E as [->|E]; [vm_compute; reflexivity|]).
  subst n. vm_compute; reflexivity.
Qed.

Lemma month_truthy (n : Z) :
  (1 <= n <= 12)%Z -> truthy (VNumber (of_Z n)) = true.
Proof.
  intros H.
  assert (E : (n = 1 \/ n = 2 \/ n = 3 \/ n = 4 \/ n = 5 \/ n = 6 \/ n = 7
              \/ n = 8 \/ n = 9 \/ n = 10 \/ n = 11 \/ n = 12)%Z) by lia.
  repeat (destruct E as [->|E]; [reflexivity|]).
  subst n. reflexivity.
Qed.

Lemma get_month_index (o : list (jsstring * Z)) (k : jsstring) :
  (forall v, In v (map snd o) -> (1 <= v <= 12)%Z) -> month_index (get o k).
Proof.
  intros R. destruct (get_kind o k) as [|v Hv|Hk].
  - now right; right.
  - left. exists v. split; [now apply R|reflexivity].
  - right; left. now exists k.
Qed.

Lemma or_else_month_index (a b : value) :
  month_index a -> month_index b -> month_index (or_else a b).
Proof.
  intros [(n & Hn & ->)|[(k & Hk & ->)| -> ]] Hb; unfold or_else.
  - rewrite (month_truthy Hn). left. now exists n.
  - cbn [truthy]. right; left. now exists k.
  - exact Hb.
Qed.

Section MonthShape.
Context {U : Unicode}.

(** A record returned without error has a well-formed month, unless the
    month token names a member of [Object.prototype]. *)
Lemma resolve_month (communeRaw moisStr anneeStr : jsstring) :
  match resolve communeRaw moisStr anneeStr with
  | Erreur _ => True
  | Parsed p => month_ok p \/ month_inherited p
  end.
Proof.
  unfold resolve. cbv zeta.
  set (t := toLowerCase (trim moisStr)).
  set (c := replace_all _ _ (replace_all _ _ (normalizeNFD t))).
  set (ix := or_else (or_else (get MOIS_MAP t) (get MOIS_MAP c))
               (get MOIS_FALLBACK c)).
  assert (K : month_index ix).
  { repeat apply or_else_month_index; apply get_month_index; intros v Hv;
      apply month_tables_range; (now left) || (now right). }
  destruct (truthy ix) eqn:T; cbn [negb]; [|exact I].
  destruct K as [(n & Hn & E)|[(k & Hk & E)|E]].
  - left. exists n. cbn [mois moisLabel]. rewrite E.
    split; [exact Hn|]. split; [reflexivity|]. now apply array_get_month.
  - right. exists k. cbn [mois moisLabel]. now rewrite E.
  - rewrite E in T. discriminate T.
Qed.

Lemma parseFilename_month (filename : jsstring) :
  match parseFilename filename with
  | Erreur _ => True
  | Parsed p => month_ok p \/ month_inherited p
  end.
Proof.
  unfold parseFilename. cbv zeta.
  destruct (match_first reA _); [apply resolve_month|].
  destruct (match_first reB _); [apply resolve_month|exact I].
Qed.
End MonthShape.

(* ================================================================== *)
(** ** What a match consists of                                        *)
(* ================================================================== *)

Lemma try_up_some (A : Type) (f : nat -> option A) (n : nat) :
  forall k res, try_up f k n = Some res ->
  exists j, (k <= j <= k + n)%nat /\ f j = Some res.
Proof.
  induction n as [|n IH]; intros k res; cbn [try_up].
  - destruct (f k) eqn:E; [|discriminate].
    intros H. exists k. split; [lia|congruence].
  - destruct (f k) eqn:E.
    + intros H. exists k. split; [lia|congruence].
    + intros H. destruct (IH _ _ H) as (j & Hj & Hf).
      exists j. split; [lia|exact Hf].
Qed.

(** A repetition, greedy or lazy, took between [lo] and the available
    number of characters. *)
Lemma match_here_rep_some (rx : regex) (k : cset) (lo : nat)
  (hi : option nat) (g : bool) (pos : nat) (s : jsstring) (st : mstate)
  (res : nat * list jsstring) :
  match_here (Rep k lo hi g :: rx) pos s st = Some res ->
  exists n, (lo <= n <= run_length k hi s)%nat
            /\ match_here rx (pos + n) (skipn n s) st = Some res.
Proof.
  destruct g; [apply match_here_greedy_some|].
  cbn [match_here].
  destruct (run_length k hi s <? lo)%nat eqn:E; [discriminate|].
  apply Nat.ltb_ge in E. intros H.
  destruct (try_up_some _ _ _ H) as (j & Hj & Hf).
  exists j. split; [lia|exact Hf].
Qed.

Lemma run_length_bound (k : cset) (s : jsstring) :
  forall hi, within hi (run_length k hi s).
Proof.
  induction s as [|c s IH]; intros [[|h]|]; cbn [run_length within]; try lia;
    trivial.
  destruct (mem k c); [|lia].
  specialize (IH (option_map pred (Some (S h)))). cbn in IH. cbn. lia.
Qed.

Lemma within_le (hi : option nat) (n m : nat) :
  (n <= m)%nat -> within hi m -> within hi n.
Proof. destruct hi; cbn; [lia|trivial]. Qed.

(** Soundness of the matcher on a sequence of repetitions: what it
    consumed is a word of their language. *)
Lemma match_here_reps (body : regex) :
  forall rx pos s st res,
  forallb (fun n => match n with Rep _ _ _ _ => true | _ => false end) body
    = true ->
  match_here (body ++ rx) pos s st = Some res ->
  exists w s2,
    s = w ++ s2 /\ accepts body w
    /\ match_here rx (pos + List.length w) s2 st = Some res.
Proof.
  induction body as [|nd body IH]; intros rx pos s st res Hb H.
  - exists [], s. cbn [app List.length accepts]. rewrite Nat.add_0_r.
    now repeat split.
  - destruct nd as [k lo hi g| | | |]; try discriminate Hb.
    cbn [forallb] in Hb. cbn [app] in H.
    apply match_here_rep_some in H. destruct H as (n & Hn & H).
    destruct (IH _ _ _ _ _ Hb H) as (w & s2 & Es & Hw & Hr).
    destruct (@firstn_run_length k n hi s (proj2 Hn)) as [F1 F2].
    exists (firstn n s ++ w), s2. repeat split.
    + rewrite <- app_assoc, <- Es. symmetry. apply firstn_skipn.
    + cbn [accepts]. exists (firstn n s), w. rewrite F2.
      repeat split; trivial; [lia|].
      apply within_le with (m := run_length k hi s); [lia|].
      apply run_length_bound.
    + rewrite length_app, F2, Nat.add_assoc. exact Hr.
Qed.

(** A capture group around a sequence of repetitions captures a word of
    their language. *)
Lemma match_here_group (body rx : regex) (pos : nat) (s : jsstring)
  (st : mstate) (res : nat * list jsstring) :
  forallb (fun n => match n with Rep _ _ _ _ => true | _ => false end) body
    = true ->
  match_here (GOpen :: body ++ GClose :: rx) pos s st = Some res ->
  exists w s2,
    s = w ++ s2 /\ accepts body w
    /\ match_here rx (pos + List.length w) s2
         {| captured := captured st ++ [w]; opened := None |} = Some res.
Proof.
  intros Hb H. rewrite match_here_open in H.
  destruct (match_here_reps body _ _ _ _ Hb H) as (w & s2 & Es & Hw & Hr).
  erewrite match_here_close in Hr by reflexivity. cbn [captured] in Hr.
  replace (pos + List.length w - pos)%nat with (List.length w) in Hr by lia.
  rewrite Es, firstn_app, firstn_all, Nat.sub_diag in Hr. cbn [firstn] in Hr.
  rewrite app_nil_r in Hr. now exists w, s2.
Qed.

Lemma search_from_some (rx : regex) (s : jsstring) :
  forall pos m, search_from rx pos s = Some m ->
  exists pos2 s2 res,
    match_here rx pos2 s2 mstate0 = Some res /\ m = mk_match pos2 s2 res.
Proof.
  induction s as [|c s IH]; intros pos m; cbn [search_from].
  - destruct (match_here rx pos [] mstate0) as [res|] eqn:E; [|discriminate].
    intros H. injection H as <-. now exists pos, [], res.
  - destruct (match_here rx pos (c :: s) mstate0) as [res|] eqn:E.
    + intros H. injection H as <-. now exists pos, (c :: s), res.
    + apply IH.
Qed.

(* ================================================================== *)
(** ** The fields of a parsed name                                     *)
(* ================================================================== *)

Lemma match_here_bol (rx : regex) (pos : nat) (s : jsstring) (st : mstate)
  (res : nat * list jsstring) :
  match_here (Bol :: rx) pos s st = Some res ->
  pos = 0%nat /\ match_here rx pos s st = Some res.
Proof.
  cbn [match_here]. destruct (pos =? 0)%nat eqn:E; [|discriminate].
  apply Nat.eqb_eq in E. now split.
Qed.

Lemma match_here_eol (pos : nat) (s : jsstring) (st : mstate)
  (res : nat * list jsstring) :
  match_here [Eol] pos s st = Some res -> s = [] /\ snd res = captured st.
Proof.
  cbn [match_here]. destruct s; [|discriminate].
  intros H. injection H as <-. now split.
Qed.

Lemma match_here_one_some (k : cset) (rx : regex) (pos : nat) (s : jsstring)
  (st : mstate) (res : nat * list jsstring) :
  match_here (one k :: rx) pos s st = Some res ->
  exists x t, s = x :: t /\ mem k x = true
              /\ match_here rx (pos + 1) t st = Some res.
Proof.
  rewrite match_here_one. destruct s as [|x t]; [discriminate|].
  destruct (mem k x) eqn:E; [|discriminate]. intros H. now exists x, t.
Qed.

(** The groups of the two filename patterns: the commune, the month token
    and the year (after the number, for the first pattern). *)
Lemma reB_groups (pos : nat) (s : jsstring) (res : nat * list jsstring) :
  match_here reB pos s mstate0 = Some res ->
  exists c m y,
    snd res = [c; m; y] /\ accepts [plus_lazy Dot] c
    /\ accepts [plus_lazy month_chars] m /\ accepts [times Digit 4 4] y.
Proof.
  unfold reB. intros H. apply match_here_bol in H. destruct H as [_ H].
  apply (@match_here_group [plus_lazy Dot]) in H; [|reflexivity].
  destruct H as (c & s1 & _ & Hc & H).
  apply match_here_one_some in H. destruct H as (x1 & s2 & _ & _ & H).
  apply (@match_here_group [plus_lazy month_chars]) in H; [|reflexivity].
  destruct H as (m & s3 & _ & Hm & H).
  apply (@match_here_group [times Digit 4 4]) in H; [|reflexivity].
  destruct H as (y & s4 & _ & Hy & H).
  apply match_here_eol in H. destruct H as [_ H]. cbn [captured app] in H.
  now exists c, m, y.
Qed.

Lemma reA_groups (pos : nat) (s : jsstring) (res : nat * list jsstring) :
  match_here reA pos s mstate0 = Some res ->
  exists n c m y,
    snd res = [n; c; m; y] /\ accepts [times Digit 1 2] n
    /\ accepts [plus_lazy Dot] c
    /\ accepts [plus_lazy month_chars] m /\ accepts [times Digit 4 4] y.
Proof.
  unfold reA. intros H. apply match_here_bol in H. destruct H as [_ H].
  apply (@match_here_group [times Digit 1 2]) in H; [|reflexivity].
  destruct H as (n & s0 & _ & Hn & H).
  apply match_here_one_some in H. destruct H as (x0 & s0' & _ & _ & H).
  apply (@match_here_group [plus_lazy Dot]) in H; [|reflexivity].
  destruct H as (c & s1 & _ & Hc & H).
  apply match_here_one_some in H. destruct H as (x1 & s2 & _ & _ & H).
  apply (@match_here_group [plus_lazy month_chars]) in H; [|reflexivity].
  destruct H as (m & s3 & _ & Hm & H).
  apply (@match_here_group [times Digit 4 4]) in H; [|reflexivity].
  destruct H as (y & s4 & _ & Hy & H).
  apply match_here_eol in H. destruct H as [_ H]. cbn [captured app] in H.
  now exists n, c, m, y.
Qed.

Lemma digits_val_bound (ds : jsstring) :
  forallb is_digit ds = true ->
  (0 <= digits_val ds < 10 ^ Z.of_nat (List.length ds))%Z.
Proof.
  unfold digits_val.
  assert (G : forall acc, forallb is_digit ds = true ->
            (fold_left (fun a c => 10 * a + digit_val c) ds acc
             = acc * 10 ^ Z.of_nat (List.length ds)
               + fold_left (fun a c => 10 * a + digit_val c) ds 0
            /\ 0 <= fold_left (fun a c => 10 * a + digit_val c) ds 0
               < 10 ^ Z.of_nat (List.length ds))%Z).
  { induction ds as [|c ds IH]; intros acc H.
    - cbn. lia.
    - cbn [forallb] in H. apply andb_true_iff in H. destruct H as [Hc Hd].
      cbn [fold_left List.length]. rewrite Nat2Z.inj_succ, Z.pow_succ_r by lia.
      destruct (IH (10 * acc + digit_val c)%Z Hd) as [E1 _].
      destruct (IH (10 * 0 + digit_val c)%Z Hd) as [E2 B].
      rewrite E1, E2.
      assert (0 <= digit_val c <= 9)%Z.
      { unfold digit_val, is_digit in *. apply andb_true_iff in Hc.
        destruct Hc as [H1 H2]. apply N.leb_le in H1, H2. lia. }
      split; [ring|nia]. }
  intros H. exact (proj2 (G 0%Z H)).
Qed.

(** [parseInt] on a non-empty run of digits is the integer it denotes. *)
Lemma parseInt10_digits (ds : jsstring) :
  ds <> [] -> forallb is_digit ds = true ->
  parseInt10 ds = of_Z (digits_val ds).
Proof.
  intros Hne Hd. destruct ds as [|c ds]; [congruence|].
  assert (Hc : is_digit c = true)
    by (cbn [forallb] in Hd; now apply andb_true_iff in Hd).
  unfold parseInt10. cbn [trimStart]. rewrite (digit_not_space c Hc).
  assert (Hs : take_sign (c :: ds) = (false, c :: ds)).
  { unfold take_sign. unfold is_digit in Hc. apply andb_true_iff in Hc.
    destruct Hc as [H1 H2]. apply N.leb_le in H1, H2.
    replace (c =? 45)%N with false by (symmetry; apply N.eqb_neq; lia).
    now replace (c =? 43)%N with false by (symmetry; apply N.eqb_neq; lia). }
  now rewrite Hs, (take_digits_all _ Hd).
Qed.

(** A word of [\d{lo,hi}]: digits, between [lo] and [hi] of them. *)
Lemma accepts_digits (lo hi : nat) (w : jsstring) :
  accepts [times Digit lo hi] w ->
  forallb is_digit w = true /\ (lo <= List.length w <= hi)%nat.
Proof.
  cbn [accepts times]. intros (w1 & w2 & -> & Hd & Hlo & Hhi & ->).
  rewrite app_nil_r. cbn [within] in Hhi. now repeat split.
Qed.

Section ParsedFields.
Context {U : Unicode}.

Lemma resolve_fields (communeRaw moisStr anneeStr : jsstring)
  (p : ParsedFilename) :
  resolve communeRaw moisStr anneeStr = Parsed p ->
  annee p = parseInt10 anneeStr
  /\ commune p
     = trim (replace_all (lit "-") (js " ")
               (replace_all (lit "_") (js " ") communeRaw)).
Proof.
  unfold resolve. cbv zeta. destruct (negb (truthy _)); [discriminate|].
  intros H. injection H as <-. now split.
Qed.

(** A parsed name comes from the groups of one of the two patterns. *)
Lemma parseFilename_parsed (filename : jsstring) (p : ParsedFilename) :
  parseFilename filename = Parsed p ->
  exists c m y,
    accepts [plus_lazy Dot] c /\ accepts [plus_lazy month_chars] m
    /\ accepts [times Digit 4 4] y /\ resolve c m y = Parsed p.
Proof.
  unfold parseFilename. cbv zeta. unfold match_first.
  destruct (search_from reA 0 _) as [mA|] eqn:EA.
  - apply search_from_some in EA. destruct EA as (pos & s & res & Hm & ->).
    destruct (reA_groups _ _ Hm) as (n & c & m & y & E & _ & Hc & Hmo & Hy).
    cbn [m_get mk_match m_groups]. rewrite E. cbn [nth]. now exists c, m, y.
  - destruct (search_from reB 0 _) as [mB|] eqn:EB; [|discriminate].
    apply search_from_some in EB. destruct EB as (pos & s & res & Hm & ->).
    destruct (reB_groups _ _ Hm) as (c & m & y & E & Hc & Hmo & Hy).
    cbn [m_get mk_match m_groups]. rewrite E. cbn [nth]. now exists c, m, y.
Qed.

End ParsedFields.

(* ================================================================== *)
(** ** Trimming and single-character replacement                       *)
(* ================================================================== *)

Lemma trimStart_head (s : jsstring) :
  match trimStart s with [] => True | c :: _ => is_space c = false end.
Proof.
  induction s as [|c s IH]; cbn [trimStart]; [trivial|].
  destruct (is_space c) eqn:E; [exact IH|exact E].
Qed.

Lemma trimStart_incl (s : jsstring) (x : char) :
  In x (trimStart s) -> In x s.
Proof.
  induction s as [|c s IH]; cbn [trimStart]; [trivial|].
  destruct (is_space c); [intros H; right; now apply IH|trivial].
Qed.

Lemma trimStart_keeps_last (l : jsstring) (x : char) :
  is_space x = false -> exists u, trimStart (l ++ [x]) = u ++ [x].
Proof.
  intros Hx. induction l as [|c l IH]; cbn [app trimStart].
  - rewrite Hx. now exists [].
  - destruct (is_space c); [exact IH|]. now exists (c :: l).
Qed.

Lemma trim_trimmed (s : jsstring) : trimmed (trim s).
Proof.
  unfold trimmed, trim, trimEnd. rewrite rev_involutive. split.
  - pose proof (trimStart_head s) as H.
    destruct (trimStart s) as [|x r]; [exact I|].
    cbn [rev]. destruct (trimStart_keeps_last (rev r) x H) as [u ->].
    rewrite rev_app_distr. exact H.
  - apply trimStart_head.
Qed.

Lemma trim_incl (s : jsstring) (x : char) : In x (trim s) -> In x s.
Proof.
  unfold trim, trimEnd. intros H. apply in_rev in H.
  apply trimStart_incl in H. apply in_rev in H. now apply trimStart_incl.
Qed.

(** A global replacement of one character by another is a map. *)
Lemma replace_from_char (a b : char) (s : jsstring) :
  forall pos,
  replace_from [one (Chr a)] [b] pos s 0
  = map (fun c => if (a =? c)%N then b else c) s.
Proof.
  induction s as [|x t IH]; intros pos; [reflexivity|].
  rewrite replace_from_0, match_here_one. cbn [map mem].
  destruct (a =? x)%N; cbn [match_here fst app].
  - replace (pos + 1 =? pos)%nat with false
      by (symmetry; apply Nat.eqb_neq; lia).
    replace (pos + 1 - pos - 1)%nat with 0%nat by lia.
    cbn [app]. f_equal. apply IH.
  - f_equal. apply IH.
Qed.

Lemma map_replace_not_in (a b : char) (s : jsstring) :
  a <> b -> ~ In a (map (fun c => if (a =? c)%N then b else c) s).
Proof.
  intros Hab H. apply in_map_iff in H. destruct H as (c & E & _).
  destruct (a =? c)%N eqn:Ec; [congruence|].
  apply N.eqb_neq in Ec. congruence.
Qed.

Section ParsedCommune.
Context {U : Unicode}.

(** X2. The commune of a parsed name holds no underscore and no hyphen, and
    no white space at either end. *)
Theorem parseFilename_commune (filename : jsstring) (p : ParsedFilename) :
  parseFilename filename = Parsed p ->
  ~ In (chr "_") (commune p) /\ ~ In (chr "-") (commune p)
  /\ trimmed (commune p).
Proof.
  intros H. destruct (parseFilename_parsed _ H) as (c & m & y & _ & _ & _ & R).
  apply resolve_fields in R. destruct R as [_ ->].
  change (lit "-") with [one (Chr 45)]. change (lit "_") with [one (Chr 95)].
  change (js " ") with [32%N]. unfold replace_all.
  rewrite !replace_from_char. repeat split.
  - intros Hin. apply trim_incl in Hin. apply in_map_iff in Hin.
    destruct Hin as (x & E & Hx).
    destruct (45 =? x)%N eqn:E45; [discriminate E|]. subst x.
    revert Hx. now apply map_replace_not_in.
  - intros Hin. apply trim_incl in Hin. revert Hin.
    now apply map_replace_not_in.
  - exact (proj1 (trim_trimmed _)).
  - exact (proj2 (trim_trimmed _)).
Qed.
End ParsedCommune.

Lemma parseFilename_commune_witness :
  ~ In (chr "_") (js "Le Pont de Claix")
  /\ ~ In (chr "-") (js "Le Pont de Claix")
  /\ trimmed (js "Le Pont de Claix").
Proof.
  apply (@parseFilename_commune latin1 (js "Le_Pont-de-Claix_sept2023.pdf")
           {| commune := js "Le Pont de Claix"; mois := VNumber (of_Z 9);
              moisLabel := Some (js "Septembre"); annee := of_Z 2023 |}).
  vm_compute. reflexivity.
Defined.

(* ================================================================== *)
(** ** What the repair leaves behind                                   *)
(* ================================================================== *)

Lemma replace_pair_length (a b c : char) (s : jsstring) (n : nat) :
  (List.length s <= n)%nat ->
  (List.length (replace_pair a b [c] s) <= List.length s)%nat
  /\ (List.length (replace_pair a b [c] s) = List.length s ->
      has_pair a b s = false).
Proof.
  revert s. induction n as [|n IH]; intros s Hn.
  - destruct s; [now split|cbn in Hn; lia].
  - destruct s as [|x [|y t]]; [now split|now split|].
    rewrite replace_pair_cons2, has_pair_cons2.
    destruct ((a =? x) && (b =? y))%N.
    + destruct (IH t ltac:(cbn in Hn; lia)) as [L _].
      cbn [app List.length] in *. split; lia.
    + destruct (IH (y :: t) ltac:(cbn in Hn |- *; lia)) as [L E].
      cbn [List.length orb] in *. split; [lia|]. intros H. apply E. lia.
Qed.

Lemma fold_repairs_length (l : list (char * char)) :
  forall s,
  let out :=
    fold_left (fun acc e => replace_pair A_tilde (fst e) [snd e] acc) l s in
  (List.length out <= List.length s)%nat
  /\ (List.length out = List.length s -> out = s).
Proof.
  induction l as [|e l IH]; intros s; cbv zeta; [now split|].
  cbn [fold_left].
  destruct (@replace_pair_length A_tilde (fst e) (snd e) s (List.length s)
              (Nat.le_refl _)) as [L1 E1].
  specialize (IH (replace_pair A_tilde (fst e) [snd e] s)). cbv zeta in IH.
  destruct IH as [L2 E2]. split; [lia|]. intros H.
  assert (H1 : List.length (replace_pair A_tilde (fst e) [snd e] s)
               = List.length s) by lia.
  rewrite E2 by lia. now apply replace_pair_noop, E1.
Qed.

(** A pair of characters that a replacement cannot touch stays. *)
Lemma has_pair_app_r (a b : char) (v u : jsstring) :
  has_pair a b u = true -> has_pair a b (v ++ u) = true.
Proof.
  intros H. induction v as [|c v IH]; [exact H|].
  cbn [app]. destruct (v ++ u) as [|y w] eqn:E; [discriminate IH|].
  rewrite has_pair_cons2, IH. apply orb_true_r.
Qed.

Lemma has_pair_kept (a b a2 b2 : char) (by_ : jsstring) (n : nat) :
  a <> b2 -> b <> a2 -> b <> b2 ->
  forall s, (List.length s <= n)%nat ->
  has_pair a2 b2 s = true ->
  has_pair a2 b2 (replace_pair a b by_ s) = true.
Proof.
  intros H1 H2 H3. induction n as [|n IH]; intros s Hn Hs.
  - destruct s; [discriminate Hs|cbn in Hn; lia].
  - destruct s as [|x [|y t]]; [discriminate Hs|discriminate Hs|].
    rewrite replace_pair_cons2. rewrite has_pair_cons2 in Hs.
    destruct ((a =? x) && (b =? y))%N eqn:E.
    + apply andb_true_iff in E. destruct E as [Ex Ey].
      apply N.eqb_eq in Ex, Ey. subst x y.
      assert (Ht : has_pair a2 b2 t = true).
      { apply orb_true_iff in Hs. destruct Hs as [Hs|Hs].
        - apply andb_true_iff in Hs. destruct Hs as [_ Hs].
          apply N.eqb_eq in Hs. congruence.
        - destruct t as [|z t]; [discriminate Hs|].
          rewrite has_pair_cons2 in Hs. apply orb_true_iff in Hs.
          destruct Hs as [Hs|Hs]; [|exact Hs].
          apply andb_true_iff in Hs. destruct Hs as [Hs _].
          apply N.eqb_eq in Hs. congruence. }
      apply has_pair_app_r, IH; [cbn in Hn; lia|exact Ht].
    + apply orb_true_iff in Hs. destruct Hs as [Hs|Hs].
      * apply andb_true_iff in Hs. destruct Hs as [Ex Ey].
        apply N.eqb_eq in Ex, Ey. subst x y.
        destruct t as [|z t].
        -- cbn [replace_pair has_pair]. now rewrite !N.eqb_refl.
        -- rewrite replace_pair_cons2.
           replace (a =? b2)%N with false
             by (symmetry; now apply N.eqb_neq).
           cbn [andb]. rewrite has_pair_cons2, !N.eqb_refl. reflexivity.
      * pose proof (IH (y :: t) ltac:(cbn in Hn |- *; lia) Hs) as K.
        destruct (replace_pair a b by_ (y :: t)) as [|z u];
          [discriminate K|].
        rewrite has_pair_cons2, K. apply orb_true_r.
Qed.

Lemma fold_repairs_kept (a2 b2 : char) (l : list (char * char)) :
  (forall e, In e l -> A_tilde <> b2 /\ fst e <> a2 /\ fst e <> b2) ->
  forall s, has_pair a2 b2 s = true ->
  has_pair a2 b2
    (fold_left (fun acc e => replace_pair A_tilde (fst e) [snd e] acc) l s)
  = true.
Proof.
  induction l as [|e l IH]; intros Hl s Hs; [exact Hs|].
  cbn [fold_left]. apply IH; [intros e2 H2; apply Hl; now right|].
  destruct (Hl e (or_introl eq_refl)) as (K1 & K2 & K3).
  now apply has_pair_kept with (n := List.length s).
Qed.

Lemma repairs_miss_no_break_space :
  forall e, In e repairs ->
  A_tilde <> 160%N /\ fst e <> A_tilde /\ fst e <> 160%N.
Proof.
  assert (H : forallb (fun e : char * char =>
                negb (A_tilde =? 160)%N && negb (fst e =? A_tilde)%N
                && negb (fst e =? 160)%N) repairs = true)
    by (vm_compute; reflexivity).
  intros e He. rewrite forallb_forall in H. specialize (H e He).
  rewrite !andb_true_iff, !negb_true_iff, !N.eqb_neq in H. tauto.
Qed.

(** X3. After the repair the string holds none of the patterns the repair
    replaces, so the repair leaves a string unchanged exactly when it held
    none. The corrupted sequence of [à], which is [Ã] before a no-break
    space and which no pattern describes, is out of its reach: a string that
    holds it still holds it after the repair. *)
Theorem fixFilenameEncoding_clean (s : jsstring) :
  Forall (fun p => indexOf p (fixFilenameEncoding s) = None)
    repair_patterns
  /\ (fixFilenameEncoding s = s
      <-> Forall (fun p => indexOf p s = None) repair_patterns)
  /\ mis_encoding windows_1252 (chr "à") = [A_tilde; 160%N]
  /\ (indexOf (mis_encoding windows_1252 (chr "à")) s <> None ->
      indexOf (mis_encoding windows_1252 (chr "à")) (fixFilenameEncoding s)
      <> None).
Proof.
  change (mis_encoding windows_1252 (chr "à")) with [A_tilde; 160%N].
  assert (C : forall t, Forall (fun p => indexOf p (fixFilenameEncoding t) = None)
                          repair_patterns).
  { intros t. rewrite fixFilenameEncoding_repair_all.
    rewrite repair_patterns_repairs. apply Forall_forall.
    intros q Hq. apply in_map_iff in Hq. destruct Hq as (e & <- & He).
    apply has_pair_indexOf_none.
    apply (@fold_repairs_clean repairs [] t good_repairs); [intros ? []|].
    exact He. }
  split; [apply C|]. split; [split|split; [reflexivity|]].
  - intros E. pose proof (C s) as H. now rewrite E in H.
  - intros H. rewrite fixFilenameEncoding_repair_all.
    apply fold_repairs_noop. intros e He. apply indexOf_pair_none.
    rewrite repair_patterns_repairs, Forall_forall in H.
    apply H. now apply (in_map (fun e => [A_tilde; fst e])).
  - intros H K. apply indexOf_pair_none in K.
    rewrite fixFilenameEncoding_repair_all in K.
    destruct (has_pair A_tilde 160%N s) eqn:E.
    + unfold repair_all in K.
      rewrite (@fold_repairs_kept A_tilde 160%N repairs
                 repairs_miss_no_break_space s E) in K.
      discriminate K.
    + apply H. now apply has_pair_indexOf_none.
Qed.

(** X4. The repair never lengthens a string, and keeps its length only when
    it changes nothing. *)
Theorem fixFilenameEncoding_length (s : jsstring) :
  (List.length (fixFilenameEncoding s) <= List.length s)%nat
  /\ (List.length (fixFilenameEncoding s) = List.length s ->
      fixFilenameEncoding s = s).
Proof.
  rewrite fixFilenameEncoding_repair_all. apply fold_repairs_length.
Qed.

(* ================================================================== *)
(** ** The single-figure extractor                                     *)
(* ================================================================== *)

Lemma take_digits_run (s : jsstring) :
  run_length Digit None s = List.length (fst (take_digits s))
  /\ firstn (run_length Digit None s) s = fst (take_digits s).
Proof.
  induction s as [|c s [IH1 IH2]]; [now split|].
  cbn [run_length take_digits mem option_map].
  change (mem Digit c) with (is_digit c).
  destruct (is_digit c); [|now split].
  destruct (take_digits s) as [d r]. cbn [fst] in IH1, IH2.
  cbn [fst List.length]. split; [now rewrite IH1|].
  change (firstn (S (run_length Digit None s)) (c :: s))
    with (c :: firstn (run_length Digit None s) s).
  now rewrite IH2.
Qed.

Lemma match_here_plus_digit (pos : nat) (s : jsstring) (st : mstate) :
  match_here [plus Digit] pos s st =
  if (run_length Digit None s =? 0)%nat then None
  else Some (pos + run_length Digit None s, captured st)%nat.
Proof.
  unfold plus. rewrite match_here_greedy.
  destruct (run_length Digit None s) as [|n] eqn:E; [reflexivity|].
  cbn [Nat.ltb Nat.leb Nat.eqb]. now apply try_down_first.
Qed.

Lemma first_digits_digits (s : jsstring) :
  forallb is_digit (first_digits s) = true.
Proof.
  induction s as [|c s IH]; [reflexivity|]. cbn [first_digits].
  destruct (is_digit c) eqn:E; [|exact IH]. cbn [forallb]. rewrite E.
  clear. induction s as [|x s IH]; [reflexivity|]. cbn [take_digits].
  destruct (is_digit x) eqn:E; [|reflexivity].
  destruct (take_digits s). cbn [fst forallb] in *. now rewrite E.
Qed.

Lemma search_first_digits (s : jsstring) :
  forall pos,
  option_map m_text (search_from [plus Digit] pos s) =
  match first_digits s with [] => None | d => Some d end.
Proof.
  induction s as [|c s IH]; intros pos; [reflexivity|].
  cbn [search_from first_digits]. rewrite match_here_plus_digit.
  destruct (take_digits_run (c :: s)) as [R1 R2].
  cbn [run_length mem option_map] in *.
  destruct (is_digit c) eqn:E.
  - cbn [Nat.eqb option_map mk_match m_text fst].
    replace (pos + S (run_length Digit None s) - pos)%nat
      with (S (run_length Digit None s)) by lia.
    rewrite R2. cbn [take_digits]. rewrite E. now destruct (take_digits s).
  - cbn [Nat.eqb]. apply IH.
Qed.

(** X5. [getOneIntAfter] gives the integer written by the first run of
    digits within the 80 characters after the label; it gives [null] exactly
    when the label is absent or these characters hold no digit. *)
Theorem getOneIntAfter_first_digits (norm label : jsstring) :
  Browser.getOneIntAfter norm label =
  match window 80 norm label with
  | None => None
  | Some after =>
    match first_digits after with
    | [] => None
    | d => Some (of_Z (digits_val d))
    end
  end
  /\ Server.getOneIntAfter norm label = Browser.getOneIntAfter norm label.
Proof.
  split; [|reflexivity].
  unfold Browser.getOneIntAfter, window.
  destruct (indexOf label norm) as [idx|]; [|reflexivity].
  unfold match_first.
  pose proof (search_first_digits
                (slice (idx + List.length label)
                   (idx + List.length label + 80) norm) 0) as H.
  pose proof (first_digits_digits
                (slice (idx + List.length label)
                   (idx + List.length label + 80) norm)) as D.
  destruct (search_from [plus Digit] 0 _) as [m|];
    destruct (first_digits _) as [|c d]; try discriminate H; [|reflexivity].
  cbn [option_map] in H. injection H as H. cbn [m_get]. rewrite H.
  now apply parseIntStrict_digits.
Qed.

(* ================================================================== *)
(** ** Numeric tokens                                                  *)
(* ================================================================== *)

Lemma replace_first_absent (a : char) (by_ s : jsstring) :
  ~ In a s -> replace_first [a] by_ s = s.
Proof.
  induction s as [|x s IH]; intros H; [reflexivity|].
  cbn [replace_first starts_with].
  destruct (a =? x)%N eqn:E.
  - apply N.eqb_eq in E. subst x. exfalso. apply H. now left.
  - cbn [andb]. f_equal. apply IH. intros Hin. apply H. now right.
Qed.

Lemma of_decimal_integer (m : Z) : of_decimal m 0 = of_Z m.
Proof.
  unfold of_decimal. destruct (m =? 0)%Z eqn:E.
  - apply Z.eqb_eq in E. now subst m.
  - cbn [Z.leb Z.compare]. now rewrite Z.pow_0_r, Z.mul_1_r.
Qed.

(** [parseFloat] on a non-empty run of digits is the integer it denotes. *)
Lemma parseFloat_digits (ds : jsstring) :
  ds <> [] -> forallb is_digit ds = true ->
  parseFloat ds = of_Z (digits_val ds).
Proof.
  intros Hne Hd. destruct ds as [|c ds]; [congruence|].
  assert (Hc : is_digit c = true)
    by (cbn [forallb] in Hd; now apply andb_true_iff in Hd).
  unfold parseFloat. cbn [trimStart]. rewrite (digit_not_space c Hc).
  assert (Hs : take_sign (c :: ds) = (false, c :: ds)
               /\ starts_with (js "Infinity") (c :: ds) = false).
  { unfold take_sign. unfold is_digit in Hc. apply andb_true_iff in Hc.
    destruct Hc as [H1 H2]. apply N.leb_le in H1, H2.
    replace (c =? 45)%N with false by (symmetry; apply N.eqb_neq; lia).
    replace (c =? 43)%N with false by (symmetry; apply N.eqb_neq; lia).
    split; [reflexivity|].
    change (js "Infinity") with (73%N :: js "nfinity"). cbn [starts_with].
    now replace (73 =? c)%N with false by (symmetry; apply N.eqb_neq; lia). }
  destruct Hs as [-> ->]. rewrite (take_digits_all _ Hd).
  rewrite app_nil_r. cbn [take_exponent List.length signed Z.of_nat Z.sub].
  apply of_decimal_integer.
Qed.

Lemma normalizeNum_digits_blanks (s : jsstring) :
  forallb (fun c => is_digit c || is_space c) s = true ->
  Browser.normalizeNum s = Browser.parseIntStrict s
  /\ Browser.parseIntStrict s =
     match filter is_digit s with
     | [] => None
     | ds => Some (of_Z (digits_val ds))
     end.
Proof.
  intros H. destruct s as [|c0 s0]; [now split|].
  set (s := c0 :: s0) in *.
  assert (F : filter (fun c => negb (mem Space c)) s = filter is_digit s
              /\ forallb is_digit (filter is_digit s) = true).
  { clearbody s. clear c0 s0. induction s as [|c s IH]; [now split|].
    cbn [forallb] in H. apply andb_true_iff in H. destruct H as [Hc Hs].
    destruct (IH Hs) as [E D]. cbn [filter].
    change (mem Space c) with (is_space c).
    destruct (is_digit c) eqn:Ed.
    - rewrite (digit_not_space c Ed). cbn [negb forallb].
      now rewrite E, Ed, D.
    - cbn [orb] in Hc. rewrite Hc. cbn [negb]. now split. }
  destruct F as [F D].
  unfold Browser.normalizeNum, Browser.parseIntStrict. subst s.
  unfold replace_all. rewrite replace_from_one, F.
  change (js ",") with [44%N]. rewrite replace_first_absent.
  2:{ intros Hin. rewrite forallb_forall in D. specialize (D _ Hin).
      discriminate D. }
  destruct (filter is_digit (c0 :: s0)) as [|d ds] eqn:E; [now split|].
  rewrite parseFloat_digits, parseInt10_digits by (trivial; discriminate).
  rewrite of_Z_not_NaN. now split.
Qed.

(** X6. On a token of digits and blanks, [normalizeNum] and [parseIntStrict]
    return the same, in the server copy and in the browser copy: the
    integer its digits write, or [null] when it holds no digit. *)
Theorem normalizeNum_parseIntStrict (s : jsstring) :
  forallb (fun c => is_digit c || is_space c) s = true ->
  let v := match filter is_digit s with
           | [] => None
           | ds => Some (of_Z (digits_val ds))
           end in
  Browser.normalizeNum s = v /\ Browser.parseIntStrict s = v
  /\ Server.normalizeNum s = v /\ Server.parseIntStrict s = v.
Proof.
  intros H v. destruct (normalizeNum_digits_blanks s H) as [E1 E2].
  destruct helpers_server_browser as (_ & _ & -> & ->).
  rewrite E1, E2. now repeat split.
Qed.

Lemma normalizeNum_parseIntStrict_witness :
  Browser.normalizeNum (js "12 345") = Some (of_Z 12345)
  /\ Browser.parseIntStrict (js "12 345") = Some (of_Z 12345)
  /\ Server.normalizeNum (js "12 345") = Some (of_Z 12345)
  /\ Server.parseIntStrict (js "12 345") = Some (of_Z 12345).
Proof. exact (@normalizeNum_parseIntStrict (js "12 345") eq_refl). Defined.

(* ================================================================== *)
(** ** The normalisation of the text                                   *)
(* ================================================================== *)

Lemma match_here_plus (k : cset) (pos : nat) (s : jsstring) (st : mstate) :
  match_here [plus k] pos s st =
  if (run_length k None s =? 0)%nat then None
  else Some (pos + run_length k None s, captured st)%nat.
Proof.
  unfold plus. rewrite match_here_greedy.
  destruct (run_length k None s) as [|n] eqn:E; [reflexivity|].
  cbn [Nat.ltb Nat.leb Nat.eqb]. now apply try_down_first.
Qed.

Lemma replace_spaces_squeeze (s : jsstring) :
  (forall pos, replace_from [plus Space] [32%N] pos s 0 = squeeze false s)
  /\ (forall pos,
        replace_from [plus Space] [32%N] pos s (run_length Space None s)
        = squeeze true s).
Proof.
  induction s as [|c s [IHa IHb]].
  - split; intros pos; reflexivity.
  - assert (A : forall pos,
               replace_from [plus Space] [32%N] pos (c :: s) 0
               = squeeze false (c :: s)).
    { intros pos. rewrite replace_from_0, match_here_plus.
      cbn [run_length option_map squeeze]. change (mem Space c) with (is_space c).
      destruct (is_space c).
      - cbn [Nat.eqb fst app].
        replace (pos + S (run_length Space None s) =? pos)%nat with false
          by (symmetry; apply Nat.eqb_neq; lia).
        replace (pos + S (run_length Space None s) - pos - 1)%nat
          with (run_length Space None s) by lia.
        cbn [app]. f_equal. apply IHb.
      - cbn [Nat.eqb]. f_equal. apply IHa. }
    split; [exact A|]. intros pos.
    specialize (A pos). revert A.
    cbn [run_length option_map squeeze]. change (mem Space c) with (is_space c).
    destruct (is_space c); intros A.
    + change (replace_from [plus Space] [32%N] pos (c :: s)
                (S (run_length Space None s)))
        with (replace_from [plus Space] [32%N] (S pos) s
                (run_length Space None s)).
      apply IHb.
    + exact A.
Qed.

Lemma squeeze_single_spaced (s : jsstring) :
  single_spaced false (squeeze false s) = true
  /\ single_spaced true (squeeze true s) = true.
Proof.
  induction s as [|c s [IHa IHb]]; [now split|].
  cbn [squeeze]. destruct (is_space c) eqn:E.
  - split; [|exact IHb]. cbn [single_spaced].
    change (is_space 32) with true. cbn [N.eqb Pos.eqb negb andb]. exact IHb.
  - cbn [single_spaced]. rewrite E. now split.
Qed.

Lemma single_spaced_squeeze (s : jsstring) :
  (single_spaced false s = true -> squeeze false s = s)
  /\ (single_spaced true s = true -> squeeze true s = s).
Proof.
  induction s as [|c s [IHa IHb]]; [now split|].
  cbn [squeeze single_spaced]. destruct (is_space c) eqn:E.
  - split; intros H.
    + apply andb_true_iff in H. destruct H as [H1 H2].
      apply andb_true_iff in H1. destruct H1 as [H1 _].
      apply N.eqb_eq in H1. subst c. f_equal. now apply IHb.
    + apply andb_true_iff in H. destruct H as [H1 _].
      apply andb_true_iff in H1. destruct H1 as [_ H1]. discriminate H1.
  - split; intros H; f_equal; now apply IHa.
Qed.

Lemma single_spaced_weaken (s : jsstring) :
  single_spaced true s = true -> single_spaced false s = true.
Proof.
  destruct s as [|c s]; [trivial|]. cbn [single_spaced].
  destruct (is_space c); [|trivial]. intros H.
  apply andb_true_iff in H. destruct H as [H1 _].
  apply andb_true_iff in H1. destruct H1 as [_ H1]. discriminate H1.
Qed.

Lemma single_spaced_tail (p : bool) (c : char) (s : jsstring) :
  single_spaced p (c :: s) = true -> single_spaced false s = true.
Proof.
  cbn [single_spaced]. destruct (is_space c); intros H; [|exact H].
  apply andb_true_iff in H. destruct H as [_ H].
  now apply single_spaced_weaken.
Qed.

Lemma single_spaced_trimStart (s : jsstring) :
  single_spaced false s = true -> single_spaced false (trimStart s) = true.
Proof.
  induction s as [|c s IH]; [trivial|]. intros H. cbn [trimStart].
  destruct (is_space c) eqn:E; [|exact H].
  apply IH. exact (single_spaced_tail _ _ _ H).
Qed.

Lemma forallb_space_rev (l : jsstring) :
  forallb is_space (rev l) = forallb is_space l.
Proof.
  induction l as [|x l IH]; [reflexivity|].
  cbn [rev forallb]. rewrite forallb_app, IH. cbn [forallb].
  rewrite andb_true_r. apply andb_comm.
Qed.

Lemma trimStart_app_last (l : jsstring) (c : char) :
  trimStart (l ++ [c]) =
  if forallb is_space l then trimStart [c] else trimStart l ++ [c].
Proof.
  induction l as [|x l IH]; [reflexivity|].
  cbn [app trimStart forallb]. destruct (is_space x); [exact IH|reflexivity].
Qed.

(** [trimEnd], from the front. *)
Lemma trimEnd_cons (c : char) (s : jsstring) :
  trimEnd (c :: s) =
  if forallb is_space (c :: s) then [] else c :: trimEnd s.
Proof.
  unfold trimEnd. cbn [rev]. rewrite trimStart_app_last.
  rewrite forallb_space_rev. cbn [forallb trimStart].
  destruct (forallb is_space s) eqn:Es.
  - rewrite andb_true_r. destruct (is_space c); [reflexivity|].
    cbn [rev app]. f_equal.
    assert (T : trimStart (rev s) = []).
    { assert (G : forall l, forallb is_space l = true -> trimStart l = []).
      { induction l as [|x l IH]; [reflexivity|]. cbn [forallb trimStart].
        intros H. apply andb_true_iff in H. destruct H as [-> H].
        now apply IH. }
      apply G. now rewrite forallb_space_rev. }
    now rewrite T.
  - rewrite andb_false_r, rev_app_distr. reflexivity.
Qed.

Lemma single_spaced_trimEnd (s : jsstring) :
  forall p, single_spaced p s = true -> single_spaced p (trimEnd s) = true.
Proof.
  induction s as [|c s IH]; intros p H; [exact H|].
  rewrite trimEnd_cons. destruct (forallb is_space (c :: s)); [reflexivity|].
  revert H. cbn [single_spaced]. destruct (is_space c); intros H.
  - apply andb_true_iff in H. destruct H as [H1 H2]. rewrite H1.
    now apply IH.
  - now apply IH.
Qed.

Lemma trimmed_trim (s : jsstring) : trimmed s -> trim s = s.
Proof.
  intros [H1 H2].
  assert (G : forall l,
             match l with [] => True | c :: _ => is_space c = false end ->
             trimStart l = l).
  { intros [|c l] H; [reflexivity|]. cbn [trimStart]. now rewrite H. }
  unfold trim, trimEnd. rewrite (G s H1), (G (rev s) H2).
  apply rev_involutive.
Qed.

Lemma normalise_squeeze (t : jsstring) :
  normalise t = trim (squeeze false t).
Proof.
  unfold normalise, replace_all. change (js " ") with [32%N].
  now rewrite (proj1 (replace_spaces_squeeze t)).
Qed.

(** The extraction reads the normalised text only. *)
Lemma parsePdfText_of_normalise (t1 t2 : jsstring) :
  normalise t1 = normalise t2 ->
  Browser.parsePdfText t1 = Browser.parsePdfText t2.
Proof.
  intros E. unfold Browser.parsePdfText. fold (normalise t1).
  fold (normalise t2). now rewrite E.
Qed.

(** X7. The normalisation is idempotent and the extraction only depends on
    the normalised text; a normalised text has single spaces as its only
    white space, none at either end. *)
Theorem normalise_idempotent (text : jsstring) :
  normalise (normalise text) = normalise text
  /\ single_spaced false (normalise text) = true
  /\ trimmed (normalise text)
  /\ Browser.parsePdfText (normalise text) = Browser.parsePdfText text.
Proof.
  pose proof normalise_squeeze as E.
  assert (S1 : single_spaced false (normalise text) = true).
  { rewrite E. unfold trim. apply single_spaced_trimEnd.
    apply single_spaced_trimStart. apply squeeze_single_spaced. }
  assert (I : normalise (normalise text) = normalise text).
  { rewrite (E (normalise text)).
    rewrite (proj1 (single_spaced_squeeze _) S1).
    apply trimmed_trim. rewrite E. apply trim_trimmed. }
  repeat split; trivial.
  - rewrite E. apply (proj1 (trim_trimmed _)).
  - rewrite E. apply (proj2 (trim_trimmed _)).
  - now apply parsePdfText_of_normalise.
Qed.


(* ================================================================== *)
(** ** Integers as binary64 numbers                                    *)
(* ================================================================== *)

Section IntegersAsNumbers.
Local Open Scope Z_scope.

Lemma digits2_pos_size (p : positive) : digits2_pos p = Pos.size p.
Proof. induction p as [p IH|p IH|]; cbn; now rewrite ?IH. Qed.

Lemma digits2_bounds (p : positive) :
  2 ^ (Z.pos (digits2_pos p) - 1) <= Z.pos p < 2 ^ Z.pos (digits2_pos p).
Proof.
  rewrite digits2_pos_size. split.
  - pose proof (Pos.size_le p) as H.
    assert (E : Z.pos (2 ^ Pos.size p) <= Z.pos p~0) by exact H.
    rewrite Pos2Z.inj_pow in E.
    replace (Z.pos (Pos.size p)) with (Z.succ (Z.pos (Pos.size p) - 1)) in E
      by lia.
    rewrite Z.pow_succ_r in E by lia. lia.
  - pose proof (Pos.size_gt p) as H.
    assert (E : Z.pos p < Z.pos (2 ^ Pos.size p)) by exact H.
    now rewrite Pos2Z.inj_pow in E.
Qed.

Lemma iter_xO_val (p k : positive) :
  Z.pos (Pos.iter xO p k) = Z.pos p * 2 ^ Z.pos k.
Proof.
  induction k as [|k IH] using Pos.peano_ind.
  - cbn. lia.
  - rewrite Pos.iter_succ, Pos2Z.inj_succ, Z.pow_succ_r by lia.
    rewrite Pos2Z.inj_xO, IH. lia.
Qed.

Lemma iter_xO_digits (p k : positive) :
  digits2_pos (Pos.iter xO p k) = (digits2_pos p + k)%positive.
Proof.
  induction k as [|k IH] using Pos.peano_ind.
  - cbn. lia.
  - rewrite Pos.iter_succ. cbn [digits2_pos]. rewrite IH. lia.
Qed.

Lemma shr_1_m (mrs : shr_record) :
  0 <= shr_m mrs -> shr_m (shr_1 mrs) = shr_m mrs / 2.
Proof.
  destruct mrs as [m r s]. cbn [shr_m shr_1]. intros H.
  destruct m as [|[p|p|]|p]; cbn [shr_m]; try lia; try reflexivity.
  - rewrite Pos2Z.inj_xI. apply (Z.div_unique _ _ _ 1); lia.
  - rewrite Pos2Z.inj_xO. apply (Z.div_unique _ _ _ 0); lia.
Qed.

Lemma iter_shr_1_m (p : positive) :
  forall mrs, 0 <= shr_m mrs ->
  shr_m (iter_pos shr_1 p mrs) = shr_m mrs / 2 ^ Z.pos p.
Proof.
  assert (N : forall a b, 0 <= a -> 0 < b -> 0 <= a / b)
    by (intros; apply Z.div_pos; lia).
  assert (P : forall q, 0 < 2 ^ Z.pos q) by (intros; apply Z.pow_pos_nonneg; lia).
  induction p as [p IH|p IH|]; intros mrs H; cbn [iter_pos].
  - rewrite IH, IH, shr_1_m; trivial.
    + rewrite !Z.div_div by (try apply P; try (pose proof (P p)); lia).
      f_equal. 
      assert (E : 2 ^ Z.pos p~1 = 2 * (2 ^ Z.pos p * 2 ^ Z.pos p)).
      { rewrite <- Z.pow_add_r, <- Z.pow_succ_r by lia. f_equal. lia. }
      rewrite E. lia.
    + rewrite shr_1_m by trivial. apply N; lia.
    + rewrite IH, shr_1_m; trivial.
      * apply N; [apply N; lia|apply P].
      * rewrite shr_1_m by trivial. apply N; lia.
  - rewrite IH, IH; trivial.
    + rewrite Z.div_div by (try apply P; pose proof (P p); lia).
      f_equal. rewrite <- Z.pow_add_r by lia. f_equal. lia.
    + rewrite IH by trivial. apply N; [lia|apply P].
  - rewrite shr_1_m by trivial. reflexivity.
Qed.

(** The mantissa and the exponent after a shift. *)
Lemma shr_fexp_spec (m e : Z) (l : location) :
  0 <= m ->
  let n := Z.max 0 (fexp 53 1024 (Zdigits2 m + e) - e) in
  shr_m (fst (shr_fexp 53 1024 m e l)) = m / 2 ^ n
  /\ snd (shr_fexp 53 1024 m e l) = e + n.
Proof.
  intros Hm n. unfold shr_fexp, shr. subst n.
  assert (E : shr_m (shr_record_of_loc m l) = m)
    by (destruct l as [|[]]; reflexivity).
  destruct (fexp 53 1024 (Zdigits2 m + e) - e) as [|p|p] eqn:En;
    cbn [fst snd].
  - rewrite E. cbn. rewrite Z.div_1_r. lia.
  - rewrite iter_shr_1_m by lia. rewrite E.
    replace (Z.max 0 (Z.pos p)) with (Z.pos p) by lia. now split.
  - rewrite E. replace (Z.max 0 (Z.neg p)) with 0 by lia.
    cbn. rewrite Z.div_1_r. lia.
Qed.

(** An integer of at most 53 bits is a binary64 number. *)
Lemma of_Z_exact (p : positive) :
  Z.pos (digits2_pos p) <= 53 ->
  exists m,
    of_Z (Z.pos p) = S754_finite false m (Z.pos (digits2_pos p) - 53)
    /\ Z.pos m = Z.pos p * 2 ^ (53 - Z.pos (digits2_pos p)).
Proof.
  intros Hd. unfold of_Z, binary_normalize, binary_round.
  set (d := Z.pos (digits2_pos p)) in *.
  assert (Ef : fexp 53 1024 (d + 0) = d - 53).
  { unfold fexp, emin. pose proof (Pos2Z.is_pos (digits2_pos p)). lia. }
  rewrite Ef. unfold shl_align.
  assert (G : forall mz : positive,
             Z.pos (digits2_pos mz) = 53 ->
             binary_round_aux 53 1024 false (Z.pos mz) (d - 53) loc_Exact
             = S754_finite false mz (d - 53)).
  { intros mz Hz. unfold binary_round_aux.
    assert (F : fexp 53 1024 (Zdigits2 (Z.pos mz) + (d - 53)) - (d - 53) = 0).
    { cbn [Zdigits2]. rewrite Hz. unfold fexp, emin.
      pose proof (Pos2Z.is_pos (digits2_pos p)). lia. }
    assert (I : shr_fexp 53 1024 (Z.pos mz) (d - 53) loc_Exact
                = (Build_shr_record (Z.pos mz) false false, d - 53))
      by (unfold shr_fexp; now rewrite F).
    rewrite I. cbn [shr_m loc_of_shr_record round_nearest_even].
    rewrite I. cbn [shr_m].
    replace (d - 53 <=? 1024 - 53) with true
      by (symmetry; apply Z.leb_le; lia).
    reflexivity. }
  destruct (d - 53 - 0) as [|q|q] eqn:Eq.
  - assert (E0 : d - 53 = 0) by lia. rewrite E0 in G |- *.
    exists p. split; [apply G; fold d; lia|].
    replace (53 - d) with 0 by lia. lia.
  - lia.
  - exists (Pos.iter xO p q). split.
    + apply G. rewrite iter_xO_digits. fold d. lia.
    + rewrite iter_xO_val. f_equal. f_equal. lia.
Qed.

(** A larger integer rounds to a number with a positive exponent, or to
    infinity. *)
Lemma of_Z_large (p : positive) :
  53 < Z.pos (digits2_pos p) ->
  of_Z (Z.pos p) = S754_infinity false
  \/ exists m e, of_Z (Z.pos p) = S754_finite false m e /\ 0 < e.
Proof.
  intros Hd. unfold of_Z, binary_normalize, binary_round.
  set (d := Z.pos (digits2_pos p)) in *.
  assert (Ef : fexp 53 1024 (d + 0) = d - 53) by (unfold fexp, emin; lia).
  rewrite Ef. unfold shl_align.
  destruct (d - 53 - 0) as [|q|q] eqn:Eq; try lia.
  unfold binary_round_aux.
  destruct (@shr_fexp_spec (Z.pos p) 0 loc_Exact (Pos2Z.is_nonneg p))
    as [M1 E1].
  cbn [Zdigits2] in M1, E1. fold d in M1, E1. rewrite Ef in M1, E1.
  replace (Z.max 0 (d - 53 - 0)) with (d - 53) in M1, E1 by lia.
  destruct (shr_fexp 53 1024 (Z.pos p) 0 loc_Exact) as [mrs1 e1].
  cbn [fst snd] in M1, E1.
  pose proof (digits2_bounds p) as [B1 B2]. fold d in B1, B2.
  assert (L1 : 2 ^ 52 <= shr_m mrs1).
  { rewrite M1. apply Z.div_le_lower_bound.
    - apply Z.pow_pos_nonneg; lia.
    - rewrite <- Z.pow_add_r by lia.
      now replace (d - 53 + 52) with (d - 1) by lia. }
  set (m1 := round_nearest_even (shr_m mrs1) (loc_of_shr_record mrs1)).
  assert (L2 : 2 ^ 52 <= m1).
  { unfold m1, round_nearest_even.
    destruct (loc_of_shr_record mrs1) as [|[]];
      try destruct (Z.even (shr_m mrs1)); lia. }
  assert (P52 : 0 < 2 ^ 52) by (apply Z.pow_pos_nonneg; lia).
  destruct (@shr_fexp_spec m1 e1 loc_Exact) as [M2 E2]; [lia|].
  destruct (shr_fexp 53 1024 m1 e1 loc_Exact) as [mrs2 e2].
  cbn [fst snd] in M2, E2.
  set (n := Z.max 0 (fexp 53 1024 (Zdigits2 m1 + e1) - e1)) in *.
  assert (L3 : 0 < shr_m mrs2).
  { rewrite M2. apply Z.div_str_pos. split.
    - apply Z.pow_pos_nonneg; lia.
    - destruct m1 as [|pm|pm]; try lia.
      cbn [Zdigits2] in n.
      pose proof (digits2_bounds pm) as [C1 C2].
      assert (D53 : 53 <= Z.pos (digits2_pos pm)).
      { destruct (Z.le_gt_cases 53 (Z.pos (digits2_pos pm))) as [|Hlt];
          [trivial|].
        assert (2 ^ Z.pos (digits2_pos pm) <= 2 ^ 52)
          by (apply Z.pow_le_mono_r; lia).
        lia. }
      assert (En : n = Z.pos (digits2_pos pm) - 53)
        by (unfold n, fexp, emin; lia).
      rewrite En.
      apply Z.le_trans with (2 ^ (Z.pos (digits2_pos pm) - 1)); [|exact C1].
      apply Z.pow_le_mono_r; lia. }
  destruct (shr_m mrs2) as [|pm|pm]; try lia.
  destruct (e2 <=? 1024 - 53); [|now left].
  right. exists pm, e2. split; [reflexivity|]. lia.
Qed.

(** Comparing the number of an integer with the number of a small one is
    comparing the integers. *)
Lemma of_Z_compare (z t : Z) :
  0 <= z -> 0 <= t < 2 ^ 53 ->
  SFcompare (of_Z z) (of_Z t) = Some (z ?= t).
Proof.
  intros Hz Ht.
  assert (D : forall q, Z.pos q < 2 ^ 53 -> Z.pos (digits2_pos q) <= 53).
  { intros q Hq. pose proof (digits2_bounds q) as [B1 _].
    destruct (Z.le_gt_cases (Z.pos (digits2_pos q)) 53) as [|Hgt]; [trivial|].
    assert (2 ^ 53 <= 2 ^ (Z.pos (digits2_pos q) - 1))
      by (apply Z.pow_le_mono_r; lia).
    lia. }
  destruct t as [|pt|pt]; [|
    |lia].
  - destruct z as [|pz|pz]; [reflexivity| |lia].
    destruct (Z.le_gt_cases (Z.pos (digits2_pos pz)) 53) as [Hd|Hd].
    + destruct (of_Z_exact pz Hd) as (m & -> & _). reflexivity.
    + destruct (of_Z_large pz Hd) as [->|(m & e & -> & _)]; reflexivity.
  - destruct (of_Z_exact pt (D pt (proj2 Ht))) as (mt & Et & Vt).
    rewrite Et.
    destruct z as [|pz|pz]; [reflexivity| |lia].
    pose proof (digits2_bounds pz) as [Z1 Z2].
    pose proof (digits2_bounds pt) as [T1 T2].
    destruct (Z.le_gt_cases (Z.pos (digits2_pos pz)) 53) as [Hd|Hd].
    + destruct (of_Z_exact pz Hd) as (mz & Ez & Vz). rewrite Ez.
      cbn [SFcompare]. f_equal.
      set (dz := Z.pos (digits2_pos pz)) in *.
      set (dt := Z.pos (digits2_pos pt)) in *.
      destruct (Z.compare_spec (dz - 53) (dt - 53)) as [E|E|E].
      * rewrite Pos.compare_cont_spec.
        assert (S : forall c, Pos.switch_Eq Eq c = c) by now intros [].
        rewrite S.
        change (mz ?= mt)%positive with (Z.pos mz ?= Z.pos mt).
        rewrite Vz, Vt. replace dz with dt by lia.
        assert (0 < 2 ^ (53 - dt)) by (apply Z.pow_pos_nonneg; lia).
        destruct (Z.compare_spec (Z.pos pz) (Z.pos pt));
          [apply Z.compare_eq_iff|apply Z.compare_lt_iff
          |apply Z.compare_gt_iff]; nia.
      * symmetry. apply Z.compare_lt_iff.
        assert (2 ^ dz <= 2 ^ (dt - 1)) by (apply Z.pow_le_mono_r; lia).
        lia.
      * symmetry. apply Z.compare_gt_iff.
        assert (2 ^ dt <= 2 ^ (dz - 1)) by (apply Z.pow_le_mono_r; lia).
        lia.
    + assert (G : (Z.pos pz ?= Z.pos pt) = Gt).
      { apply Z.compare_gt_iff.
        assert (2 ^ 53 <= 2 ^ (Z.pos (digits2_pos pz) - 1))
          by (apply Z.pow_le_mono_r; lia).
        lia. }
      rewrite G.
      destruct (of_Z_large pz Hd) as [->|(m & e & -> & He)]; [reflexivity|].
      cbn [SFcompare]. f_equal.
      assert (Z.pos (digits2_pos pt) <= 53) by (apply D; lia).
      destruct (Z.compare_spec e (Z.pos (digits2_pos pt) - 53)); trivial; lia.
Qed.

Lemma of_Z_gtb (z t : Z) :
  0 <= z -> 0 <= t < 2 ^ 53 -> gtb (of_Z z) (of_Z t) = (t <? z).
Proof.
  intros Hz Ht. unfold gtb, SFltb.
  rewrite (SFcompare_antisym (of_Z z) (of_Z t)), (of_Z_compare Hz Ht).
  cbn [option_map]. unfold Z.ltb. rewrite (Z.compare_antisym z t).
  reflexivity.
Qed.

Lemma of_Z_ltb (z t : Z) :
  0 <= z -> 0 <= t < 2 ^ 53 -> ltb (of_Z z) (of_Z t) = (z <? t).
Proof.
  intros Hz Ht. unfold ltb, SFltb. now rewrite (of_Z_compare Hz Ht).
Qed.

End IntegersAsNumbers.

(* ================================================================== *)
(** ** The values of the extracted fields                              *)
(* ================================================================== *)

Lemma digits_group_value (d : jsstring) :
  digits_group d ->
  Browser.parseIntStrict d = Some (of_Z (digits_val d))
  /\ (0 <= digits_val d)%Z.
Proof.
  intros [N D]. split; [now apply parseIntStrict_digits|].
  apply (digits_val_bound _ D).
Qed.

(** An accepted pair, as integers. *)
Lemma scan_pairs_counts (ms : list rmatch) :
  (forall m, In m ms ->
     exists d1 d2, m_groups m = [d1; d2] /\ digits_group d1 /\ digits_group d2) ->
  Browser.scan_pairs ms = (None, None)
  \/ exists a b : Z,
       (0 <= a <= 200 /\ 0 <= b <= 200 /\ ~ (25 < a /\ b < 5))%Z
       /\ Browser.scan_pairs ms = (Some (of_Z a), Some (of_Z b)).
Proof.
  assert (B : forall t, (0 <= t <= 200 -> 0 <= t < 2 ^ 53)%Z)
    by (intros t Ht; change (2 ^ 53)%Z with 9007199254740992%Z; lia).
  induction ms as [|m ms IH]; intros H; [now left|].
  assert (IH2 := IH (fun m2 H2 => H m2 (or_intror H2))).
  destruct (H m (or_introl eq_refl)) as (d1 & d2 & Eg & G1 & G2).
  destruct (digits_group_value G1) as [E1 P1].
  destruct (digits_group_value G2) as [E2 P2].
  cbn [Browser.scan_pairs m_get]. rewrite Eg. cbn [nth].
  rewrite E1, E2. cbn [to_number].
  rewrite !of_Z_gtb, of_Z_ltb by (trivial; apply B; lia).
  destruct (200 <? digits_val d1)%Z eqn:A1; [exact IH2|].
  destruct (200 <? digits_val d2)%Z eqn:A2; [exact IH2|].
  cbn [orb].
  destruct ((25 <? digits_val d1)%Z && (digits_val d2 <? 5)%Z) eqn:A3;
    [exact IH2|].
  right. exists (digits_val d1), (digits_val d2). split; [|reflexivity].
  apply Z.ltb_ge in A1, A2. apply andb_false_iff in A3.
  repeat split; trivial.
  intros [X Y]. apply Z.ltb_lt in X, Y. destruct A3; congruence.
Qed.

Lemma getTwoIntsAfter_counts (norm label : jsstring) :
  Browser.getTwoIntsAfter norm label = (None, None)
  \/ exists a b : Z,
       (0 <= a <= 200 /\ 0 <= b <= 200 /\ ~ (25 < a /\ b < 5))%Z
       /\ Browser.getTwoIntsAfter norm label = (Some (of_Z a), Some (of_Z b)).
Proof.
  rewrite getTwoIntsAfter_window.
  destruct (window 180 norm label) as [after|]; [|now left].
  apply scan_pairs_counts. intros m Hm. apply matches_from_In in Hm.
  destruct Hm as (pos2 & s2 & res & Hres & ->).
  exact (re_pair_groups _ _ Hres).
Qed.

Lemma getTwoIntsAfter_snd (norm label : jsstring) :
  count_upto 200 (snd (Browser.getTwoIntsAfter norm label)).
Proof.
  destruct (getTwoIntsAfter_counts norm label)
    as [->|(a & b & (_ & Hb & _) & ->)]; [now left|].
  right. now exists b.
Qed.

Lemma count_upto_fallback (n : Z) (a b : option number) :
  count_upto n a -> count_upto n b ->
  count_upto n (if is_null a then b else a).
Proof. intros Ha Hb. destruct a; [exact Ha|exact Hb]. Qed.

Lemma count_upto_natural (n : Z) (a : option number) :
  count_upto n a -> natural a.
Proof.
  intros [->|(z & Hz & ->)]; [now left|]. right. exists z. split; [lia|trivial].
Qed.

Lemma getOneIntAfter_natural (norm label : jsstring) :
  natural (Browser.getOneIntAfter norm label).
Proof.
  unfold Browser.getOneIntAfter.
  destruct (indexOf label norm) as [idx|]; [|now left].
  destruct (match_first _ _) as [m|] eqn:E; [|now left].
  apply search_from_some in E. destruct E as (pos2 & s2 & res & Hres & ->).
  rewrite match_here_plus in Hres.
  destruct (run_length Digit None s2) as [|n] eqn:En; [discriminate|].
  cbn [Nat.eqb] in Hres. injection Hres as <-.
  cbn [m_get mk_match m_text fst].
  replace (pos2 + S n - pos2)%nat with (S n) by lia.
  destruct (@firstn_run_length Digit (S n) None s2) as [F1 F2]; [lia|].
  destruct (@digits_group_value (firstn (S n) s2)) as [E P].
  { split; [|exact F1]. intros E. rewrite E in F2. discriminate F2. }
  rewrite E. right. eexists. split; [exact P|reflexivity].
Qed.

Lemma natural_coalesce (a b : option number) :
  natural a -> natural b -> natural (coalesce a b).
Proof. intros Ha Hb. destruct a; [exact Ha|exact Hb]. Qed.

(** The fields of the result, one by one. *)
Lemma parsePdfText_categories_eq (text : jsstring) :
  let norm := normalise text in
  let two l := snd (Browser.getTwoIntsAfter norm l) in
  let r := Browser.parsePdfText text in
  menaces r = two (js "Menaces ou chantages")
  /\ volsSimp r = two (js "Vols simples (41")
  /\ roulotte r =
     (if is_null (two (js "Vols à la roulotte"))
      then two (js "roulotte et d'accessoires") else two (js "Vols à la roulotte"))
  /\ destrucVeh r =
     (if is_null (two (js "Destructions et dégradations de véhicules privés"))
      then two (js "véhicules privés (68)")
      else two (js "Destructions et dégradations de véhicules privés"))
  /\ incendies r = two (js "Incendies volontaires de biens")
  /\ stupef r =
     (if is_null (two (js "stupéfiants constatées"))
      then two (js "législation sur les stupéfiants")
      else two (js "stupéfiants constatées"))
  /\ autorite r =
     (if is_null (two (js "Atteintes à l'autorité"))
      then two (js "autorité (72, 73)") else two (js "Atteintes à l'autorité"))
  /\ cbv r =
     coalesce (two (js "Coups et blessures volontaires"))
       (Browser.getOneIntAfter norm (js "Coups et blessures"))
  /\ cambRes r =
     coalesce (two (js "Cambriolages de résidences"))
       (Browser.getOneIntAfter norm (js "Cambriolages de résidences"))
  /\ cambPro r =
     coalesce (cambPro_lookups norm)
       (Browser.getOneIntAfter norm (js "Cambriolages de locaux")).
Proof.
  cbv zeta. unfold Browser.parsePdfText, cambPro_lookups, normalise.
  cbv zeta.
  repeat match goal with
         | |- context [match ?X with pair _ _ => _ end] => destruct X
         end.
  repeat split.
Qed.

(** X8. In the result of the extraction, the seven categories read from a
    pair only are [null] or an integer of 0..200; the three categories with
    a single-figure fallback are [null] or a natural number. The server copy
    returns the same whenever it returns. *)
Theorem parsePdfText_categories (text : jsstring) (r : RawIndicatorSet) :
  Browser.parsePdfText text = r \/ Server.parsePdfText text = Return r ->
  (count_upto 200 (menaces r) /\ count_upto 200 (volsSimp r)
   /\ count_upto 200 (roulotte r) /\ count_upto 200 (destrucVeh r)
   /\ count_upto 200 (incendies r) /\ count_upto 200 (stupef r)
   /\ count_upto 200 (autorite r))
  /\ natural (cbv r) /\ natural (cambRes r) /\ natural (cambPro r).
Proof.
  intros H.
  assert (E : Browser.parsePdfText text = r)
    by (destruct H as [H|H]; [exact H|now apply Server_returns_as_Browser]).
  subst r.
  destruct (parsePdfText_categories_eq text)
    as (-> & -> & -> & -> & -> & -> & -> & -> & -> & ->).
  repeat split;
    repeat first
      [ apply getTwoIntsAfter_snd
      | apply count_upto_fallback
      | apply natural_coalesce
      | apply getOneIntAfter_natural
      | apply (@count_upto_natural 200) ].
Qed.

Lemma parsePdfText_categories_witness :
  count_upto 200
    (menaces
       (Browser.parsePdfText
          (js "Cambriolages de locaux 3 4 + Menaces ou chantages 7 9 -"))).
Proof.
  apply (@parsePdfText_categories
           (js "Cambriolages de locaux 3 4 + Menaces ou chantages 7 9 -")
           (Browser.parsePdfText
              (js "Cambriolages de locaux 3 4 + Menaces ou chantages 7 9 -"))).
  right. vm_compute. reflexivity.
Defined.

(** The group of a pattern with one group, around repetitions. *)
Lemma match_first_group (pre body post : regex) (s : jsstring) (m : rmatch) :
  forallb (fun n => match n with Rep _ _ _ _ => true | _ => false end)
    (pre ++ body ++ post) = true ->
  match_first (pre ++ GOpen :: body ++ GClose :: post) s = Some m ->
  accepts body (m_get m 1).
Proof.
  rewrite !forallb_app. intros Hb H.
  apply andb_true_iff in Hb. destruct Hb as [Hpre Hb].
  apply andb_true_iff in Hb. destruct Hb as [Hbody Hpost].
  apply search_from_some in H. destruct H as (pos2 & s2 & res & H & ->).
  apply match_here_reps in H; [|exact Hpre].
  destruct H as (w0 & s3 & _ & _ & H).
  apply match_here_group in H; [|exact Hbody].
  destruct H as (w & s4 & _ & Hw & H).
  rewrite <- (app_nil_r post) in H.
  apply match_here_reps in H; [|exact Hpost].
  destruct H as (w1 & s5 & _ & _ & H).
  cbn [match_here captured mstate0 app] in H. injection H as <-.
  exact Hw.
Qed.

(** The matches of [\d+] are the runs of digits. *)
Lemma match_all_digits (s : jsstring) (m : rmatch) :
  In m (match_all [plus Digit] s) -> digits_group (m_text m).
Proof.
  intros Hm. apply matches_from_In in Hm.
  destruct Hm as (pos2 & s2 & res & Hres & ->).
  rewrite match_here_plus in Hres.
  destruct (run_length Digit None s2) as [|k] eqn:En; [discriminate|].
  cbn [Nat.eqb] in Hres. injection Hres as <-.
  cbn [mk_match m_text fst].
  replace (pos2 + S k - pos2)%nat with (S k) by lia.
  destruct (@firstn_run_length Digit (S k) None s2) as [F1 F2]; [lia|].
  split; [|exact F1]. intros E. rewrite E in F2. discriminate F2.
Qed.

Lemma cumul_group_value (w : jsstring) :
  accepts [times Digit 2 4] w ->
  exists z, (0 <= z <= 9999)%Z /\ Browser.parseIntStrict w = Some (of_Z z).
Proof.
  intros H. apply accepts_digits in H. destruct H as [D L].
  exists (digits_val w). split.
  - pose proof (digits_val_bound _ D) as B.
    assert (10 ^ Z.of_nat (List.length w) <= 10 ^ 4)%Z
      by (apply Z.pow_le_mono_r; lia).
    change (10 ^ 4)%Z with 10000%Z in *. lia.
  - apply parseIntStrict_digits; [|exact D].
    intros E. rewrite E in L. cbn in L. lia.
Qed.

Lemma population_group_value (w : jsstring) :
  accepts [one Digit; star (Union Digit Space)] w ->
  exists z, (0 <= z)%Z /\ Browser.normalizeNum w = Some (of_Z z).
Proof.
  cbn [accepts one star].
  intros (w1 & w2 & -> & D1 & L1 & _ & w3 & w4 & -> & D2 & _ & _ & ->).
  rewrite app_nil_r.
  destruct w1 as [|d w1]; [cbn in L1; lia|].
  cbn [forallb] in D1. apply andb_true_iff in D1. destruct D1 as [Dd D1].
  change (mem Digit d) with (is_digit d) in Dd.
  assert (H : forallb (fun c => is_digit c || is_space c)
                ((d :: w1) ++ w3) = true).
  { rewrite forallb_app. apply andb_true_iff. split.
    - cbn [forallb]. rewrite Dd. cbn [orb andb].
      apply forallb_forall. intros x Hx. rewrite forallb_forall in D1.
      specialize (D1 x Hx). change (mem Digit x) with (is_digit x) in D1.
      now rewrite D1.
    - apply forallb_forall. intros x Hx. rewrite forallb_forall in D2.
      specialize (D2 x Hx). cbn [mem] in D2.
      exact D2. }
  destruct (normalizeNum_digits_blanks _ H) as [E1 E2].
  rewrite E1, E2. cbn [app filter]. rewrite Dd.
  eexists. split; [|reflexivity].
  apply digits_val_bound. cbn [forallb]. rewrite Dd. cbn [andb].
  apply forallb_forall. intros x Hx. apply filter_In in Hx. apply Hx.
Qed.

Lemma re_population_shape :
  re_population =
  (lit_i "Population"
   ++ [ star Space; opt (Chr (chr "*")); star Space; opt (Chr (chr ":"));
        star Space ])
  ++ GOpen :: [one Digit; star (Union Digit Space)]
  ++ GClose :: ([star Space] ++ lit_i "habitants").
Proof. reflexivity. Qed.

Lemma re_fait_i_shape :
  re_fait_i =
  (lit_i "fait"
   ++ [ star Space; one (Chr (chr "(")); star Space; one (ChrI (chr "s"));
        star Space; one (Chr (chr ")")); star Space; one (Chr (chr ")"));
        star Space ])
  ++ GOpen :: [times Digit 2 4] ++ GClose :: [].
Proof. reflexivity. Qed.

Lemma re_fait_shape :
  re_fait =
  (lit "fait(s))" ++ [star Space]) ++ GOpen :: [times Digit 2 4]
  ++ GClose :: [].
Proof. reflexivity. Qed.

Lemma re_cumul_shape :
  re_cumul =
  (lit_i "Cumul" ++ [star Space] ++ lit "20" ++ [times Digit 2 2; star Space])
  ++ GOpen :: [times Digit 2 4] ++ GClose :: [].
Proof. reflexivity. Qed.

Lemma cumul_match_value (rx : regex) (pre : regex) (s : jsstring) (m : rmatch) :
  rx = pre ++ GOpen :: [times Digit 2 4] ++ GClose :: [] ->
  forallb (fun n => match n with Rep _ _ _ _ => true | _ => false end) pre
    = true ->
  match_first rx s = Some m ->
  exists z, (0 <= z <= 9999)%Z
            /\ Browser.parseIntStrict (m_get m 1) = Some (of_Z z).
Proof.
  intros -> Hp H. apply cumul_group_value.
  apply (@match_first_group pre [times Digit 2 4] [] s m); [|exact H].
  rewrite !forallb_app, Hp. reflexivity.
Qed.

Lemma Browser_parsePdfText_figures (text : jsstring) :
  let r := Browser.parsePdfText text in
  natural (population r)
  /\ natural (faitsN1 r) /\ natural (faitsN r)
  /\ (faitsN1 r = None <-> faitsN r = None)
  /\ count_upto 9999 (cumul r).
Proof.
  cbv zeta.
  unfold Browser.parsePdfText. cbv zeta. fold (normalise text).
  set (norm := normalise text).
  assert (P : natural (match match_first re_population norm with
                       | Some m => Browser.normalizeNum (m_get m 1)
                       | None => None
                       end)).
  { destruct (match_first re_population norm) as [m|] eqn:E; [|now left].
    rewrite re_population_shape in E.
    apply match_first_group in E; [|reflexivity].
    destruct (population_group_value E) as (z & Hz & ->).
    right. now exists z. }
  assert (C : count_upto 9999
                (match match_first re_cumul norm with
                 | Some m => Browser.parseIntStrict (m_get m 1)
                 | None => None
                 end)).
  { destruct (match_first re_cumul norm) as [m|] eqn:E; [|now left].
    destruct (@cumul_match_value _ _ _ _ re_cumul_shape eq_refl E) as (z & Hz & ->).
    right. now exists z. }
  destruct (indexOf (js "Nombre de faits constatés") norm) as [idx|].
  2:{ cbn [population faitsN1 faitsN cumul]. repeat split; trivial;
      now left. }
  set (block := slice idx (idx + 280) norm).
  set (nums := map m_text (match_all [plus Digit] block)).
  assert (C2 : count_upto 9999
                 match
                   match match_first re_fait_i block with
                   | Some m => Some m
                   | None => match_first re_fait block
                   end
                 with
                 | Some m => Browser.parseIntStrict (m_get m 1)
                 | None => None
                 end).
  { destruct (match_first re_fait_i block) as [m|] eqn:E1.
    - destruct (@cumul_match_value _ _ _ _ re_fait_i_shape eq_refl E1)
        as (z & Hz & ->).
      right. now exists z.
    - destruct (match_first re_fait block) as [m|] eqn:E2; [|now left].
      destruct (@cumul_match_value _ _ _ _ re_fait_shape eq_refl E2)
        as (z & Hz & ->).
      right. now exists z. }
  assert (O : forall x y : option number,
              count_upto 9999 x -> count_upto 9999 y ->
              count_upto 9999 match x with Some _ => x | None => y end)
    by (intros [v|] y Hx Hy; trivial).
  assert (N : forall i, (i < List.length nums)%nat ->
              exists z, (0 <= z)%Z
                /\ Browser.parseIntStrict (nth i nums []) = Some (of_Z z)).
  { intros i Hi. pose proof (nth_In nums [] Hi) as Hin.
    apply in_map_iff in Hin. destruct Hin as (m & Em & Hm).
    apply match_all_digits in Hm. rewrite Em in Hm.
    destruct (digits_group_value Hm) as [E Pz]. rewrite E.
    eexists. split; [exact Pz|reflexivity]. }
  destruct (2 <=? List.length nums)%nat eqn:E2.
  - apply Nat.leb_le in E2.
    destruct (N 0%nat) as (z0 & H0 & E0); [lia|].
    destruct (N 1%nat) as (z1 & H1 & E1); [lia|].
    rewrite E0, E1. cbn [population faitsN1 faitsN cumul].
    repeat split; trivial; try discriminate.
    + right. now exists z0.
    + right. now exists z1.
    + now apply O.
  - cbn [population faitsN1 faitsN cumul].
    repeat split; trivial; try (now left). now apply O.
Qed.

(** The matches of [\d+] with the [g] flag are the runs of digits. *)
Lemma matches_from_0 (rx : regex) (pos : nat) (s : jsstring) :
  matches_from rx pos s 0 =
  match match_here rx pos s mstate0 with
  | Some res =>
      mk_match pos s res ::
      match s with
      | [] => []
      | _ :: s' => matches_from rx (S pos) s' (fst res - pos - 1)
      end
  | None =>
      match s with
      | [] => []
      | _ :: s' => matches_from rx (S pos) s' 0
      end
  end.
Proof. destruct s; reflexivity. Qed.

Lemma digit_runs_from_run (s : jsstring) :
  forall cur, cur <> [] ->
  digit_runs_from cur s
  = (cur ++ firstn (run_length Digit None s) s)
    :: digit_runs_from [] (skipn (run_length Digit None s) s).
Proof.
  induction s as [|c s IH]; intros cur Hc.
  - cbn [digit_runs_from run_length firstn skipn]. rewrite app_nil_r.
    destruct cur; [congruence|reflexivity].
  - cbn [digit_runs_from run_length option_map].
    change (mem Digit c) with (is_digit c).
    destruct (is_digit c) eqn:E.
    + cbn [firstn skipn]. rewrite IH by (destruct cur; discriminate).
      now rewrite <- app_assoc.
    + cbn [firstn skipn digit_runs_from]. rewrite app_nil_r, E.
      destruct cur; [congruence|reflexivity].
Qed.

Lemma match_all_digit_runs (s : jsstring) :
  (forall pos,
     map m_text (matches_from [plus Digit] pos s 0) = digit_runs s)
  /\ (forall pos,
        map m_text
          (matches_from [plus Digit] pos s (run_length Digit None s))
        = digit_runs (skipn (run_length Digit None s) s)).
Proof.
  induction s as [|c s [IHa IHb]].
  - split; intros pos; reflexivity.
  - assert (A : forall pos,
               map m_text (matches_from [plus Digit] pos (c :: s) 0)
               = digit_runs (c :: s)).
    { intros pos. rewrite matches_from_0, match_here_plus.
      unfold digit_runs.
      cbn [run_length option_map digit_runs_from app].
      change (mem Digit c) with (is_digit c).
      destruct (is_digit c).
      - cbn [Nat.eqb fst map mk_match m_text].
        replace (pos + S (run_length Digit None s) - pos - 1)%nat
          with (run_length Digit None s) by lia.
        replace (pos + S (run_length Digit None s) - pos)%nat
          with (S (run_length Digit None s)) by lia.
        rewrite IHb, digit_runs_from_run by discriminate.
        reflexivity.
      - cbn [Nat.eqb]. apply IHa. }
    split; [exact A|]. intros pos.
    specialize (A pos). revert A.
    cbn [run_length option_map]. change (mem Digit c) with (is_digit c).
    destruct (is_digit c); intros A.
    + change (matches_from [plus Digit] pos (c :: s)
                (S (run_length Digit None s)))
        with (matches_from [plus Digit] (S pos) s (run_length Digit None s)).
      cbn [skipn]. apply IHb.
    + exact A.
Qed.

Lemma digit_runs_groups (s d : jsstring) :
  In d (digit_runs s) -> digits_group d.
Proof.
  rewrite <- (proj1 (match_all_digit_runs s) 0%nat). intros H.
  apply in_map_iff in H. destruct H as (m & <- & Hm).
  exact (@match_all_digits s m Hm).
Qed.

(** The group of the population pattern: digits and white space, led by a
    digit; its value is the integer its digits write. *)
Lemma population_group_exact (w : jsstring) :
  accepts [one Digit; star (Union Digit Space)] w ->
  forallb (fun c => is_digit c || is_space c) w = true
  /\ digits_group (filter is_digit w)
  /\ Browser.normalizeNum w = Some (of_Z (digits_val (filter is_digit w))).
Proof.
  cbn [accepts one star].
  intros (w1 & w2 & -> & D1 & L1 & _ & w3 & w4 & -> & D2 & _ & _ & ->).
  rewrite app_nil_r.
  destruct w1 as [|d w1]; [cbn in L1; lia|].
  cbn [forallb] in D1. apply andb_true_iff in D1. destruct D1 as [Dd D1].
  change (mem Digit d) with (is_digit d) in Dd.
  assert (H : forallb (fun c => is_digit c || is_space c)
                ((d :: w1) ++ w3) = true).
  { rewrite forallb_app. apply andb_true_iff. split.
    - cbn [forallb]. rewrite Dd. cbn [orb andb].
      apply forallb_forall. intros x Hx. rewrite forallb_forall in D1.
      specialize (D1 x Hx). change (mem Digit x) with (is_digit x) in D1.
      now rewrite D1.
    - apply forallb_forall. intros x Hx. rewrite forallb_forall in D2.
      specialize (D2 x Hx). cbn [mem] in D2.
      exact D2. }
  destruct (normalizeNum_digits_blanks _ H) as [E1 E2].
  split; [exact H|]. rewrite E1, E2. cbn [app filter]. rewrite Dd.
  split; [|reflexivity]. split; [discriminate|].
  cbn [forallb]. rewrite Dd. cbn [andb].
  apply forallb_forall. intros x Hx. apply filter_In in Hx. apply Hx.
Qed.

Lemma Browser_parsePdfText_population (text : jsstring) :
  match match_first re_population (normalise text) with
  | Some m =>
      forallb (fun c => is_digit c || is_space c) (m_get m 1) = true
      /\ digits_group (filter is_digit (m_get m 1))
      /\ population (Browser.parsePdfText text)
         = Some (of_Z (digits_val (filter is_digit (m_get m 1))))
  | None => population (Browser.parsePdfText text) = None
  end.
Proof.
  unfold Browser.parsePdfText. cbv zeta. fold (normalise text).
  repeat match goal with
         | |- context [match ?X with pair _ _ => _ end] => destruct X
         end.
  cbn [population].
  destruct (match_first re_population (normalise text)) as [m|] eqn:E;
    [|reflexivity].
  rewrite re_population_shape in E.
  apply match_first_group in E; [|reflexivity].
  exact (population_group_exact E).
Qed.

Lemma Browser_parsePdfText_faits (text : jsstring) :
  match indexOf (js "Nombre de faits constatés") (normalise text) with
  | Some idx =>
      match digit_runs (slice idx (idx + 280) (normalise text)) with
      | a :: b :: _ =>
          faitsN1 (Browser.parsePdfText text) = Some (of_Z (digits_val a))
          /\ faitsN (Browser.parsePdfText text) = Some (of_Z (digits_val b))
      | _ =>
          faitsN1 (Browser.parsePdfText text) = None
          /\ faitsN (Browser.parsePdfText text) = None
      end
  | None =>
      faitsN1 (Browser.parsePdfText text) = None
      /\ faitsN (Browser.parsePdfText text) = None
  end.
Proof.
  unfold Browser.parsePdfText. cbv zeta. fold (normalise text).
  destruct (indexOf (js "Nombre de faits constatés") (normalise text))
    as [idx|]; [|now split].
  unfold match_all. rewrite (proj1 (match_all_digit_runs _)).
  pose proof (@digit_runs_groups (slice idx (idx + 280) (normalise text)))
    as G.
  destruct (digit_runs (slice idx (idx + 280) (normalise text)))
    as [|a [|b l]]; [now split|now split|].
  cbn [List.length Nat.leb nth].
  destruct (digits_group_value (G a (or_introl eq_refl))) as [Ea _].
  destruct (digits_group_value (G b (or_intror (or_introl eq_refl))))
    as [Eb _].
  rewrite Ea, Eb. now split.
Qed.

(** X9. In the result of the extraction, the population is [null] when its
    pattern matches nowhere in the normalised text, and otherwise the number
    of the integer written by the digits of the matched group, which holds
    digits and white space only and starts with a digit. The two numbers of
    facts are the values of the first two runs of digits of the block of 280
    characters that starts at the label, and both [null] when the label is
    absent or the block holds fewer than two runs. The cumulated number is
    [null] or an integer of 0..9999. The server copy returns the same
    whenever it returns. *)
Theorem parsePdfText_figures (text : jsstring) (r : RawIndicatorSet) :
  Browser.parsePdfText text = r \/ Server.parsePdfText text = Return r ->
  match match_first re_population (normalise text) with
  | Some m =>
      forallb (fun c => is_digit c || is_space c) (m_get m 1) = true
      /\ digits_group (filter is_digit (m_get m 1))
      /\ population r
         = Some (of_Z (digits_val (filter is_digit (m_get m 1))))
  | None => population r = None
  end
  /\ match indexOf (js "Nombre de faits constatés") (normalise text) with
     | Some idx =>
         match digit_runs (slice idx (idx + 280) (normalise text)) with
         | a :: b :: _ =>
             faitsN1 r = Some (of_Z (digits_val a))
             /\ faitsN r = Some (of_Z (digits_val b))
         | _ => faitsN1 r = None /\ faitsN r = None
         end
     | None => faitsN1 r = None /\ faitsN r = None
     end
  /\ (faitsN1 r = None <-> faitsN r = None)
  /\ count_upto 9999 (cumul r).
Proof.
  intros H.
  assert (E : Browser.parsePdfText text = r)
    by (destruct H as [H|H]; [exact H|now apply Server_returns_as_Browser]).
  subst r.
  destruct (Browser_parsePdfText_figures text) as (_ & _ & _ & I & C).
  split; [apply Browser_parsePdfText_population|].
  split; [apply Browser_parsePdfText_faits|]. now split.
Qed.

Lemma parsePdfText_figures_witness :
  (forallb (fun c => is_digit c || is_space c) (js "3 456 ") = true
   /\ digits_group (js "3456")
   /\ population
        (Browser.parsePdfText
           (js "Population : 3 456 habitants Nombre de faits constatés 12 15 Cumul 2024 87"))
      = Some (of_Z 3456))
  /\ (faitsN1
        (Browser.parsePdfText
           (js "Population : 3 456 habitants Nombre de faits constatés 12 15 Cumul 2024 87"))
      = Some (of_Z 12)
      /\ faitsN
           (Browser.parsePdfText
              (js "Population : 3 456 habitants Nombre de faits constatés 12 15 Cumul 2024 87"))
         = Some (of_Z 15))
  /\ (faitsN1
        (Browser.parsePdfText
           (js "Population : 3 456 habitants Nombre de faits constatés 12 15 Cumul 2024 87"))
      = None
      <-> faitsN
            (Browser.parsePdfText
               (js "Population : 3 456 habitants Nombre de faits constatés 12 15 Cumul 2024 87"))
          = None)
  /\ count_upto 9999
       (cumul
          (Browser.parsePdfText
             (js "Population : 3 456 habitants Nombre de faits constatés 12 15 Cumul 2024 87"))).
Proof.
  apply (@parsePdfText_figures
           (js "Population : 3 456 habitants Nombre de faits constatés 12 15 Cumul 2024 87")
           (Browser.parsePdfText
              (js "Population : 3 456 habitants Nombre de faits constatés 12 15 Cumul 2024 87"))).
  left. reflexivity.
Defined.

(* ================================================================== *)
(** ** The browser importer                                            *)
(* ================================================================== *)

Section ImporterFacts.
Context {U : Unicode}.
Variable File : Type.
Variable name : File -> jsstring.
Variable pages_of : File -> awaited (list (list jsstring)).
Variable Number_toString : number -> jsstring.

Lemma resolve_cases (communeRaw moisStr anneeStr : jsstring) :
  (exists e, resolve communeRaw moisStr anneeStr = Erreur e /\ e <> [])
  \/ (exists p, resolve communeRaw moisStr anneeStr = Parsed p
                /\ truthy (mois p) = true).
Proof.
  unfold resolve. cbv zeta.
  destruct (truthy _) eqn:E; cbn [negb].
  - right. eexists. split; [reflexivity|exact E].
  - left. eexists. split; [reflexivity|].
    change (js "Mois ") with (77%N :: js "ois "). discriminate.
Qed.

(** An error of the filename parser carries a message; a parsed name
    carries a truthy month. *)
Lemma parseFilename_cases (filename : jsstring) :
  (exists e, parseFilename filename = Erreur e /\ e <> [])
  \/ (exists p, parseFilename filename = Parsed p /\ truthy (mois p) = true).
Proof.
  unfold parseFilename. cbv zeta.
  destruct (match_first reA _) as [mA|]; [apply resolve_cases|].
  destruct (match_first reB _) as [mB|]; [apply resolve_cases|].
  left. eexists. split; [reflexivity|].
  intros H. apply (f_equal (@List.length _)) in H. rewrite length_app in H.
  assert (L : List.length (js "Format de nom de fichier non reconnu : ")
              = 39%nat) by (vm_compute; reflexivity).
  rewrite L in H. discriminate H.
Qed.

Lemma SFeqb_refl (x : number) : isNaN x = false -> SFeqb x x = true.
Proof.
  unfold SFeqb. destruct x as [s|s| |s m e]; cbn [SFcompare isNaN];
    try discriminate; try (destruct s; reflexivity).
  intros _. rewrite Z.compare_refl, Pos.compare_cont_refl.
  now destruct s.
Qed.

Lemma strict_eq_refl (v : value) : truthy v = true -> strict_eq v v = true.
Proof.
  destruct v as [|x|k]; cbn [truthy strict_eq]; [discriminate| |].
  - intros H. apply SFeqb_refl. now destruct x.
  - intros _. now apply jsstring_eqb_eq.
Qed.

Lemma parsed_year_not_NaN (filename : jsstring) (p : ParsedFilename) :
  parseFilename filename = Parsed p -> isNaN (annee p) = false.
Proof.
  intros H. destruct (parseFilename_parsed _ H) as (c & m & y & _ & _ & Hy & R).
  apply accepts_digits in Hy. destruct Hy as [Hd Hl].
  apply resolve_fields in R. destruct R as [-> _].
  rewrite parseInt10_digits; [apply of_Z_not_NaN| |exact Hd].
  destruct y; [cbn in Hl; lia|discriminate].
Qed.

Lemma message_or_truthy (message : option jsstring) (fallback : jsstring) :
  fallback <> [] -> message_or message fallback <> [].
Proof. destruct message as [[|c m]|]; cbn [message_or]; trivial; discriminate. Qed.

(** What the importer yields for a file. *)
Lemma parsePdfInBrowser_cases (file : File) :
  let filename := match name file with [] => js "document.pdf" | n => n end in
  (exists e, parsePdfInBrowser name pages_of file = Failed filename e
             /\ e <> [])
  \/ (exists d, parsePdfInBrowser name pages_of file = Imported d
                /\ Pdf.fichierSource d = filename
                /\ same_month d (Imported d) = true).
Proof.
  intros filename. unfold parsePdfInBrowser. fold filename.
  destruct (parseFilename_cases filename) as [(e & -> & He)|(p & Ep & Hp)].
  - left. now exists e.
  - rewrite Ep. unfold extractTextFromPdf.
    destruct (pages_of file) as [pages|message].
    + right. eexists. split; [reflexivity|]. split; [reflexivity|].
      cbn [same_month Pdf.communeKey Pdf.mois Pdf.annee].
      rewrite (@strict_eq_refl _ Hp), (@SFeqb_refl _ (@parsed_year_not_NaN _ _ Ep)).
      rewrite !andb_true_r. now apply jsstring_eqb_eq.
    + left. eexists. split; [reflexivity|].
      apply message_or_truthy. intros H.
      apply (f_equal (@List.length _)) in H. vm_compute in H. discriminate H.
Qed.

Lemma months_distinct_snoc (l : list import_result) (e : import_result) :
  months_distinct l ->
  (forall d, e = Imported d -> existsb (same_month d) l = false) ->
  months_distinct (l ++ [e]).
Proof.
  intros H He l1 d l2 E.
  destruct l2 as [|y l2].
  - apply app_inj_tail in E. destruct E as [E1 E2]. subst l1.
    now apply He.
  - destruct (@exists_last _ (y :: l2)) as (l4 & z & E4); [discriminate|].
    rewrite E4 in E.
    change (l1 ++ Imported d :: l4 ++ [z])
      with (l1 ++ (Imported d :: l4) ++ [z]) in E.
    rewrite app_assoc in E. apply app_inj_tail in E. destruct E as [E _].
    exact (H _ _ _ E).
Qed.

Lemma months_distinct_delete (a b : list import_result) (x : import_result) :
  months_distinct (a ++ x :: b) -> months_distinct (a ++ b).
Proof.
  intros H l1 d l2 E. apply app_eq_app in E.
  destruct E as (m & [[Ea Eb]|[El Eb]]).
  - destruct m as [|y m].
    + rewrite app_nil_r in Ea. subst a. cbn [app] in Eb. subst b.
      assert (G := H (l1 ++ [x]) d l2). rewrite <- app_assoc in G.
      specialize (G eq_refl).
      rewrite existsb_app in G. apply orb_false_iff in G. apply G.
    + cbn [app] in Eb. injection Eb as <- ->. subst a.
      apply (H l1 d (m ++ x :: b)). now rewrite <- app_assoc.
  - subst l1 b.
    assert (G := H (a ++ x :: m) d l2). rewrite <- app_assoc in G.
    specialize (G eq_refl). rewrite existsb_app in G.
    apply orb_false_iff in G. destruct G as [G1 G2].
    cbn [existsb] in G2. apply orb_false_iff in G2.
    rewrite existsb_app, G1. apply G2.
Qed.

Lemma remove_split (idx : nat) :
  forall l, remove idx l = l
            \/ exists a x b, l = a ++ x :: b /\ remove idx l = a ++ b.
Proof.
  induction idx as [|i IH]; intros [|f l]; cbn [remove]; try (now left).
  - right. now exists [], f, l.
  - destruct (IH l) as [->|(a & x & b & -> & ->)]; [now left|].
    right. now exists (f :: a), x, b.
Qed.

(** The loop appends one entry per file, named after it, and keeps the
    months distinct. *)
Lemma import_loop_spec (parsedFiles : list import_result)
  (pdfFiles : list File) :
  Forall (fun f => name f <> []) pdfFiles ->
  forall newEntries,
  exists news,
    import_loop name pages_of Number_toString parsedFiles newEntries pdfFiles
    = newEntries ++ news
    /\ map source_of news = map name pdfFiles
    /\ (months_distinct (parsedFiles ++ newEntries) ->
        months_distinct (parsedFiles ++ newEntries ++ news)).
Proof.
  induction pdfFiles as [|file rest IH]; intros Hn newEntries.
  - exists []. rewrite app_nil_r. now repeat split.
  - inversion Hn as [|? ? Hf Hr]; subst. cbn [import_loop].
    assert (E : forall e,
              source_of e = name file ->
              (months_distinct (parsedFiles ++ newEntries) ->
               months_distinct (parsedFiles ++ newEntries ++ [e])) ->
              exists news,
                import_loop name pages_of Number_toString parsedFiles
                  (newEntries ++ [e]) rest = newEntries ++ news
                /\ map source_of news = map name (file :: rest)
                /\ (months_distinct (parsedFiles ++ newEntries) ->
                    months_distinct (parsedFiles ++ newEntries ++ news))).
    { intros e He Hd.
      destruct (IH Hr (newEntries ++ [e])) as (news & E1 & E2 & E3).
      exists (e :: news). rewrite E1, <- app_assoc. cbn [app map].
      rewrite He, E2. repeat split. intros D.
      specialize (E3 (Hd D)). now rewrite <- app_assoc in E3. }
    destruct (parsePdfInBrowser_cases file)
      as [(e & -> & He)|(d & -> & Hs & _)].
    + apply E; [reflexivity|]. intros D. rewrite app_assoc.
      apply months_distinct_snoc; [exact D|discriminate].
    + destruct (existsb (same_month d) parsedFiles
                || existsb (same_month d) newEntries) eqn:Ed.
      * apply E; [reflexivity|]. intros D. rewrite app_assoc.
        apply months_distinct_snoc; [exact D|discriminate].
      * apply E.
        -- cbn [source_of]. rewrite Hs. now destruct (name file).
        -- intros D. rewrite app_assoc.
           apply months_distinct_snoc; [exact D|].
           intros d2 Ed2. injection Ed2 as <-. now rewrite existsb_app.
Qed.

Lemma pdf_named (n : jsstring) :
  endsWith (js ".pdf") (toLowerCase n) = true -> n <> [].
Proof.
  intros H ->. rewrite (toLowerCase_ascii []) in H by reflexivity.
  discriminate H.
Qed.

Lemma pdfFiles_named (files : list File) :
  Forall (fun f => name f <> [])
    (filter (fun f => endsWith (js ".pdf") (toLowerCase (name f))) files).
Proof.
  apply Forall_forall. intros f Hf. apply filter_In in Hf.
  now apply pdf_named.
Qed.

(** X10. Importing a batch appends to the list exactly one entry for each
    file whose lower-cased name ends in [.pdf], in the order of the files
    and carrying the name of its file; the other files are ignored. *)
Theorem processFiles_entries (parsedFiles prev : list import_result)
  (files : list File) :
  exists news,
    processFiles name pages_of Number_toString parsedFiles prev files
    = prev ++ news
    /\ map source_of news
       = map name
           (filter (fun f => endsWith (js ".pdf") (toLowerCase (name f)))
              files).
Proof.
  unfold processFiles. cbv zeta.
  pose proof (pdfFiles_named files) as Hn.
  destruct (filter _ files) as [|f pdfFiles] eqn:Ef.
  - exists []. now rewrite app_nil_r.
  - destruct (import_loop_spec parsedFiles Hn []) as (news & E1 & E2 & _).
    exists news. now rewrite E1.
Qed.

(** X11. When no other update came in between (the list closed over is the
    list updated), importing a batch keeps the months distinct: the list
    never holds two records with the same commune key, month and year.
    Removing an entry keeps them distinct too. *)
Theorem processFiles_months_distinct (parsedFiles : list import_result)
  (files : list File) :
  months_distinct parsedFiles ->
  months_distinct
    (processFiles name pages_of Number_toString parsedFiles parsedFiles files)
  /\ forall idx, months_distinct (remove idx parsedFiles).
Proof.
  intros D. split.
  - unfold processFiles. cbv zeta.
    pose proof (pdfFiles_named files) as Hn.
    destruct (filter _ files) as [|f pdfFiles] eqn:Ef; [exact D|].
    destruct (import_loop_spec parsedFiles Hn []) as (news & E1 & _ & E3).
    rewrite E1. cbn [app] in E3 |- *. apply E3. now rewrite app_nil_r.
  - intros idx.
    destruct (remove_split idx parsedFiles) as [->|(a & x & b & E & ->)];
      [exact D|].
    rewrite E in D. exact (months_distinct_delete _ _ _ D).
Qed.

(** X12. When the list closed over is stale, a month can be imported twice:
    a file imported again while the list closed over does not hold its
    record yet is appended as a second, identical record; it is refused
    when the list closed over holds it. *)
Theorem processFiles_stale_duplicate (file : File) (d : PdfData) :
  parsePdfInBrowser name pages_of file = Imported d ->
  endsWith (js ".pdf") (toLowerCase (name file)) = true ->
  processFiles name pages_of Number_toString [] [Imported d] [file]
  = [Imported d; Imported d]
  /\ ~ months_distinct [Imported d; Imported d]
  /\ exists erreur,
       processFiles name pages_of Number_toString [Imported d] [Imported d]
         [file]
       = [Imported d; Failed (name file) erreur].
Proof.
  intros Hp Hn.
  assert (R : same_month d (Imported d) = true).
  { destruct (parsePdfInBrowser_cases file)
      as [(e & E & _)|(d2 & E & _ & R)]; rewrite Hp in E; [discriminate|].
    now injection E as ->. }
  unfold processFiles. cbn [filter]. rewrite Hn. cbn [import_loop].
  rewrite Hp. cbn [existsb orb app]. rewrite R. cbn [orb].
  split; [reflexivity|]. split.
  - intros D. specialize (D [Imported d] d [] eq_refl).
    cbn [existsb] in D. rewrite R in D. discriminate D.
  - eexists. reflexivity.
Qed.

End ImporterFacts.

Lemma processFiles_months_distinct_witness :
  months_distinct
    (@processFiles latin1 (list (list jsstring))
       (fun _ => js "06_Saint_Alban_juin2024.pdf") (@Resolved _)
       (fun _ => js "2024") [] []
       [[[js "Menaces ou chantages 3 4 +"]];
        [[js "Menaces ou chantages 5 6 +"]]])
  /\ forall idx, months_distinct (remove idx []).
Proof.
  apply processFiles_months_distinct.
  intros [|x l1] d l2 E; discriminate E.
Defined.

Lemma processFiles_stale_duplicate_witness :
  exists d,
    @processFiles latin1 (list (list jsstring))
      (fun _ => js "06_Saint_Alban_juin2024.pdf") (@Resolved _)
      (fun _ => js "2024") [] [Imported d]
      [[[js "Menaces ou chantages 3 4 +"]]]
    = [Imported d; Imported d].
Proof.
  eexists.
  refine (proj1 (@processFiles_stale_duplicate latin1 (list (list jsstring))
                   (fun _ => js "06_Saint_Alban_juin2024.pdf") (@Resolved _)
                   (fun _ => js "2024")
                   [[js "Menaces ou chantages 3 4 +"]] _ _ _));
    vm_compute; reflexivity.
Defined.

(* ================================================================== *)
(** ** The API handler                                                 *)
(* ================================================================== *)

Section HandlerFacts.
Context {U : Unicode}.
Variable Buffer : Type.
Variable pdf : Buffer -> awaited jsstring.
Variable latin1_to_utf8 : jsstring -> jsstring.
Variable message_of : exception -> option jsstring.

(** [extractPdfData], in terms of the browser copy of the extraction. *)
Lemma extractPdfData_cases (pdfBuffer : Buffer) :
  extractPdfData pdf message_of pdfBuffer =
  match pdf pdfBuffer with
  | Rejected message => Rejected message
  | Resolved text =>
    match cambPro_lookups (normalise text) with
    | None => Rejected (message_of (ReferenceError (js "cambPro2")))
    | Some _ =>
        Resolved
          {| Extract.population := population (Browser.parsePdfText text);
             Extract.surface := surface (Browser.parsePdfText text);
             Extract.densite := densite (Browser.parsePdfText text);
             Extract.indicateurs :=
               Browser.buildIndicateursFrontend (Browser.parsePdfText text) |}
    end
  end.
Proof.
  unfold extractPdfData. destruct (pdf pdfBuffer) as [text|message];
    [|reflexivity].
  rewrite Server_parsePdfText_cases.
  destruct (cambPro_lookups (normalise text)); reflexivity.
Qed.

(** X13. The handler answers 400 exactly when no file or no buffer came or
    the received name is not parsed. Otherwise it answers 200 exactly when
    pdf-parse gives a text that holds a paired figure after one of the three
    labels of the burglaries of professional premises, and 500 in the
    remaining cases: when pdf-parse rejects, and when the text holds no such
    figure, the extraction then throwing. The body is a record exactly when
    the status is 200, and an error body never holds an empty message. *)
Theorem handler_status (file : option (UploadedFile Buffer)) :
  let r := handler pdf latin1_to_utf8 message_of file in
  let received :=
    exists f pdfBuffer p,
      file = Some f /\ buffer f = Some pdfBuffer
      /\ parseFilename (received_name latin1_to_utf8 (originalname f))
         = Parsed p in
  let extracted :=
    exists f pdfBuffer text,
      file = Some f /\ buffer f = Some pdfBuffer
      /\ pdf pdfBuffer = Resolved text
      /\ cambPro_lookups (normalise text) <> None in
  (status r = 400 <-> ~ received)
  /\ (status r = 200 <-> received /\ extracted)
  /\ (status r = 500 <-> received /\ ~ extracted)
  /\ match json r with
     | DataBody _ => status r = 200
     | ErreurBody erreur => status r <> 200 /\ erreur <> []
     end.
Proof.
  cbv zeta. unfold handler.
  assert (M : js "Aucun fichier PDF envoyé." <> []).
  { intros H. apply (f_equal (@List.length _)) in H. vm_compute in H.
    discriminate H. }
  assert (M2 : js "Erreur lors de l'extraction du PDF." <> []).
  { intros H. apply (f_equal (@List.length _)) in H. vm_compute in H.
    discriminate H. }
  destruct file as [f|].
  2:{ cbn [status json].
      assert (N : ~ exists f (pdfBuffer : Buffer) (p : ParsedFilename),
                    None = Some f /\ buffer f = Some pdfBuffer
                    /\ parseFilename
                         (received_name latin1_to_utf8 (originalname f))
                       = Parsed p)
        by (intros (f & b & p & E & _); discriminate E).
      repeat split; trivial; try discriminate; try tauto. }
  destruct (buffer f) as [pdfBuffer|] eqn:Eb.
  2:{ cbn [status json].
      assert (N : ~ exists f2 (pdfBuffer : Buffer) (p : ParsedFilename),
                    Some f = Some f2 /\ buffer f2 = Some pdfBuffer
                    /\ parseFilename
                         (received_name latin1_to_utf8 (originalname f2))
                       = Parsed p).
      { intros (f2 & b & p & E & E2 & _). injection E as <-. congruence. }
      repeat split; trivial; try discriminate; try tauto. }
  destruct (parseFilename_cases
              (received_name latin1_to_utf8 (originalname f)))
    as [(e & Ee & He)|(p & Ep & _)]; rewrite ?Ee, ?Ep.
  { cbn [status json].
    assert (N : ~ exists f2 (pdfBuffer : Buffer) (p : ParsedFilename),
                  Some f = Some f2 /\ buffer f2 = Some pdfBuffer
                  /\ parseFilename
                       (received_name latin1_to_utf8 (originalname f2))
                     = Parsed p).
    { intros (f2 & b & p & E & _ & E2). injection E as <-. congruence. }
    repeat split; trivial; try discriminate; try tauto. }
  assert (R : exists f2 (pdfBuffer : Buffer) (p : ParsedFilename),
                Some f = Some f2 /\ buffer f2 = Some pdfBuffer
                /\ parseFilename
                     (received_name latin1_to_utf8 (originalname f2))
                   = Parsed p)
    by (now exists f, pdfBuffer, p).
  rewrite extractPdfData_cases.
  destruct (pdf pdfBuffer) as [text|message] eqn:Et.
  - destruct (cambPro_lookups (normalise text)) as [v|] eqn:Ec;
      cbn [status json].
    + assert (X : exists f2 (pdfBuffer : Buffer) (text : jsstring),
                    Some f = Some f2 /\ buffer f2 = Some pdfBuffer
                    /\ pdf pdfBuffer = Resolved text
                    /\ cambPro_lookups (normalise text) <> None).
      { exists f, pdfBuffer, text. repeat split; trivial. now rewrite Ec. }
      repeat split; trivial; try discriminate; try tauto.
    + assert (X : ~ exists f2 (pdfBuffer : Buffer) (text : jsstring),
                      Some f = Some f2 /\ buffer f2 = Some pdfBuffer
                      /\ pdf pdfBuffer = Resolved text
                      /\ cambPro_lookups (normalise text) <> None).
      { intros (f2 & b & t2 & E & E2 & E3 & N). injection E as <-.
        rewrite Eb in E2. injection E2 as <-. rewrite Et in E3.
        injection E3 as <-. congruence. }
      repeat split; trivial; try discriminate; try tauto.
      now apply message_or_truthy.
  - cbn [status json].
    assert (X : ~ exists f2 (pdfBuffer : Buffer) (text : jsstring),
                    Some f = Some f2 /\ buffer f2 = Some pdfBuffer
                    /\ pdf pdfBuffer = Resolved text
                    /\ cambPro_lookups (normalise text) <> None).
    { intros (f2 & b & t2 & E & E2 & E3 & N). injection E as <-.
      rewrite Eb in E2. injection E2 as <-. rewrite Et in E3.
      discriminate E3. }
    repeat split; trivial; try discriminate; try tauto.
    now apply message_or_truthy.
Qed.

End HandlerFacts.

(* ================================================================== *)
(** ** The API and the importer, side by side                          *)
(* ================================================================== *)

Section SideBySide.
Context {U : Unicode}.
Variable Buffer : Type.
Variable pdf : Buffer -> awaited jsstring.
Variable latin1_to_utf8 : jsstring -> jsstring.
Variable message_of : exception -> option jsstring.
Variable File : Type.
Variable name : File -> jsstring.
Variable pages_of : File -> awaited (list (list jsstring)).



End SideBySide.


(* ================================================================== *)
(** ** The name given to a file without a name                         *)
(* ================================================================== *)

Section DefaultName.
Context {U : Unicode}.

Lemma parseFilename_document :
  parseFilename (js "document.pdf")
  = Erreur (js "Format de nom de fichier non reconnu : document.pdf").
Proof.
  unfold parseFilename. cbv zeta.
  replace (fixFilenameEncoding
             (trim (replace_one ([one (Chr (chr "."))] ++ lit_i "pdf" ++ [Eol])
                      [] (js "document.pdf"))))
    with (js "document") by (vm_compute; reflexivity).
  rewrite normalizeNFC_ascii by (vm_compute; reflexivity).
  replace (match_first reA (js "document")) with (@None rmatch)
    by (vm_compute; reflexivity).
  replace (match_first reB (js "document")) with (@None rmatch)
    by (vm_compute; reflexivity).
  vm_compute. reflexivity.
Qed.

(** X15. The name [document.pdf] that both callers give to a file without a
    name is never parsed: the importer fails on such a file and the handler
    answers 400, with the message of an unrecognised format, whatever the
    document holds. *)
Theorem default_name_rejected :
  (forall (File : Type) (name : File -> jsstring)
          (pages_of : File -> awaited (list (list jsstring))) (file : File),
     name file = [] ->
     parsePdfInBrowser name pages_of file
     = Failed (js "document.pdf")
         (js "Format de nom de fichier non reconnu : document.pdf"))
  /\ (forall (Buffer : Type) (pdf : Buffer -> awaited jsstring)
            (latin1_to_utf8 : jsstring -> jsstring)
            (message_of : exception -> option jsstring) (pdfBuffer : Buffer),
       handler pdf latin1_to_utf8 message_of
         (Some {| originalname := []; buffer := Some pdfBuffer |})
       = {| status := 400;
            json :=
              ErreurBody
                (js "Format de nom de fichier non reconnu : document.pdf") |}).
Proof.
  split.
  - intros File name pages_of file E. unfold parsePdfInBrowser.
    rewrite E, parseFilename_document. reflexivity.
  - intros Buffer pdf latin1_to_utf8 message_of pdfBuffer.
    unfold handler. cbn [buffer originalname].
    replace (received_name latin1_to_utf8 []) with (js "document.pdf")
      by (unfold received_name; vm_compute; reflexivity).
    rewrite parseFilename_document. reflexivity.
Qed.

End DefaultName.

(* ================================================================== *)
(** ** The variation                                                   *)
(* ================================================================== *)

(** X16. The variation of a number with itself: [+0] for a finite positive
    number, [NaN] for [+Infinity], [null] for any other number (zero,
    negative or [NaN]); in both copies. *)
Theorem varPct_unchanged (x : number) :
  Browser.varPct (Some x) (Some x) =
  match x with
  | S754_finite false _ _ => Some (S754_zero false)
  | S754_infinity false => Some NaN
  | _ => None
  end
  /\ Server.varPct (Some x) (Some x) = Browser.varPct (Some x) (Some x).
Proof.
  split; [|reflexivity].
  unfold Browser.varPct. change (of_Z 0) with (S754_zero false).
  destruct x as [s|[|]| |[|] m e]; try reflexivity.
  change (gtb (S754_finite false m e) (S754_zero false)) with true.
  cbv iota. f_equal.
  assert (E : sub (S754_finite false m e) (S754_finite false m e)
              = S754_zero false).
  { unfold sub, SFsub. cbv zeta. now rewrite Z.sub_diag. }
  rewrite E. reflexivity.
Qed.

(** X17. In the indicators built from an extracted text, the variation of
    the facts is [null] exactly when the text gave no two numbers of facts
    or the first of them is zero; otherwise both numbers are natural numbers
    and the variation is a number. *)
Theorem extracted_variation (text : jsstring) :
  exists g,
    entry "general_faits"
      (Browser.buildIndicateursFrontend (Browser.parsePdfText text)) = Some g
    /\ (variationPct g = None <->
        valN1 g = None \/ valN1 g = Some (of_Z 0))
    /\ (valN1 g = None <-> valN g = None)
    /\ natural (valN1 g) /\ natural (valN g).
Proof.
  eexists. split; [reflexivity|].
  cbn [snd Ind.variationPct Ind.valN1 Ind.valN].
  destruct (Browser_parsePdfText_figures text) as (_ & N1 & N & I & _).
  repeat split; trivial; try apply I.
  - destruct N1 as [E1|(a & Ha & E1)]; rewrite E1 in *; [now left|].
    destruct N as [E|(b & Hb & E)]; [apply I in E; discriminate E|].
    rewrite E. unfold Browser.varPct.
    rewrite of_Z_gtb by (trivial; change (2 ^ 53)%Z with 9007199254740992%Z; lia).
    destruct (0 <? a)%Z eqn:E0; [discriminate|]. intros _. right.
    apply Z.ltb_ge in E0. now replace a with 0%Z by lia.
  - intros [E|E]; rewrite E; [reflexivity|].
    destruct (faitsN (Browser.parsePdfText text)); reflexivity.
Qed.

(* ================================================================== *)
(** ** The extension of a name                                         *)
(* ================================================================== *)

Lemma match_here_pdf (pos : nat) (s : jsstring) :
  match_here pdf_pattern pos s mstate0 =
  if is_pdf_extension s then Some (pos + 4, [])%nat else None.
Proof.
  unfold pdf_pattern.
  change ([one (Chr (chr "."))] ++ lit_i "pdf" ++ [Eol])
    with [one (Chr (chr ".")); one (ChrI (chr "p")); one (ChrI (chr "d"));
          one (ChrI (chr "f")); Eol].
  rewrite match_here_one. destruct s as [|a s]; [reflexivity|].
  cbn [is_pdf_extension]. destruct (mem (Chr (chr ".")) a); [|now destruct s as [|? [|? [|? [|? ?]]]]].
  rewrite match_here_one. destruct s as [|b s]; [reflexivity|].
  destruct (mem (ChrI (chr "p")) b); [|now destruct s as [|? [|? [|? ?]]]].
  rewrite match_here_one. destruct s as [|c s]; [reflexivity|].
  destruct (mem (ChrI (chr "d")) c); [|now destruct s as [|? [|? ?]]].
  rewrite match_here_one. destruct s as [|d s]; [reflexivity|].
  destruct (mem (ChrI (chr "f")) d); [|now destruct s as [|? ?]].
  destruct s as [|e s]; cbn [match_here andb captured mstate0]; [|reflexivity].
  do 2 f_equal. lia.
Qed.

Lemma is_pdf_extension_length (s : jsstring) :
  is_pdf_extension s = true -> List.length s = 4%nat.
Proof. destruct s as [|? [|? [|? [|? [|? ?]]]]]; now cbn. Qed.

(** The pattern matches at the extension, the only place it can. *)
Lemma search_pdf (b ext : jsstring) :
  is_pdf_extension ext = true ->
  forall pos,
  search_from pdf_pattern pos (b ++ ext)
  = Some (mk_match (pos + List.length b) ext (pos + List.length b + 4, [])%nat).
Proof.
  intros He. induction b as [|c b IH]; intros pos.
  - cbn [app List.length]. rewrite Nat.add_0_r.
    destruct ext as [|a ext]; [discriminate He|].
    cbn [search_from]. rewrite match_here_pdf, He. reflexivity.
  - cbn [app search_from]. rewrite match_here_pdf.
    assert (N : is_pdf_extension (c :: b ++ ext) = false).
    { destruct (is_pdf_extension (c :: b ++ ext)) eqn:E; [|reflexivity].
      pose proof (is_pdf_extension_length _ E) as L1.
      pose proof (is_pdf_extension_length _ He) as L2.
      cbn [List.length] in L1. rewrite length_app in L1. lia. }
    rewrite N, IH. cbn [List.length].
    now replace (pos + S (List.length b))%nat
      with (S pos + List.length b)%nat by lia.
Qed.

Lemma search_pdf_none (s : jsstring) :
  has_pdf_extension s = false ->
  forall pos, search_from pdf_pattern pos s = None.
Proof.
  induction s as [|c s IH]; intros H pos; cbn [has_pdf_extension] in H;
    apply orb_false_iff in H; destruct H as [H1 H2]; cbn [search_from];
    rewrite match_here_pdf, H1; [reflexivity|now apply IH].
Qed.

Lemma replace_one_pdf (b ext : jsstring) :
  is_pdf_extension ext = true -> replace_one pdf_pattern [] (b ++ ext) = b.
Proof.
  intros He. unfold replace_one, match_first. rewrite (@search_pdf b ext He).
  cbn [m_start m_stop mk_match fst app Nat.add].
  rewrite firstn_app, firstn_all, Nat.sub_diag. cbn [firstn].
  rewrite app_nil_r.
  rewrite skipn_app, skipn_all2 by lia.
  replace (List.length b + 4 - List.length b)%nat with 4%nat by lia.
  apply is_pdf_extension_length in He.
  rewrite skipn_all2 by lia. now rewrite app_nil_r.
Qed.

Section Extension.
Context {U : Unicode}.

(** X18. A name is parsed alike with the extension [.pdf] in any letter case,
    and without an extension. *)
Theorem parseFilename_extension (b ext : jsstring) :
  is_pdf_extension ext = true ->
  parsed (parseFilename (b ++ ext)) = parsed (parseFilename (b ++ js ".pdf"))
  /\ (has_pdf_extension b = false ->
      parsed (parseFilename b) = parsed (parseFilename (b ++ js ".pdf"))).
Proof.
  intros He.
  assert (G : forall s1 s2,
             replace_one pdf_pattern [] s1 = replace_one pdf_pattern [] s2 ->
             parsed (parseFilename s1) = parsed (parseFilename s2)).
  { intros s1 s2 E. unfold parseFilename. cbv zeta. fold pdf_pattern.
    rewrite E.
    destruct (match_first reA _); [reflexivity|].
    destruct (match_first reB _); reflexivity. }
  split.
  - apply G. now rewrite !replace_one_pdf.
  - intros Hb. apply G. rewrite replace_one_pdf by reflexivity.
    unfold replace_one, match_first. now rewrite search_pdf_none.
Qed.

End Extension.

Lemma parseFilename_extension_witness :
  parsed (@parseFilename latin1 (js "Saint_Alban_juin2024" ++ js ".PdF"))
  = parsed (@parseFilename latin1 (js "Saint_Alban_juin2024" ++ js ".pdf"))
  /\ (has_pdf_extension (js "Saint_Alban_juin2024") = false ->
      parsed (@parseFilename latin1 (js "Saint_Alban_juin2024"))
      = parsed (@parseFilename latin1 (js "Saint_Alban_juin2024" ++ js ".pdf"))).
Proof.
  exact (@parseFilename_extension latin1 (js "Saint_Alban_juin2024")
           (js ".PdF") eq_refl).
Defined.

(* ================================================================== *)
(** ** The words of the text                                           *)
(* ================================================================== *)

Lemma trimEnd_spaces (b : jsstring) :
  forallb is_space b = true -> trimEnd b = [].
Proof. destruct b as [|c b]; [reflexivity|]. rewrite trimEnd_cons. now intros ->. Qed.

Lemma trimEnd_nil_spaces (b : jsstring) :
  trimEnd b = [] -> forallb is_space b = true.
Proof.
  destruct b as [|c b]; [reflexivity|]. rewrite trimEnd_cons.
  now destruct (forallb is_space (c :: b)).
Qed.

Lemma trimEnd_app_spaces (a b : jsstring) :
  forallb is_space b = true -> trimEnd (a ++ b) = trimEnd a.
Proof.
  intros Hb. induction a as [|x a IH]; [now apply trimEnd_spaces|].
  cbn [app]. rewrite !trimEnd_cons, IH. cbn [forallb].
  now rewrite forallb_app, Hb, andb_true_r.
Qed.

Lemma trimEnd_app (a b : jsstring) :
  forallb is_space b = false -> trimEnd (a ++ b) = a ++ trimEnd b.
Proof.
  intros Hb. induction a as [|x a IH]; [reflexivity|].
  cbn [app]. rewrite trimEnd_cons, IH. cbn [forallb].
  now rewrite forallb_app, Hb, !andb_false_r.
Qed.

Lemma trimEnd_word (cur : jsstring) :
  forallb (fun c => negb (is_space c)) cur = true -> trimEnd cur = cur.
Proof.
  induction cur as [|x cur IH]; [reflexivity|]. cbn [forallb]. intros H.
  apply andb_true_iff in H. destruct H as [Hx Hc].
  rewrite trimEnd_cons, (IH Hc). cbn [forallb].
  apply negb_true_iff in Hx. now rewrite Hx.
Qed.

Lemma squeeze_true_head (s : jsstring) :
  match squeeze true s with [] => True | c :: _ => is_space c = false end.
Proof.
  induction s as [|c s IH]; [exact I|]. cbn [squeeze].
  destruct (is_space c) eqn:E; [exact IH|exact E].
Qed.

Lemma words_from_nonempty (s : jsstring) :
  forall cur w, In w (words_from cur s) -> w <> [].
Proof.
  induction s as [|c s IH]; intros cur w; cbn [words_from].
  - destruct cur; [intros []|]. intros [<-|[]]. discriminate.
  - destruct (is_space c).
    + destruct cur; [apply IH|]. intros [<-|H]; [discriminate|].
      exact (IH _ _ H).
    + apply IH.
Qed.

Lemma join_cons_nonempty (sep w : jsstring) (l : list jsstring) :
  w <> [] -> join sep (w :: l) <> [].
Proof.
  intros Hw. cbn [join]. destruct l.
  - exact Hw.
  - destruct w; [congruence|discriminate].
Qed.

(** The normalised text, from the words of the text read so far. *)
Lemma normalise_words_from (s : jsstring) :
  forall cur,
  forallb (fun c => negb (is_space c)) cur = true ->
  trimEnd (cur ++ match cur with
                  | [] => squeeze true s
                  | _ => squeeze false s
                  end)
  = join (js " ") (words_from cur s).
Proof.
  change (js " ") with [32%N].
  induction s as [|c s IH]; intros cur Hc.
  - cbn [words_from squeeze]. destruct cur as [|x cur]; [reflexivity|].
    rewrite app_nil_r. cbn [join]. now apply trimEnd_word.
  - cbn [words_from squeeze]. destruct (is_space c) eqn:Ec.
    + destruct cur as [|x cur]; [exact (IH [] eq_refl)|].
      specialize (IH [] eq_refl). cbn [app] in IH.
      pose proof (squeeze_true_head s) as Hh.
      destruct (words_from [] s) as [|w ws] eqn:Ew.
      * cbn [join] in IH |- *.
        apply trimEnd_nil_spaces in IH.
        change ((x :: cur) ++ 32%N :: squeeze true s)
          with ((x :: cur) ++ (32%N :: squeeze true s)).
        rewrite trimEnd_app_spaces; [now apply trimEnd_word|].
        cbn [forallb]. now rewrite IH.
      * assert (Hw : w <> [])
          by (apply (@words_from_nonempty s [] w); rewrite Ew; now left).
        assert (N : forallb is_space (squeeze true s) = false).
        { destruct (forallb is_space (squeeze true s)) eqn:E; [|reflexivity].
          apply trimEnd_spaces in E. rewrite E in IH. symmetry in IH.
          now apply join_cons_nonempty in IH. }
        replace ((x :: cur) ++ 32%N :: squeeze true s)
          with (((x :: cur) ++ [32%N]) ++ squeeze true s)
          by (now rewrite <- app_assoc).
        rewrite trimEnd_app by exact N. rewrite IH, <- app_assoc.
        reflexivity.
    + assert (Hc2 : forallb (fun c => negb (is_space c)) (cur ++ [c]) = true).
      { rewrite forallb_app, Hc. cbn [forallb]. now rewrite Ec. }
      specialize (IH (cur ++ [c]) Hc2).
      rewrite <- IH. destruct cur as [|x cur]; cbn [app].
      * reflexivity.
      * rewrite <- app_assoc. reflexivity.
Qed.

Lemma squeeze_true_trimStart (s : jsstring) :
  trimStart (squeeze false s) = squeeze true s.
Proof.
  destruct s as [|c s]; [reflexivity|]. cbn [squeeze].
  destruct (is_space c) eqn:E.
  - cbn [trimStart]. change (is_space 32) with true. cbv iota.
    pose proof (squeeze_true_head s) as H.
    destruct (squeeze true s) as [|x t]; [reflexivity|].
    cbn [trimStart]. now rewrite H.
  - cbn [trimStart]. now rewrite E.
Qed.

Lemma normalise_join_words (text : jsstring) :
  normalise text = join (js " ") (words text).
Proof.
  rewrite normalise_squeeze. unfold trim. rewrite squeeze_true_trimStart.
  exact (normalise_words_from text [] eq_refl).
Qed.

(** A white-space character ends the word being read. *)
Lemma words_from_space (a b : jsstring) (c : char) :
  is_space c = true ->
  forall cur, words_from cur (a ++ c :: b) = words_from cur a ++ words b.
Proof.
  intros Hc. induction a as [|x a IH]; intros cur.
  - cbn [app words_from]. rewrite Hc. now destruct cur.
  - cbn [app words_from]. destruct (is_space x).
    + destruct cur; [apply IH|]. cbn [app]. now rewrite IH.
    + apply IH.
Qed.

Lemma words_join (items : list jsstring) :
  words (join (js " ") items) = List.concat (map words items).
Proof.
  change (js " ") with [32%N].
  induction items as [|x items IH]; [reflexivity|].
  cbn [join map List.concat]. destruct items as [|y items].
  - cbn [map List.concat]. now rewrite app_nil_r.
  - cbn [app]. unfold words at 1. rewrite words_from_space by reflexivity.
    now rewrite IH.
Qed.

Lemma fullText_from (pages : list (list jsstring)) :
  forall text,
  fold_left (fun text items => text ++ join (js " ") items ++ js " ") pages
    text
  = text
    ++ List.concat
         (map (fun items => join (js " ") items ++ js " ") pages).
Proof.
  induction pages as [|p pages IH]; intros text;
    cbn [fold_left map List.concat].
  - now rewrite app_nil_r.
  - now rewrite IH, <- !app_assoc.
Qed.

Lemma words_fullText (pages : list (list jsstring)) :
  words (fullText pages) = List.concat (map words (List.concat pages)).
Proof.
  unfold fullText. rewrite fullText_from. cbn [app empty].
  induction pages as [|p pages IH]; [reflexivity|].
  cbn [map List.concat]. change (js " ") with [32%N]. rewrite <- app_assoc.
  cbn [app]. unfold words at 1. rewrite words_from_space by reflexivity.
  change (js " ") with [32%N] in IH. rewrite IH.
  rewrite map_app, concat_app. f_equal.
  change [32%N] with (js " "). apply words_join.
Qed.

(** X19. The normalised text is the words of the text, joined by single
    spaces; so the extraction depends on the words of the text only. *)
Theorem normalise_words (text : jsstring) :
  normalise text = join (js " ") (words text)
  /\ forall text2, words text2 = words text ->
       Browser.parsePdfText text2 = Browser.parsePdfText text.
Proof.
  split; [apply normalise_join_words|].
  intros text2 E. apply parsePdfText_of_normalise.
  now rewrite !normalise_join_words, E.
Qed.

(** X20. The text assembled from the pages has the words of the text items,
    in their order; so the division of the items into pages does not bear
    on the extraction: it gives what it gives on the items joined by a
    space. *)
Theorem fullText_layout (pages : list (list jsstring)) :
  words (fullText pages) = List.concat (map words (List.concat pages))
  /\ Browser.parsePdfText (fullText pages)
     = Browser.parsePdfText (join (js " ") (List.concat pages)).
Proof.
  split; [apply words_fullText|].
  apply parsePdfText_of_normalise.
  now rewrite !normalise_join_words, words_fullText, words_join.
Qed.

(* ================================================================== *)
(** ** How a name is cut                                               *)
(* ================================================================== *)

Lemma search_from_at (rx : regex) (s : jsstring) :
  forall pos m, search_from rx pos s = Some m ->
  exists k res,
    match_here rx (pos + k) (skipn k s) mstate0 = Some res
    /\ m = mk_match (pos + k) (skipn k s) res.
Proof.
  induction s as [|c s IH]; intros pos m; cbn [search_from].
  - destruct (match_here rx pos [] mstate0) as [res|] eqn:E; [|discriminate].
    intros H. injection H as <-. exists 0%nat, res.
    now rewrite Nat.add_0_r.
  - destruct (match_here rx pos (c :: s) mstate0) as [res|] eqn:E.
    + intros H. injection H as <-. exists 0%nat, res.
      now rewrite Nat.add_0_r.
    + intros H. destruct (IH _ _ H) as (k & res & Hm & ->).
      exists (S k), res. cbn [skipn].
      now replace (pos + S k)%nat with (S pos + k)%nat by lia.
Qed.

Lemma accepts_rep (k : cset) (lo : nat) (hi : option nat) (g : bool)
  (w : jsstring) :
  accepts [Rep k lo hi g] w ->
  forallb (mem k) w = true /\ (lo <= List.length w)%nat
  /\ within hi (List.length w).
Proof.
  cbn [accepts]. intros (w1 & w2 & -> & Hd & Hlo & Hhi & ->).
  rewrite app_nil_r. now repeat split.
Qed.

Lemma mem_chr (a x : char) : mem (Chr a) x = true -> x = a.
Proof. cbn [mem]. intros H. apply N.eqb_eq in H. now symmetry. Qed.

(** The second pattern cuts the name at its last underscore and before
    its four final digits. *)
Lemma reB_split (s : jsstring) (res : nat * list jsstring) :
  match_here reB 0 s mstate0 = Some res ->
  exists c m y,
    s = c ++ chr "_" :: m ++ y /\ snd res = [c; m; y]
    /\ accepts [plus_lazy Dot] c
    /\ accepts [plus_lazy month_chars] m /\ accepts [times Digit 4 4] y.
Proof.
  unfold reB. intros H. apply match_here_bol in H. destruct H as [_ H].
  apply (@match_here_group [plus_lazy Dot]) in H; [|reflexivity].
  destruct H as (c & s1 & -> & Hc & H).
  apply match_here_one_some in H. destruct H as (x1 & s2 & -> & Hx & H).
  apply mem_chr in Hx. subst x1.
  apply (@match_here_group [plus_lazy month_chars]) in H; [|reflexivity].
  destruct H as (m & s3 & -> & Hm & H).
  apply (@match_here_group [times Digit 4 4]) in H; [|reflexivity].
  destruct H as (y & s4 & -> & Hy & H).
  apply match_here_eol in H. destruct H as [-> H]. cbn [captured app] in H.
  exists c, m, y. rewrite app_nil_r. now repeat split.
Qed.

(** The first pattern sets a number of one or two digits apart first. *)
Lemma reA_split (s : jsstring) (res : nat * list jsstring) :
  match_here reA 0 s mstate0 = Some res ->
  exists n c m y,
    s = (n ++ [chr "_"]) ++ c ++ chr "_" :: m ++ y
    /\ snd res = [n; c; m; y] /\ accepts [times Digit 1 2] n
    /\ accepts [plus_lazy Dot] c
    /\ accepts [plus_lazy month_chars] m /\ accepts [times Digit 4 4] y.
Proof.
  unfold reA. intros H. apply match_here_bol in H. destruct H as [_ H].
  apply (@match_here_group [times Digit 1 2]) in H; [|reflexivity].
  destruct H as (n & s0 & -> & Hn & H).
  apply match_here_one_some in H. destruct H as (x0 & s0' & -> & Hx0 & H).
  apply mem_chr in Hx0. subst x0.
  apply (@match_here_group [plus_lazy Dot]) in H; [|reflexivity].
  destruct H as (c & s1 & -> & Hc & H).
  apply match_here_one_some in H. destruct H as (x1 & s2 & -> & Hx & H).
  apply mem_chr in Hx. subst x1.
  apply (@match_here_group [plus_lazy month_chars]) in H; [|reflexivity].
  destruct H as (m & s3 & -> & Hm & H).
  apply (@match_here_group [times Digit 4 4]) in H; [|reflexivity].
  destruct H as (y & s4 & -> & Hy & H).
  apply match_here_eol in H. destruct H as [-> H]. cbn [captured app] in H.
  exists n, c, m, y. rewrite app_nil_r, <- app_assoc. now repeat split.
Qed.

Lemma match_first_bol (rx : regex) (s : jsstring) (m : rmatch) :
  match_first (Bol :: rx) s = Some m ->
  exists res,
    match_here (Bol :: rx) 0 s mstate0 = Some res /\ m = mk_match 0 s res.
Proof.
  unfold match_first. intros H. apply search_from_at in H.
  destruct H as (k & res & Hm & ->).
  destruct (match_here_bol _ _ _ _ Hm) as [E _]. cbn [Nat.add] in E.
  subst k. now exists res.
Qed.

Lemma commune_of_replace (c : jsstring) :
  trim (replace_all (lit "-") (js " ") (replace_all (lit "_") (js " ") c))
  = commune_of c.
Proof.
  change (lit "-") with [one (Chr 45)]. change (lit "_") with [one (Chr 95)].
  change (js " ") with [32%N]. unfold replace_all, commune_of.
  rewrite !replace_from_char, map_map. f_equal. apply map_ext. intros x.
  destruct (95 =? x)%N eqn:E1.
  - apply N.eqb_eq in E1. subst x. reflexivity.
  - rewrite (N.eqb_sym x 95), E1, (N.eqb_sym x 45). reflexivity.
Qed.

Section Decomposition.
Context {U : Unicode}.

(** X1. The year of a parsed name is the value of the four digits that end
    the name, once the extension is removed and the name trimmed, repaired
    and composed: an integer between 0 and 9999. *)
Theorem parseFilename_year (filename : jsstring) (p : ParsedFilename) :
  parseFilename filename = Parsed p ->
  exists b y,
    base_of filename = b ++ y
    /\ List.length y = 4%nat /\ forallb is_digit y = true
    /\ annee p = of_Z (digits_val y)
    /\ (0 <= digits_val y <= 9999)%Z.
Proof.
  unfold parseFilename. cbv zeta. fold pdf_pattern. fold (base_of filename).
  intros H.
  assert (G : forall b c m y,
             base_of filename = b ++ y ->
             accepts [times Digit 4 4] y ->
             resolve c m y = Parsed p ->
             exists b y,
               base_of filename = b ++ y
               /\ List.length y = 4%nat /\ forallb is_digit y = true
               /\ annee p = of_Z (digits_val y)
               /\ (0 <= digits_val y <= 9999)%Z).
  { intros b c m y Eb Hy R.
    apply accepts_digits in Hy. destruct Hy as [Dy Ly].
    destruct (resolve_fields _ _ _ R) as [Ea _].
    exists b, y. repeat split; trivial; try lia.
    - rewrite Ea. apply parseInt10_digits; [|exact Dy].
      intros ->. cbn in Ly. lia.
    - now apply digits_val_bound.
    - pose proof (digits_val_bound y Dy) as B.
      replace (List.length y) with 4%nat in B by lia. cbn in B. lia. }
  destruct (match_first reA (base_of filename)) as [mA|] eqn:EA.
  - apply match_first_bol in EA. destruct EA as (res & Hm & ->).
    destruct (reA_split _ Hm) as (n & c & m & y & Eb & E & _ & _ & _ & Hy).
    cbn [m_get mk_match m_groups] in H. rewrite E in H. cbn [nth] in H.
    apply (G ((n ++ [chr "_"]) ++ c ++ chr "_" :: m) c m y); trivial.
    rewrite Eb, <- !app_assoc. reflexivity.
  - destruct (match_first reB (base_of filename)) as [mB|] eqn:EB;
      [|discriminate].
    apply match_first_bol in EB. destruct EB as (res & Hm & ->).
    destruct (reB_split _ Hm) as (c & m & y & Eb & E & _ & _ & Hy).
    cbn [m_get mk_match m_groups] in H. rewrite E in H. cbn [nth] in H.
    apply (G (c ++ chr "_" :: m) c m y); trivial.
    rewrite Eb, <- !app_assoc. reflexivity.
Qed.

(** X21. How a parsed name is cut: after a number of one or two digits and
    its underscore (none when the first pattern does not match), the commune
    runs up to the last underscore, the month token holds neither an
    underscore nor a digit, and four digits end the name. The commune is
    this part with underscores and hyphens turned into spaces, trimmed; the
    year is the value of the four digits. *)
Theorem parseFilename_decomposition (filename : jsstring)
  (p : ParsedFilename) :
  parseFilename filename = Parsed p ->
  exists pre c m y,
    base_of filename = pre ++ c ++ chr "_" :: m ++ y
    /\ (pre = [] /\ match_first reA (base_of filename) = None
        \/ exists n, pre = n ++ [chr "_"] /\ forallb is_digit n = true
                     /\ (1 <= List.length n <= 2)%nat)
    /\ c <> [] /\ m <> []
    /\ forallb (fun x => negb (is_digit x) && negb (x =? chr "_")%N) m = true
    /\ forallb is_digit y = true /\ List.length y = 4%nat
    /\ commune p = commune_of c /\ annee p = of_Z (digits_val y)
    /\ resolve c m y = Parsed p.
Proof.
  unfold parseFilename. cbv zeta. fold pdf_pattern. fold (base_of filename).
  intros H.
  assert (G : forall pre c m y,
             base_of filename = pre ++ c ++ chr "_" :: m ++ y ->
             (pre = [] /\ match_first reA (base_of filename) = None
              \/ exists n, pre = n ++ [chr "_"] /\ forallb is_digit n = true
                           /\ (1 <= List.length n <= 2)%nat) ->
             accepts [plus_lazy Dot] c ->
             accepts [plus_lazy month_chars] m ->
             accepts [times Digit 4 4] y ->
             resolve c m y = Parsed p ->
             exists pre c m y,
               base_of filename = pre ++ c ++ chr "_" :: m ++ y
               /\ (pre = [] /\ match_first reA (base_of filename) = None
                   \/ exists n, pre = n ++ [chr "_"]
                                /\ forallb is_digit n = true
                                /\ (1 <= List.length n <= 2)%nat)
               /\ c <> [] /\ m <> []
               /\ forallb (fun x => negb (is_digit x) && negb (x =? chr "_")%N)
                    m = true
               /\ forallb is_digit y = true /\ List.length y = 4%nat
               /\ commune p = commune_of c /\ annee p = of_Z (digits_val y)
               /\ resolve c m y = Parsed p).
  { intros pre c m y Eb Hpre Hc Hm Hy R.
    apply accepts_rep in Hc. destruct Hc as (_ & Lc & _).
    apply accepts_rep in Hm. destruct Hm as (Dm & Lm & _).
    apply accepts_digits in Hy. destruct Hy as [Dy Ly].
    destruct (resolve_fields _ _ _ R) as [Ea Ec].
    exists pre, c, m, y. repeat split; trivial.
    - intros ->. cbn in Lc. lia.
    - intros ->. cbn in Lm. lia.
    - apply forallb_forall. intros x Hx. rewrite forallb_forall in Dm.
      specialize (Dm x Hx). unfold month_chars in Dm. cbn [mem] in Dm.
      rewrite negb_orb in Dm. now rewrite (N.eqb_sym x).
    - lia.
    - now rewrite Ec, commune_of_replace.
    - rewrite Ea. apply parseInt10_digits; [|exact Dy].
      intros ->. cbn in Ly. lia. }
  destruct (match_first reA (base_of filename)) as [mA|] eqn:EA.
  - apply match_first_bol in EA. destruct EA as (res & Hm & ->).
    destruct (reA_split _ Hm) as (n & c & m & y & Eb & E & Hn & Hc & Hmo & Hy).
    cbn [m_get mk_match m_groups] in H. rewrite E in H. cbn [nth] in H.
    apply (G (n ++ [chr "_"]) c m y); trivial.
    right. exists n. apply accepts_digits in Hn. now repeat split.
  - destruct (match_first reB (base_of filename)) as [mB|] eqn:EB;
      [|discriminate].
    apply match_first_bol in EB. destruct EB as (res & Hm & ->).
    destruct (reB_split _ Hm) as (c & m & y & Eb & E & Hc & Hmo & Hy).
    cbn [m_get mk_match m_groups] in H. rewrite E in H. cbn [nth] in H.
    apply (G [] c m y); trivial. left. now split.
Qed.

End Decomposition.

Lemma parseFilename_year_witness :
  exists b y,
    @base_of latin1 (js "12_Saint-Alban_DÃ©cembre2024.PDF") = b ++ y
    /\ List.length y = 4%nat /\ forallb is_digit y = true
    /\ of_Z 2024 = of_Z (digits_val y)
    /\ (0 <= digits_val y <= 9999)%Z.
Proof.
  apply (@parseFilename_year latin1 (js "12_Saint-Alban_DÃ©cembre2024.PDF")
           {| commune := js "Saint Alban"; mois := VNumber (of_Z 12);
              moisLabel := Some (js "Décembre"); annee := of_Z 2024 |}).
  vm_compute. reflexivity.
Defined.

Lemma parseFilename_decomposition_witness :
  exists pre c m y,
    @base_of latin1 (js "12_Saint-Alban_DÃ©cembre2024.PDF")
    = pre ++ c ++ chr "_" :: m ++ y
    /\ (pre = []
        /\ match_first reA
             (@base_of latin1 (js "12_Saint-Alban_DÃ©cembre2024.PDF")) = None
        \/ exists n, pre = n ++ [chr "_"] /\ forallb is_digit n = true
                     /\ (1 <= List.length n <= 2)%nat)
    /\ c <> [] /\ m <> []
    /\ forallb (fun x => negb (is_digit x) && negb (x =? chr "_")%N) m = true
    /\ forallb is_digit y = true /\ List.length y = 4%nat
    /\ js "Saint Alban" = commune_of c /\ of_Z 2024 = of_Z (digits_val y)
    /\ @resolve latin1 c m y
       = Parsed {| commune := js "Saint Alban"; mois := VNumber (of_Z 12);
                   moisLabel := Some (js "Décembre"); annee := of_Z 2024 |}.
Proof.
  apply (@parseFilename_decomposition latin1
           (js "12_Saint-Alban_DÃ©cembre2024.PDF")
           {| commune := js "Saint Alban"; mois := VNumber (of_Z 12);
              moisLabel := Some (js "Décembre"); annee := of_Z 2024 |}).
  vm_compute. reflexivity.
Defined.

(* ================================================================== *)
(** ** A text without figures                                          *)
(* ================================================================== *)

Lemma no_digit_skipn (n : nat) (s : jsstring) :
  no_digit s -> no_digit (skipn n s).
Proof.
  intros H x Hx. apply H. revert Hx. rewrite <- (firstn_skipn n s) at 2.
  intros Hx. apply in_or_app. now right.
Qed.

Lemma no_digit_firstn (n : nat) (s : jsstring) :
  no_digit s -> no_digit (firstn n s).
Proof.
  intros H x Hx. apply H. rewrite <- (firstn_skipn n s).
  apply in_or_app. now left.
Qed.

Lemma no_digit_run (s : jsstring) (hi : option nat) :
  no_digit s -> run_length Digit hi s = 0%nat.
Proof.
  intros H. destruct s as [|c s]; destruct hi as [[|h]|]; try reflexivity;
    cbn [run_length]; change (mem Digit c) with (is_digit c);
    now rewrite (H c (or_introl eq_refl)).
Qed.

(** Such a pattern matches no text without digits. *)
Lemma needs_digit_sound (rx : regex) :
  needs_digit rx = true ->
  forall pos s st, no_digit s -> match_here rx pos s st = None.
Proof.
  unfold needs_digit.
  induction rx as [|nd rx IH]; [discriminate|]. cbn [existsb].
  intros H pos s st Hs.
  destruct (match_here (nd :: rx) pos s st) as [res|] eqn:E; [|reflexivity].
  exfalso. destruct nd as [k lo hi g| | | |].
  - apply match_here_rep_some in E. destruct E as (n & Hn & E).
    destruct (match k with Digit => match lo with S _ => true | O => false end
                         | _ => false end) eqn:Ek.
    + destruct k; try discriminate Ek. destruct lo; [discriminate Ek|].
      rewrite (no_digit_run hi Hs) in Hn. lia.
    + assert (Hr : existsb (fun n => match n with
                                     | Rep Digit (S _) _ _ => true
                                     | _ => false
                                     end) rx = true).
      { destruct k; try exact H; destruct lo; try exact H; discriminate Ek. }
      rewrite (IH Hr _ _ _ (no_digit_skipn n Hs)) in E. discriminate E.
  - rewrite match_here_open in E. rewrite (IH H _ _ _ Hs) in E.
    discriminate E.
  - cbn [match_here] in E. destruct (opened st) as [[p0 s0]|];
      rewrite (IH H _ _ _ Hs) in E; discriminate E.
  - cbn [match_here] in E. destruct (pos =? 0)%nat; [|discriminate E].
    rewrite (IH H _ _ _ Hs) in E. discriminate E.
  - cbn [match_here] in E. destruct s; [|discriminate E].
    rewrite (IH H _ _ _ Hs) in E. discriminate E.
Qed.

Lemma search_no_digit (rx : regex) (s : jsstring) :
  needs_digit rx = true -> no_digit s ->
  forall pos, search_from rx pos s = None.
Proof.
  intros Hr. induction s as [|c s IH]; intros Hs pos; cbn [search_from];
    rewrite (@needs_digit_sound _ Hr _ _ _ Hs); [reflexivity|].
  apply IH. intros x Hx. apply Hs. now right.
Qed.

Lemma matches_no_digit (rx : regex) (s : jsstring) :
  needs_digit rx = true -> no_digit s ->
  forall pos skip, matches_from rx pos s skip = [].
Proof.
  intros Hr. induction s as [|c s IH]; intros Hs pos skip;
    destruct skip; cbn [matches_from]; try reflexivity;
    rewrite ?(@needs_digit_sound _ Hr _ _ _ Hs); try reflexivity;
    apply IH; intros x Hx; apply Hs; now right.
Qed.

Lemma getTwoIntsAfter_no_digit (norm label : jsstring) :
  no_digit norm -> Browser.getTwoIntsAfter norm label = (None, None).
Proof.
  intros H. unfold Browser.getTwoIntsAfter.
  destruct (indexOf label norm) as [idx|]; [|reflexivity].
  unfold match_all, slice. rewrite matches_no_digit; [reflexivity..|].
  now apply no_digit_firstn, no_digit_skipn.
Qed.

Lemma getOneIntAfter_no_digit (norm label : jsstring) :
  no_digit norm -> Browser.getOneIntAfter norm label = None.
Proof.
  intros H. unfold Browser.getOneIntAfter.
  destruct (indexOf label norm) as [idx|]; [|reflexivity].
  unfold match_first, slice. rewrite search_no_digit; [reflexivity..|].
  now apply no_digit_firstn, no_digit_skipn.
Qed.

Lemma squeeze_incl (s : jsstring) :
  forall b x, In x (squeeze b s) -> x = 32%N \/ In x s.
Proof.
  induction s as [|c s IH]; intros b x; cbn [squeeze]; [intros []|].
  destruct (is_space c).
  - destruct b.
    + intros H. destruct (IH _ _ H); [now left|right; now right].
    + intros [<-|H]; [now left|].
      destruct (IH _ _ H); [now left|right; now right].
  - intros [<-|H]; [right; now left|].
    destruct (IH _ _ H); [now left|right; now right].
Qed.

Lemma no_digit_normalise (text : jsstring) :
  no_digit text -> no_digit (normalise text).
Proof.
  intros H x Hx. rewrite normalise_squeeze in Hx. apply trim_incl in Hx.
  destruct (squeeze_incl _ _ _ Hx) as [->|Hin]; [reflexivity|now apply H].
Qed.

(** The group of a pattern with one group is a part of the subject. *)
Lemma match_first_group_in (pre body post : regex) (s : jsstring)
  (m : rmatch) :
  forallb (fun n => match n with Rep _ _ _ _ => true | _ => false end)
    (pre ++ body ++ post) = true ->
  match_first (pre ++ GOpen :: body ++ GClose :: post) s = Some m ->
  accepts body (m_get m 1) /\ forall x, In x (m_get m 1) -> In x s.
Proof.
  rewrite !forallb_app. intros Hb H.
  apply andb_true_iff in Hb. destruct Hb as [Hpre Hb].
  apply andb_true_iff in Hb. destruct Hb as [Hbody Hpost].
  apply search_from_at in H. destruct H as (k & res & H & ->).
  apply match_here_reps in H; [|exact Hpre].
  destruct H as (w0 & s3 & E3 & _ & H).
  apply match_here_group in H; [|exact Hbody].
  destruct H as (w & s4 & E4 & Hw & H).
  rewrite <- (app_nil_r post) in H.
  apply match_here_reps in H; [|exact Hpost].
  destruct H as (w1 & s5 & _ & _ & H).
  cbn [match_here captured mstate0 app] in H. injection H as <-.
  cbn [m_get mk_match m_groups snd nth]. split; [exact Hw|].
  intros x Hx. rewrite <- (firstn_skipn k s). apply in_or_app. right.
  rewrite E3. apply in_or_app. right. rewrite E4. apply in_or_app. now left.
Qed.

Lemma replace_first_incl (a b : char) (s : jsstring) :
  forall x, In x (replace_first [a] [b] s) -> x = b \/ In x s.
Proof.
  induction s as [|c s IH]; intros x; cbn [replace_first starts_with].
  - intros [].
  - destruct (a =? c)%N; cbn [andb].
    + cbn [app List.length skipn]. intros [<-|H]; [now left|right; now right].
    + intros [<-|H]; [right; now left|].
      destruct (IH _ H); [now left|right; now right].
Qed.

Lemma take_digits_no_digit (s : jsstring) :
  no_digit s -> take_digits s = ([], s).
Proof.
  destruct s as [|c s]; [reflexivity|]. intros H. cbn [take_digits].
  now rewrite (H c (or_introl eq_refl)).
Qed.

(** [parseFloat] of dots and commas is [NaN]. *)
Lemma parseFloat_punctuation (n : jsstring) :
  (forall x, In x n -> x = 46%N \/ x = 44%N) -> parseFloat n = NaN.
Proof.
  intros H. destruct n as [|c n]; [reflexivity|].
  assert (Hn : no_digit n).
  { intros x Hx. destruct (H x (or_intror Hx)) as [-> | ->]; reflexivity. }
  unfold parseFloat.
  destruct (H c (or_introl eq_refl)) as [-> | ->];
    cbn [trimStart]; change (is_space 46) with false;
    change (is_space 44) with false; cbv iota; cbn [take_sign N.eqb Pos.eqb];
    change (starts_with (js "Infinity") (46%N :: n)) with false;
    change (starts_with (js "Infinity") (44%N :: n)) with false;
    cbv iota; cbn [take_digits]; change (is_digit 46) with false;
    change (is_digit 44) with false; cbv iota; cbn [N.eqb Pos.eqb];
    rewrite ?(take_digits_no_digit Hn); reflexivity.
Qed.

Lemma normalizeNum_no_digit (w : jsstring) :
  forallb (mem num_chars) w = true -> no_digit w ->
  Browser.normalizeNum w = None.
Proof.
  intros Hc Hd. unfold Browser.normalizeNum. destruct w as [|c0 w0];
    [reflexivity|].
  set (w := c0 :: w0) in *. unfold replace_all. rewrite replace_from_one.
  change (js ",") with [44%N]. change (js ".") with [46%N].
  rewrite parseFloat_punctuation; [reflexivity|].
  intros x Hx. apply replace_first_incl in Hx.
  destruct Hx as [->|Hx]; [now left|].
  apply filter_In in Hx. destruct Hx as [Hx Hs].
  rewrite forallb_forall in Hc. specialize (Hc x Hx).
  specialize (Hd x Hx). unfold num_chars in Hc. cbn [mem] in Hc, Hs.
  change (mem Space x) with (is_space x) in Hs.
  change (chr ".") with 46%N in Hc. change (chr ",") with 44%N in Hc.
  rewrite Hd in Hc. apply negb_true_iff in Hs. rewrite Hs in Hc.
  cbn [orb] in Hc. rewrite orb_false_r in Hc.
  apply orb_true_iff in Hc. destruct Hc as [E|E]; apply N.eqb_eq in E;
    [now left|now right].
Qed.

Lemma re_taux_shape :
  re_taux =
  (lit_i "Taux de criminalité"
   ++ [ star Space; plus num_chars; star Space; one (Chr (chr "‰"));
        star Space ])
  ++ GOpen :: [plus num_chars]
  ++ GClose :: [star Space; one (Chr (chr "‰"))].
Proof. reflexivity. Qed.

Lemma taux_no_digit (norm : jsstring) :
  no_digit norm ->
  match match_first re_taux norm with
  | Some m => Browser.normalizeNum (m_get m 1)
  | None => None
  end = None.
Proof.
  intros H. destruct (match_first re_taux norm) as [m|] eqn:E;
    [|reflexivity].
  rewrite re_taux_shape in E. apply match_first_group_in in E;
    [|reflexivity].
  destruct E as [Ha Hin]. apply accepts_rep in Ha.
  apply normalizeNum_no_digit; [apply Ha|].
  intros x Hx. apply H. now apply Hin.
Qed.

(** X22. From a text without any digit the browser copy extracts nothing:
    it returns the set with every value [null]; the server copy throws. *)
Theorem parsePdfText_without_digits (text : jsstring) :
  no_digit text ->
  Browser.parsePdfText text = all_null
  /\ Server.parsePdfText text = Throw (ReferenceError (js "cambPro2")).
Proof.
  intros Ht. apply no_digit_normalise in Ht.
  assert (B : Browser.parsePdfText text = all_null).
  { unfold Browser.parsePdfText. cbv zeta. fold (normalise text).
    set (norm := normalise text) in *.
    rewrite (taux_no_digit Ht).
    rewrite !(getTwoIntsAfter_no_digit _ Ht).
    rewrite !(getOneIntAfter_no_digit _ Ht).
    unfold match_first.
    rewrite (@search_no_digit re_population norm eq_refl Ht).
    rewrite (@search_no_digit re_surface norm eq_refl Ht).
    rewrite (@search_no_digit re_densite norm eq_refl Ht).
    rewrite (@search_no_digit re_cumul norm eq_refl Ht).
    destruct (indexOf (js "Nombre de faits constatés") norm) as [idx|];
      [|reflexivity].
    assert (Hb : no_digit (slice idx (idx + 280) norm))
      by (now apply no_digit_firstn, no_digit_skipn).
    unfold match_all.
    rewrite (@matches_no_digit [plus Digit] _ eq_refl Hb).
    rewrite (@search_no_digit re_fait_i _ eq_refl Hb).
    rewrite (@search_no_digit re_fait _ eq_refl Hb).
    reflexivity. }
  split; [exact B|].
  rewrite Server_parsePdfText_cases.
  destruct (cambPro_lookups (normalise text)) as [v|] eqn:E; [|reflexivity].
  exfalso. unfold cambPro_lookups in E. cbv zeta in E.
  rewrite !(getTwoIntsAfter_no_digit _ Ht) in E. discriminate E.
Qed.

Lemma parsePdfText_without_digits_witness :
  Browser.parsePdfText (js "Rapport en cours de rédaction") = all_null
  /\ Server.parsePdfText (js "Rapport en cours de rédaction")
     = Throw (ReferenceError (js "cambPro2")).
Proof.
  apply parsePdfText_without_digits.
  intros x Hx. vm_compute in Hx.
  repeat (destruct Hx as [<-|Hx]; [reflexivity|]). destruct Hx.
Defined.

(* ================================================================== *)
(** ** The figures of the header                                       *)
(* ================================================================== *)

Lemma binary_normalize_not_NaN (m e : Z) (sz : bool) :
  isNaN (binary_normalize 53 1024 m e sz) = false.
Proof.
  unfold binary_normalize, binary_round.
  destruct m as [|p|p]; [reflexivity| |];
    destruct (shl_align _ _ _) as [mz ez];
    now apply binary_round_aux_not_NaN.
Qed.

Lemma of_decimal_not_NaN (m e : Z) : isNaN (of_decimal m e) = false.
Proof.
  unfold of_decimal. destruct (m =? 0)%Z; [reflexivity|].
  destruct (0 <=? e)%Z; [apply of_Z_not_NaN|].
  unfold of_ratio. cbv zeta. apply binary_normalize_not_NaN.
Qed.

(** [parseFloat] of a text that starts with a digit is a number. *)
Lemma parseFloat_leading_digit (d : char) (n : jsstring) :
  is_digit d = true -> isNaN (parseFloat (d :: n)) = false.
Proof.
  intros Hd. unfold parseFloat. cbn [trimStart].
  rewrite (digit_not_space d Hd).
  assert (Hs : take_sign (d :: n) = (false, d :: n)
               /\ starts_with (js "Infinity") (d :: n) = false).
  { unfold take_sign. unfold is_digit in Hd. apply andb_true_iff in Hd.
    destruct Hd as [H1 H2]. apply N.leb_le in H1, H2.
    replace (d =? 45)%N with false by (symmetry; apply N.eqb_neq; lia).
    replace (d =? 43)%N with false by (symmetry; apply N.eqb_neq; lia).
    split; [reflexivity|].
    change (js "Infinity") with (73%N :: js "nfinity"). cbn [starts_with].
    now replace (73 =? d)%N with false by (symmetry; apply N.eqb_neq; lia). }
  destruct Hs as [-> ->]. cbn [take_digits]. rewrite Hd.
  destruct (take_digits n) as [ip r1].
  destruct (match r1 with
            | [] => ([], r1)
            | c :: r1' => if (c =? 46)%N then take_digits r1' else ([], r1)
            end) as [fp r2].
  cbn [app signed]. apply of_decimal_not_NaN.
Qed.

Lemma normalizeNum_leading_digit (w : jsstring) :
  match w with d :: _ => is_digit d = true | [] => False end ->
  Browser.normalizeNum w <> None.
Proof.
  destruct w as [|d w]; [intros []|]. intros Hd.
  unfold Browser.normalizeNum, replace_all. rewrite replace_from_one.
  cbn [filter]. change (mem Space d) with (is_space d).
  rewrite (digit_not_space d Hd). cbn [negb].
  change (js ",") with [44%N]. cbn [replace_first starts_with].
  assert (E : (44 =? d)%N = false).
  { unfold is_digit in Hd. apply andb_true_iff in Hd.
    destruct Hd as [H1 H2]. apply N.leb_le in H1, H2.
    apply N.eqb_neq. lia. }
  rewrite E. cbn [andb]. now rewrite parseFloat_leading_digit.
Qed.

Lemma header_group_value (k : cset) (w : jsstring) :
  accepts [one Digit; star k] w -> Browser.normalizeNum w <> None.
Proof.
  cbn [accepts one star].
  intros (w1 & w2 & -> & D1 & L1 & _ & _).
  apply normalizeNum_leading_digit.
  destruct w1 as [|d w1]; [cbn in L1; lia|].
  cbn [forallb app] in D1 |- *. now apply andb_true_iff in D1.
Qed.

Lemma re_surface_shape :
  re_surface =
  (lit_i "Surface" ++ [ star Space; opt (Chr (chr ":")); star Space ])
  ++ GOpen :: [one Digit; star (Union Digit (Union Space (Chr (chr ","))))]
  ++ GClose :: ([star Space] ++ lit_i "km").
Proof. reflexivity. Qed.

Lemma re_densite_shape :
  re_densite =
  (lit_i "Densité" ++ [ star Space; opt (Chr (chr ":")); star Space ])
  ++ GOpen :: [one Digit; star (Union Digit (Union Space (Chr (chr ","))))]
  ++ GClose :: ([star Space] ++ lit_i "hab").
Proof. reflexivity. Qed.

Lemma header_field (rx pre post : regex) (k : cset) (norm : jsstring) :
  rx = pre ++ GOpen :: [one Digit; star k] ++ GClose :: post ->
  forallb (fun n => match n with Rep _ _ _ _ => true | _ => false end)
    (pre ++ [one Digit; star k] ++ post) = true ->
  match match_first rx norm with
  | Some m => Browser.normalizeNum (m_get m 1)
  | None => None
  end = None
  <-> match_first rx norm = None.
Proof.
  intros -> Hb. destruct (match_first _ norm) as [m|] eqn:E; [|tauto].
  apply match_first_group in E; [|exact Hb].
  apply header_group_value in E. split; [congruence|discriminate].
Qed.

(** X23. The population, the surface and the density are [null] only when
    their pattern matches nowhere in the normalised text: a match always
    gives a number, its group starting with a digit. The server copy returns
    the same whenever it returns. *)
Theorem parsePdfText_header (text : jsstring) (r : RawIndicatorSet) :
  Browser.parsePdfText text = r \/ Server.parsePdfText text = Return r ->
  (population r = None <-> match_first re_population (normalise text) = None)
  /\ (surface r = None <-> match_first re_surface (normalise text) = None)
  /\ (densite r = None <-> match_first re_densite (normalise text) = None).
Proof.
  intros H.
  assert (E : Browser.parsePdfText text = r)
    by (destruct H as [H|H]; [exact H|now apply Server_returns_as_Browser]).
  subst r. unfold Browser.parsePdfText. cbv zeta. fold (normalise text).
  repeat match goal with
         | |- context [match ?X with pair _ _ => _ end] => destruct X
         end.
  cbn [population surface densite]. repeat split.
  - apply (@header_field _ _ _ _ _ re_population_shape eq_refl).
  - apply (@header_field _ _ _ _ _ re_population_shape eq_refl).
  - apply (@header_field _ _ _ _ _ re_surface_shape eq_refl).
  - apply (@header_field _ _ _ _ _ re_surface_shape eq_refl).
  - apply (@header_field _ _ _ _ _ re_densite_shape eq_refl).
  - apply (@header_field _ _ _ _ _ re_densite_shape eq_refl).
Qed.

Lemma parsePdfText_header_witness :
  (population (Browser.parsePdfText (js "Population : 3 456 habitants")) = None
   <-> match_first re_population
         (normalise (js "Population : 3 456 habitants")) = None)
  /\ (surface (Browser.parsePdfText (js "Population : 3 456 habitants")) = None
      <-> match_first re_surface
            (normalise (js "Population : 3 456 habitants")) = None)
  /\ (densite (Browser.parsePdfText (js "Population : 3 456 habitants")) = None
      <-> match_first re_densite
            (normalise (js "Population : 3 456 habitants")) = None).
Proof.
  apply (@parsePdfText_header (js "Population : 3 456 habitants")).
  left. reflexivity.
Defined.

(* ================================================================== *)
(** ** The two copies of the extraction                                *)
(* ================================================================== *)

(** X24. The server copy returns exactly on the texts that hold a paired
    figure after one of the three labels of the burglaries of professional
    premises, and it then returns what the browser copy returns; on every
    other text it throws. *)
Theorem Server_refines_Browser (text : jsstring) (r : RawIndicatorSet) :
  (Server.parsePdfText text = Return r
   <-> cambPro_lookups (normalise text) <> None
       /\ Browser.parsePdfText text = r)
  /\ (cambPro_lookups (normalise text) = None
      <-> exists e, Server.parsePdfText text = Throw e).
Proof.
  rewrite Server_parsePdfText_cases.
  destruct (cambPro_lookups (normalise text)) as [v|]; split; split.
  - intros H. injection H as <-. split; [discriminate|reflexivity].
  - intros [_ <-]. reflexivity.
  - discriminate.
  - intros [e H]. discriminate H.
  - discriminate.
  - intros [N _]. congruence.
  - intros _. eexists. reflexivity.
  - reflexivity.
Qed.

(* ================================================================== *)
(** ** Names of the two conventions                                    *)
(* ================================================================== *)

Lemma try_up_complete (A : Type) (f : nat -> option A) (n : nat) :
  forall k j, (k <= j <= k + n)%nat -> f j <> None -> try_up f k n <> None.
Proof.
  induction n as [|n IH]; intros k j Hj Hf; cbn [try_up].
  - replace j with k in Hf by lia. now destruct (f k).
  - destruct (f k) eqn:E; [discriminate|].
    assert (k <> j) by (intros ->; congruence).
    apply (IH (S k) j); [lia|exact Hf].
Qed.

Lemma run_length_ge (k : cset) (a b : jsstring) :
  forallb (mem k) a = true -> (List.length a <= run_length k None (a ++ b))%nat.
Proof.
  induction a as [|x a IH]; cbn [app List.length forallb]; [lia|].
  intros H. apply andb_true_iff in H. destruct H as [Hx Ha].
  cbn [run_length option_map]. rewrite Hx. specialize (IH Ha). lia.
Qed.

(** A lazy repetition matches as soon as some length lets the rest
    match. *)
Lemma match_here_lazy_complete (k : cset) (lo : nat) (rx : regex)
  (pos : nat) (a b : jsstring) (st : mstate) :
  forallb (mem k) a = true -> (lo <= List.length a)%nat ->
  match_here rx (pos + List.length a) b st <> None ->
  match_here (Rep k lo None false :: rx) pos (a ++ b) st <> None.
Proof.
  intros Ha Hlo Hr. cbn [match_here].
  pose proof (run_length_ge k a b Ha) as Hg.
  replace (run_length k None (a ++ b) <? lo)%nat with false
    by (symmetry; apply Nat.ltb_ge; lia).
  apply (@try_up_complete _ _ _ lo (List.length a)); [lia|].
  rewrite skipn_app, skipn_all, Nat.sub_diag. exact Hr.
Qed.

(** The four digits that end a name, and the end. *)
Lemma match_here_year (pos : nat) (y : jsstring) (st : mstate) :
  forallb is_digit y = true -> List.length y = 4%nat ->
  match_here [GClose; GOpen; times Digit 4 4; GClose; Eol] pos y st <> None.
Proof.
  intros Hd Hl.
  assert (R : run_length Digit (Some 4%nat) y = 4%nat).
  { destruct y as [|a [|b [|c [|d [|e y]]]]]; try discriminate Hl.
    cbn [forallb] in Hd. repeat (apply andb_true_iff in Hd;
                                 destruct Hd as [? Hd]).
    cbn [run_length option_map pred]. change (mem Digit) with is_digit.
    now rewrite H, H0, H1, H2. }
  assert (G : forall st2,
             match_here [GOpen; times Digit 4 4; GClose; Eol] pos y st2
             <> None).
  { intros st2. rewrite match_here_open. unfold times.
    rewrite match_here_greedy, R. cbn [Nat.ltb Nat.leb].
    erewrite try_down_first; [discriminate|].
    rewrite skipn_all2 by lia. cbn [match_here opened]. reflexivity. }
  cbn [match_here]. destruct (opened st) as [[p0 s0]|]; apply G.
Qed.

(** The month token and the year. *)
Lemma match_here_month (pos : nat) (m y : jsstring) (st : mstate) :
  m <> [] -> forallb (mem month_chars) m = true ->
  forallb is_digit y = true -> List.length y = 4%nat ->
  match_here
    [GOpen; plus_lazy month_chars; GClose; GOpen; times Digit 4 4; GClose;
     Eol] pos (m ++ y) st <> None.
Proof.
  intros Hm Dm Dy Ly. rewrite match_here_open. unfold plus_lazy.
  fold month_chars.
  apply match_here_lazy_complete; trivial.
  - destruct m; [congruence|cbn; lia].
  - now apply match_here_year.
Qed.

(** A commune, an underscore, a month token and four digits. *)
Lemma match_here_cut (pos : nat) (c m y : jsstring) (st : mstate) :
  c <> [] -> forallb (mem Dot) c = true ->
  m <> [] -> forallb (mem month_chars) m = true ->
  forallb is_digit y = true -> List.length y = 4%nat ->
  match_here
    [GOpen; plus_lazy Dot; GClose; one (Chr (chr "_")); GOpen;
     plus_lazy month_chars; GClose; GOpen; times Digit 4 4; GClose; Eol]
    pos (c ++ chr "_" :: m ++ y) st <> None.
Proof.
  intros Hc Dc Hm Dm Dy Ly.
  rewrite match_here_open. unfold plus_lazy at 1.
  apply match_here_lazy_complete; trivial.
  - destruct c; [congruence|cbn; lia].
  - erewrite match_here_close by reflexivity.
    rewrite match_here_one. cbn [mem]. rewrite N.eqb_refl.
    now apply match_here_month.
Qed.

(** The second pattern matches such a name. *)
Lemma match_here_reB (c m y : jsstring) :
  c <> [] -> forallb (mem Dot) c = true ->
  m <> [] -> forallb (mem month_chars) m = true ->
  forallb is_digit y = true -> List.length y = 4%nat ->
  match_here reB 0 (c ++ chr "_" :: m ++ y) mstate0 <> None.
Proof.
  intros Hc Dc Hm Dm Dy Ly. unfold reB. fold month_chars.
  change (match_here (Bol :: ?r) 0 ?s ?st) with (match_here r 0 s st).
  now apply match_here_cut.
Qed.

(** The first pattern matches it after a number and an underscore. *)
Lemma match_here_reA (n c m y : jsstring) :
  forallb is_digit n = true -> (1 <= List.length n <= 2)%nat ->
  c <> [] -> forallb (mem Dot) c = true ->
  m <> [] -> forallb (mem month_chars) m = true ->
  forallb is_digit y = true -> List.length y = 4%nat ->
  match_here reA 0 ((n ++ [chr "_"]) ++ c ++ chr "_" :: m ++ y) mstate0
  <> None.
Proof.
  intros Dn Ln Hc Dc Hm Dm Dy Ly. unfold reA. fold month_chars.
  change (match_here (Bol :: ?r) 0 ?s ?st) with (match_here r 0 s st).
  rewrite match_here_open. unfold times at 1. rewrite match_here_greedy.
  rewrite <- app_assoc. cbn [app].
  assert (R : run_length Digit (Some 2%nat)
                (n ++ chr "_" :: c ++ chr "_" :: m ++ y) = List.length n).
  { destruct n as [|a [|b [|d n]]]; cbn [List.length] in Ln; try lia;
      cbn [forallb] in Dn;
      repeat (apply andb_true_iff in Dn; destruct Dn as [? Dn]);
      cbn [app run_length option_map pred List.length];
      change (mem Digit) with is_digit; rewrite ?H, ?H0;
      rewrite ?run_length_zero; reflexivity. }
  rewrite R.
  replace (List.length n <? 1)%nat with false
    by (symmetry; apply Nat.ltb_ge; lia).
  match goal with
  | |- try_down ?f _ _ <> None =>
      destruct (f (List.length n)) as [res|] eqn:E
  end.
  - erewrite try_down_first by exact E. discriminate.
  - exfalso. revert E. rewrite skipn_app, skipn_all, Nat.sub_diag.
    cbn [skipn app]. erewrite match_here_close by reflexivity.
    rewrite match_here_one. cbn [mem]. rewrite N.eqb_refl.
    now apply match_here_cut.
Qed.

Lemma app_eq_length (A : Type) (a a2 b b2 : list A) :
  a ++ b = a2 ++ b2 -> List.length a = List.length a2 -> a = a2 /\ b = b2.
Proof.
  revert a2. induction a as [|x a IH]; intros [|x2 a2] E L;
    try discriminate L; [now split|].
  cbn [app] in E. injection E as -> E. cbn [List.length] in L.
  destruct (IH a2 E) as [-> ->]; [lia|now split].
Qed.

Lemma first_occurrence (A : Type) (x : A) (a a2 b b2 : list A) :
  a ++ x :: b = a2 ++ x :: b2 -> ~ In x a -> ~ In x a2 -> a = a2 /\ b = b2.
Proof.
  revert a2. induction a as [|u a IH]; intros [|u2 a2] E N N2; cbn [app] in E.
  - injection E as ->. now split.
  - injection E as -> _. exfalso. apply N2. now left.
  - injection E as -> _. exfalso. apply N. now left.
  - injection E as -> E.
    destruct (IH a2 E) as [-> ->];
      [intros H; apply N; now right|intros H; apply N2; now right|].
    now split.
Qed.

Lemma month_chars_no_underscore (m : jsstring) :
  forallb (mem month_chars) m = true -> ~ In (chr "_") m.
Proof.
  intros H Hin. rewrite forallb_forall in H. specialize (H _ Hin).
  discriminate H.
Qed.

(** A name is cut in one way only. *)
Lemma cut_unique (c m y c2 m2 y2 : jsstring) :
  c ++ chr "_" :: m ++ y = c2 ++ chr "_" :: m2 ++ y2 ->
  forallb (mem month_chars) m = true -> forallb (mem month_chars) m2 = true ->
  List.length y = 4%nat -> List.length y2 = 4%nat ->
  c = c2 /\ m = m2 /\ y = y2.
Proof.
  intros E Dm Dm2 Ly Ly2.
  apply (f_equal (@rev _)) in E.
  rewrite !rev_app_distr in E. cbn [rev] in E.
  rewrite !rev_app_distr, <- !app_assoc in E. cbn [app] in E.
  apply app_eq_length in E; [|now rewrite !length_rev, Ly, Ly2].
  destruct E as [Ey E].
  apply first_occurrence in E.
  - destruct E as [Em Ec].
    apply (f_equal (@rev _)) in Ey, Em, Ec.
    rewrite !rev_involutive in Ey, Em, Ec. now repeat split.
  - rewrite <- in_rev. now apply month_chars_no_underscore.
  - rewrite <- in_rev. now apply month_chars_no_underscore.
Qed.

Lemma search_bol_later (rx : regex) (s : jsstring) :
  forall pos, search_from (Bol :: rx) (S pos) s = None.
Proof.
  induction s as [|x s IH]; intros pos; cbn [search_from match_here Nat.eqb];
    [reflexivity|apply IH].
Qed.

(** The first pattern asks for a digit first. *)
Lemma match_first_reA_none (s : jsstring) :
  match s with x :: _ => is_digit x = false | [] => True end ->
  match_first reA s = None.
Proof.
  intros H. unfold match_first, reA.
  assert (E : forall st, match_here (GOpen :: times Digit 1 2 :: GClose
                :: one (Chr (chr "_")) :: GOpen :: plus_lazy Dot :: GClose
                :: one (Chr (chr "_")) :: GOpen
                :: plus_lazy (Compl (Union Digit (Chr (chr "_")))) :: GClose
                :: GOpen :: times Digit 4 4 :: GClose :: [Eol]) 0 s st = None).
  { intros st. rewrite match_here_open. unfold times at 1.
    rewrite match_here_greedy.
    replace (run_length Digit (Some 2%nat) s) with 0%nat; [reflexivity|].
    destruct s as [|x s]; [reflexivity|]. cbn [run_length].
    change (mem Digit x) with (is_digit x). now rewrite H. }
  destruct s as [|x s]; cbn [search_from];
    change (match_here (Bol :: ?r) 0 ?t ?st) with (match_here r 0 t st);
    rewrite E; [reflexivity|apply search_bol_later].
Qed.

Lemma has_pair_absent (a b : char) (s : jsstring) :
  ~ In a s -> has_pair a b s = false.
Proof.
  induction s as [|x s IH]; [reflexivity|]. intros N.
  destruct s as [|y t]; [reflexivity|]. cbn [has_pair].
  replace (a =? x)%N with false
    by (symmetry; apply N.eqb_neq; intros ->; apply N; now left).
  cbn [andb orb]. apply IH. intros H. apply N. now right.
Qed.

(** The repair leaves a name of Basic Latin alone. *)
Lemma fixFilenameEncoding_ascii (s : jsstring) :
  is_ascii s = true -> fixFilenameEncoding s = s.
Proof.
  intros H. rewrite fixFilenameEncoding_repair_all. apply fold_repairs_noop.
  intros e _. apply has_pair_absent. intros Hin.
  unfold is_ascii in H. rewrite forallb_forall in H. specialize (H _ Hin).
  discriminate H.
Qed.

Lemma is_ascii_trim (s : jsstring) : is_ascii s = true -> is_ascii (trim s) = true.
Proof.
  unfold is_ascii. rewrite !forallb_forall. intros H x Hx.
  apply H. now apply trim_incl.
Qed.

Lemma has_pdf_extension_year (a y : jsstring) :
  forallb is_digit y = true -> List.length y = 4%nat ->
  has_pdf_extension (a ++ y) = false.
Proof.
  intros Dy Ly. induction a as [|x a IH].
  - destruct y as [|d [|b [|c [|e [|f y]]]]]; try discriminate Ly.
    cbn [forallb] in Dy. apply andb_true_iff in Dy. destruct Dy as [Dd _].
    cbn [app has_pdf_extension is_pdf_extension mem].
    replace (chr "." =? d)%N with false; [reflexivity|].
    symmetry. apply N.eqb_neq. intros <-. discriminate Dd.
  - cbn [app has_pdf_extension]. rewrite IH, orb_false_r.
    destruct (is_pdf_extension (x :: a ++ y)) eqn:E; [|reflexivity].
    apply is_pdf_extension_length in E. cbn [List.length] in E.
    rewrite length_app in E. lia.
Qed.

Lemma trim_name (s y : jsstring) :
  match s ++ y with x :: _ => is_space x = false | [] => True end ->
  forallb is_digit y = true -> y <> [] -> trim (s ++ y) = s ++ y.
Proof.
  intros Hh Dy Ny. unfold trim.
  assert (E : trimStart (s ++ y) = s ++ y).
  { destruct (s ++ y) as [|x t]; [reflexivity|]. cbn [trimStart].
    now rewrite Hh. }
  rewrite E.
  assert (W : forallb (fun c => negb (is_space c)) y = true).
  { apply forallb_forall. intros x Hx. rewrite forallb_forall in Dy.
    apply negb_true_iff. apply digit_not_space. now apply Dy. }
  rewrite trimEnd_app; [now rewrite (trimEnd_word _ W)|].
  destruct y as [|d y]; [congruence|]. cbn [forallb] in W |- *.
  apply andb_true_iff in W. destruct W as [Wd _].
  apply negb_true_iff in Wd. now rewrite Wd.
Qed.

Section Conventions.
Context {U : Unicode}.

Lemma resolve_conventional (c m y : jsstring) :
  is_ascii m = true ->
  truthy (get MOIS_MAP (map ascii_lower (trim m))) = true ->
  forallb is_digit y = true -> y <> [] ->
  resolve c m y = Parsed (conventional_record c m y).
Proof.
  intros Am Hm Dy Ny. unfold resolve, conventional_record. cbv zeta.
  rewrite (toLowerCase_ascii (trim m)) by now apply is_ascii_trim.
  unfold or_else. rewrite !Hm. cbn [negb]. rewrite commune_of_replace.
  now rewrite (parseInt10_digits Ny Dy).
Qed.

(** The base of a name of Basic Latin that starts with no white space and
    ends with the four digits, with or without extension. *)
Lemma base_of_conventional (s y ext : jsstring) :
  is_ascii (s ++ y) = true ->
  match s ++ y with x :: _ => is_space x = false | [] => True end ->
  forallb is_digit y = true -> List.length y = 4%nat ->
  ext = [] \/ is_pdf_extension ext = true ->
  base_of ((s ++ y) ++ ext) = s ++ y.
Proof.
  intros As Hh Dy Ly He. unfold base_of.
  assert (E : replace_one pdf_pattern [] ((s ++ y) ++ ext) = s ++ y).
  { destruct He as [->|He]; [|now apply replace_one_pdf].
    rewrite app_nil_r. unfold replace_one, match_first.
    now rewrite search_pdf_none by now apply has_pdf_extension_year. }
  rewrite E, trim_name; trivial.
  - rewrite fixFilenameEncoding_ascii by exact As.
    now apply normalizeNFC_ascii.
  - intros ->. discriminate Ly.
Qed.

(** X25. Names of the two conventions are parsed as written. Take a commune
    part and a month token of Basic Latin, the commune part without line
    break, the token without digit or underscore and, once trimmed and
    lower-cased, answered by the table of months with a truthy value, then
    four digits and the extension [.pdf] in any letter case or none. Written
    [commune_month2024.pdf], the commune part starting with neither a digit
    nor white space, or [06_commune_month2024.pdf] after a number of one or
    two digits, the name gives the commune part with underscores and
    hyphens as spaces, what the table answers for the token with the label
    at that index, and the year the digits write. *)
Theorem parseFilename_conventional (pre c m y ext : jsstring) :
  pre = []
  /\ match c with
     | x :: _ => is_digit x = false /\ is_space x = false
     | [] => False
     end
  \/ (exists n, pre = n ++ [chr "_"] /\ forallb is_digit n = true
                /\ (1 <= List.length n <= 2)%nat /\ c <> []) ->
  is_ascii c = true -> forallb (mem Dot) c = true ->
  is_ascii m = true -> m <> [] -> forallb (mem month_chars) m = true ->
  truthy (get MOIS_MAP (map ascii_lower (trim m))) = true ->
  forallb is_digit y = true -> List.length y = 4%nat ->
  ext = [] \/ is_pdf_extension ext = true ->
  parseFilename (pre ++ c ++ chr "_" :: m ++ y ++ ext)
  = Parsed (conventional_record c m y).
Proof.
  intros Hpre Ac Dc Am Nm Dm Hm Dy Ly He.
  assert (Ny : y <> []) by (intros ->; discriminate Ly).
  assert (Ay : is_ascii y = true).
  { unfold is_ascii. apply forallb_forall. intros x Hx.
    rewrite forallb_forall in Dy. specialize (Dy x Hx).
    unfold is_digit in Dy. apply andb_true_iff in Dy.
    destruct Dy as [_ D2]. apply N.leb_le in D2. apply N.ltb_lt. lia. }
  assert (Nc : c <> []).
  { destruct Hpre as [[_ Hc]|(n & _ & _ & _ & Hc)]; [|exact Hc].
    now destruct c. }
  assert (Apre : is_ascii pre = true
                 /\ match pre ++ c with
                    | x :: _ => is_space x = false
                    | [] => True
                    end).
  { destruct Hpre as [[-> Hc]|(n & -> & Dn & Ln & _)].
    - split; [reflexivity|]. cbn [app]. destruct c; [exact I|apply Hc].
    - split.
      + unfold is_ascii. rewrite forallb_app. apply andb_true_iff.
        split; [|reflexivity]. apply forallb_forall. intros x Hx.
        rewrite forallb_forall in Dn. specialize (Dn x Hx).
        unfold is_digit in Dn. apply andb_true_iff in Dn.
        destruct Dn as [_ D2]. apply N.leb_le in D2. apply N.ltb_lt. lia.
      + destruct n as [|d n]; [cbn in Ln; lia|]. cbn [app].
        cbn [forallb] in Dn. apply andb_true_iff in Dn.
        now apply digit_not_space. }
  destruct Apre as [Apre Hh].
  set (s := pre ++ c ++ chr "_" :: m).
  assert (Es : pre ++ c ++ chr "_" :: m ++ y ++ ext = (s ++ y) ++ ext).
  { unfold s. rewrite <- ?app_assoc. cbn [app]. now rewrite <- ?app_assoc. }
  assert (Eb : base_of ((s ++ y) ++ ext) = s ++ y).
  { apply base_of_conventional; trivial.
    - unfold s, is_ascii in *.
      repeat (rewrite forallb_app || cbn [forallb]).
      rewrite !andb_true_iff.
      repeat split;
        first [exact Apre | exact Ac | exact Am | exact Ay | reflexivity].
    - unfold s. rewrite <- !app_assoc.
      destruct (pre ++ c) as [|x t] eqn:Et.
      + apply app_eq_nil in Et. destruct Et as [_ ->]. congruence.
      + rewrite app_assoc, Et. exact Hh. }
  rewrite Es. unfold parseFilename. cbv zeta. fold pdf_pattern.
  fold (base_of ((s ++ y) ++ ext)). rewrite Eb.
  assert (Ecut : s ++ y = pre ++ c ++ chr "_" :: m ++ y).
  { unfold s. rewrite <- !app_assoc. cbn [app]. reflexivity. }
  rewrite Ecut.
  destruct Hpre as [[-> Hc]|(n & -> & Dn & Ln & _)].
  - cbn [app].
    rewrite match_first_reA_none
      by (destruct c as [|x c]; [destruct Hc|exact (proj1 Hc)]).
    destruct (match_first reB _) as [mB|] eqn:EB.
    + apply match_first_bol in EB. destruct EB as (res & Hres & ->).
      destruct (reB_split _ Hres) as (c2 & m2 & y2 & E & Eg & _ & Hm2 & Hy2).
      apply accepts_rep in Hm2. destruct Hm2 as (Dm2 & _).
      apply accepts_digits in Hy2. destruct Hy2 as [_ Ly2].
      destruct (cut_unique _ _ _ _ _ _ E Dm Dm2 Ly) as (<- & <- & <-);
        [lia|].
      cbn [m_get mk_match m_groups]. rewrite Eg. cbn [nth].
      now apply resolve_conventional.
    + exfalso. unfold match_first in EB.
      destruct (c ++ chr "_" :: m ++ y) as [|x t] eqn:Et;
        [now destruct c|].
      cbn [search_from] in EB. rewrite <- Et in EB.
      pose proof (@match_here_reB c m y Nc Dc Nm Dm Dy Ly) as G.
      destruct (match_here reB 0 _ mstate0); [discriminate EB|congruence].
  - destruct (match_first reA _) as [mA|] eqn:EA.
    + apply match_first_bol in EA. destruct EA as (res & Hres & ->).
      destruct (reA_split _ Hres)
        as (n2 & c2 & m2 & y2 & E & Eg & Hn2 & _ & Hm2 & Hy2).
      apply accepts_rep in Hm2. destruct Hm2 as (Dm2 & _).
      apply accepts_digits in Hy2. destruct Hy2 as [_ Ly2].
      apply accepts_digits in Hn2. destruct Hn2 as [Dn2 _].
      rewrite (app_assoc (n ++ [chr "_"]) c),
        (app_assoc (n2 ++ [chr "_"]) c2) in E.
      destruct (cut_unique _ _ _ _ _ _ E Dm Dm2 Ly) as (E1 & <- & <-);
        [lia|].
      rewrite <- !app_assoc in E1. cbn [app] in E1.
      apply first_occurrence in E1.
      * destruct E1 as [<- <-].
        cbn [m_get mk_match m_groups]. rewrite Eg. cbn [nth].
        now apply resolve_conventional.
      * intros Hin. rewrite forallb_forall in Dn. specialize (Dn _ Hin).
        discriminate Dn.
      * intros Hin. rewrite forallb_forall in Dn2. specialize (Dn2 _ Hin).
        discriminate Dn2.
    + exfalso. unfold match_first in EA.
      pose proof (@match_here_reA n c m y Dn Ln Nc Dc Nm Dm Dy Ly) as G.
      rewrite <- app_assoc in G.
      destruct ((n ++ [chr "_"]) ++ c ++ chr "_" :: m ++ y) as [|x t] eqn:Et.
      * destruct n; discriminate Et.
      * cbn [search_from] in EA. rewrite <- Et in EA.
        rewrite <- app_assoc in EA.
        destruct (match_here reA 0 _ mstate0); [discriminate EA|congruence].
Qed.

End Conventions.

Lemma parseFilename_conventional_witness :
  @parseFilename latin1
    (js "06_" ++ js "Saint-Alban" ++ chr "_" :: js "JUIN" ++ js "2024"
     ++ js ".PDF")
  = Parsed (conventional_record (js "Saint-Alban") (js "JUIN") (js "2024")).
Proof.
  apply (@parseFilename_conventional latin1 (js "06_") (js "Saint-Alban")
           (js "JUIN") (js "2024") (js ".PDF")).
  - right. exists (js "06").
    repeat split; first [reflexivity | discriminate | (vm_compute; lia)].
  - reflexivity.
  - reflexivity.
  - reflexivity.
  - discriminate.
  - reflexivity.
  - reflexivity.
  - reflexivity.
  - reflexivity.
  - right. reflexivity.
Defined.

(* ================================================================== *)
(** ** The pair in its intended layout                                 *)
(* ================================================================== *)

(** A greedy repetition takes a whole run when the rest matches after
    it. *)
Lemma match_here_greedy_take (k : cset) (lo : nat) (rx : regex) (pos : nat)
  (a b : jsstring) (st : mstate) (res : nat * list jsstring) :
  forallb (mem k) a = true -> (lo <= List.length a)%nat ->
  match b with [] => True | c :: _ => mem k c = false end ->
  match_here rx (pos + List.length a) b st = Some res ->
  match_here (Rep k lo None true :: rx) pos (a ++ b) st = Some res.
Proof.
  intros Ha Hlo Hb Hr. rewrite match_here_greedy.
  rewrite (run_length_app k a b Ha Hb).
  replace (List.length a <? lo)%nat with false
    by (symmetry; apply Nat.ltb_ge; lia).
  apply try_down_first.
  now rewrite skipn_app, skipn_all, Nat.sub_diag.
Qed.

Lemma space_not_digit (c : char) : is_space c = true -> is_digit c = false.
Proof.
  intros H. destruct (is_digit c) eqn:E; [|reflexivity].
  now rewrite (digit_not_space c E) in H.
Qed.

Lemma sign_delimiter (c : char) :
  mem delimiter c = true -> is_digit c = false -> is_space c = false.
Proof.
  unfold delimiter. cbn [mem]. change (mem Digit c) with (is_digit c).
  intros H D. rewrite D, orb_false_r in H.
  apply orb_true_iff in H. destruct H as [H|H].
  - apply N.eqb_eq in H. now subst c.
  - apply orb_true_iff in H. destruct H as [H|H]; apply N.eqb_eq in H;
      now subst c.
Qed.

(** Two figures, white space between them, then a sign. *)
Lemma re_pair_intended (pos : nat) (d1 sp d2 sp2 rest : jsstring)
  (sign : char) :
  digits_group d1 -> sp <> [] -> forallb is_space sp = true ->
  digits_group d2 -> forallb is_space sp2 = true ->
  mem delimiter sign = true -> is_digit sign = false ->
  exists stop,
    match_here re_pair pos (d1 ++ sp ++ d2 ++ sp2 ++ sign :: rest) mstate0
    = Some (stop, [d1; d2]).
Proof.
  intros [N1 D1] Nsp Dsp [N2 D2] Dsp2 Hs Hd.
  pose proof (sign_delimiter sign Hs Hd) as Hss.
  assert (L1 : (1 <= List.length d1)%nat)
    by (destruct d1; cbn; [congruence|lia]).
  assert (L2 : (1 <= List.length d2)%nat)
    by (destruct d2; cbn; [congruence|lia]).
  assert (Lsp : (1 <= List.length sp)%nat)
    by (destruct sp; cbn; [congruence|lia]).
  eexists. unfold re_pair, plus, star.
  rewrite match_here_open.
  apply match_here_greedy_take; trivial.
  { destruct sp as [|x sp]; [congruence|]. cbn [app forallb mem] in Dsp |- *.
    apply andb_true_iff in Dsp. now apply space_not_digit. }
  erewrite match_here_close by reflexivity. cbn [captured app].
  replace (pos + List.length d1 - pos)%nat with (List.length d1) by lia.
  rewrite firstn_app, firstn_all, Nat.sub_diag. cbn [firstn].
  rewrite app_nil_r.
  apply match_here_greedy_take; trivial.
  { destruct d2 as [|x d2]; [congruence|]. cbn [app forallb mem] in D2 |- *.
    apply andb_true_iff in D2. now apply digit_not_space. }
  rewrite match_here_open.
  apply match_here_greedy_take; trivial.
  { destruct sp2 as [|x sp2]; cbn [app forallb mem] in Dsp2 |- *;
      [exact Hd|].
    apply andb_true_iff in Dsp2. now apply space_not_digit. }
  erewrite match_here_close by reflexivity. cbn [captured app].
  replace (pos + List.length d1 + List.length sp + List.length d2
           - (pos + List.length d1 + List.length sp))%nat
    with (List.length d2) by lia.
  rewrite firstn_app, firstn_all, Nat.sub_diag. cbn [firstn].
  rewrite app_nil_r.
  apply match_here_greedy_take; trivial; [lia|].
  rewrite match_here_one. fold delimiter. rewrite Hs.
  cbn [match_here captured]. reflexivity.
Qed.

(** No candidate starts before the first digit. *)
Lemma matches_skip_prefix (pre s : jsstring) :
  no_digit pre ->
  forall pos,
  matches_from re_pair pos (pre ++ s) 0
  = matches_from re_pair (pos + List.length pre) s 0.
Proof.
  induction pre as [|x pre IH]; intros H pos.
  - cbn [app List.length]. now rewrite Nat.add_0_r.
  - cbn [app List.length matches_from].
    assert (E : match_here re_pair pos (x :: pre ++ s) mstate0 = None).
    { unfold re_pair, plus. rewrite match_here_open, match_here_greedy.
      cbn [run_length]. change (mem Digit x) with (is_digit x).
      now rewrite (H x (or_introl eq_refl)). }
    rewrite E, IH; [|intros z Hz; apply H; now right].
    f_equal. lia.
Qed.

(** X26. The pair in its intended layout is the pair returned. When the
    window after the label holds no digit before a first figure, then white
    space, a second figure, optional white space and a sign [+], [-] or [%],
    and the two figures pass the two filters (none above 200; not a first
    one above 25 with a second one below 5), [getTwoIntsAfter] returns
    these two figures, in both copies. *)
Theorem getTwoIntsAfter_intended (norm label pre d1 sp d2 sp2 rest : jsstring)
  (sign : char) :
  window 180 norm label = Some (pre ++ d1 ++ sp ++ d2 ++ sp2 ++ sign :: rest) ->
  no_digit pre -> digits_group d1 -> sp <> [] -> forallb is_space sp = true ->
  digits_group d2 -> forallb is_space sp2 = true ->
  mem delimiter sign = true -> is_digit sign = false ->
  (digits_val d1 <= 200)%Z -> (digits_val d2 <= 200)%Z ->
  ~ (25 < digits_val d1 /\ digits_val d2 < 5)%Z ->
  Browser.getTwoIntsAfter norm label
  = (Some (of_Z (digits_val d1)), Some (of_Z (digits_val d2)))
  /\ Server.getTwoIntsAfter norm label = Browser.getTwoIntsAfter norm label.
Proof.
  intros Hw Hpre G1 Nsp Dsp G2 Dsp2 Hs Hd A1 A2 A3.
  split; [|reflexivity].
  rewrite getTwoIntsAfter_window, Hw. unfold match_all.
  rewrite matches_skip_prefix by exact Hpre.
  destruct (@re_pair_intended (0 + List.length pre) d1 sp d2 sp2 rest sign
              G1 Nsp Dsp G2 Dsp2 Hs Hd) as (stop & E).
  destruct (digits_group_value G1) as [E1 P1].
  destruct (digits_group_value G2) as [E2 P2].
  assert (B : forall t, (0 <= t <= 200 -> 0 <= t < 2 ^ 53)%Z)
    by (intros t Ht; change (2 ^ 53)%Z with 9007199254740992%Z; lia).
  assert (R : forall ms,
             Browser.scan_pairs
               (mk_match (0 + List.length pre)
                  (d1 ++ sp ++ d2 ++ sp2 ++ sign :: rest) (stop, [d1; d2])
                :: ms)
             = (Some (of_Z (digits_val d1)), Some (of_Z (digits_val d2)))).
  { intros ms. apply scan_pairs_accept.
    - exact E1.
    - exact E2.
    - cbn [to_number]. rewrite !of_Z_gtb by (trivial; apply B; lia).
      apply orb_false_iff. split; apply Z.ltb_ge; lia.
    - cbn [to_number]. rewrite of_Z_gtb, of_Z_ltb by (trivial; apply B; lia).
      apply andb_false_iff.
      destruct (Z.lt_ge_cases 25 (digits_val d1)) as [X|X].
      + right. apply Z.ltb_ge. lia.
      + left. apply Z.ltb_ge. lia. }
  destruct (d1 ++ sp ++ d2 ++ sp2 ++ sign :: rest) as [|c s] eqn:Es;
    cbn [matches_from]; rewrite E; apply R.
Qed.

Lemma getTwoIntsAfter_intended_witness :
  Browser.getTwoIntsAfter (js "Menaces ou chantages : 7   9 +")
    (js "Menaces ou chantages")
  = (Some (of_Z (digits_val (js "7"))), Some (of_Z (digits_val (js "9"))))
  /\ Server.getTwoIntsAfter (js "Menaces ou chantages : 7   9 +")
       (js "Menaces ou chantages")
     = Browser.getTwoIntsAfter (js "Menaces ou chantages : 7   9 +")
         (js "Menaces ou chantages").
Proof.
  apply (@getTwoIntsAfter_intended
           (js "Menaces ou chantages : 7   9 +")
           (js "Menaces ou chantages") (js " : ") (js "7") (js "   ")
           (js "9") (js " ") empty (chr "+")).
  - reflexivity.
  - intros x Hx. vm_compute in Hx.
    repeat (destruct Hx as [<-|Hx]; [reflexivity|]). destruct Hx.
  - split; [discriminate|reflexivity].
  - discriminate.
  - reflexivity.
  - split; [discriminate|reflexivity].
  - reflexivity.
  - reflexivity.
  - reflexivity.
  - vm_compute. discriminate.
  - vm_compute. discriminate.
  - vm_compute. intros [H _]. discriminate H.
Defined.
